(** * solana-tx-kit: a shallow embedding of the transaction pipeline core

    The development follows the TypeScript sources module by module:

    - [Errors]      src/errors.ts            (coded errors with cause chains)
    - [Classifier]  src/retry/error-classifier.ts
    - [Retry]       src/retry/retry.ts       (withRetry, computeDelay)
    - [Breaker]     src/rpc/circuit-breaker.ts
    - [Health]      src/rpc/health-tracker.ts
    - [Pool]        src/rpc/connection-pool.ts
    - [Blockhash]   src/blockhash/blockhash-manager.ts
    - [Fee]         src/priority-fee/fee-estimator.ts
    - [Sender]      src/sender/transaction-sender.ts

    Conventions.  Millisecond timestamps and integer counters are [Z];
    quantities the source computes with fractional arithmetic (back-off
    delays, the latency average, the error rate) are exact rationals [Q]
    standing for the IEEE doubles of the source.  Mutable objects are
    threaded explicitly: an operation takes the state of the object it
    mutates and returns the new state next to its result.  [Date.now()] is
    an argument [now] of synchronous methods; asynchronous code runs over an
    abstract environment that the RPC collaborators transform. *)

From stdpp Require Import gmap strings list pretty.
From Stdlib Require Import QArith Qminmax Qround Qpower ZArith Lia Lqa.
From Stdlib Require Import Sorting.Sorted Sorting.Permutation.

#[local] Open Scope string_scope.
#[local] Open Scope list_scope.
#[local] Open Scope Z_scope.

(** ** Errors (src/errors.ts) *)

Module Errors.

(** [enum SolTxErrorCode]: every member's value is its own name. *)
Inductive SolTxErrorCode : Type :=
| RETRIES_EXHAUSTED | NON_RETRYABLE
| BLOCKHASH_EXPIRED | BLOCKHASH_FETCH_FAILED
| SIMULATION_FAILED | INSUFFICIENT_FUNDS
| CONFIRMATION_TIMEOUT | TRANSACTION_FAILED
| ALL_ENDPOINTS_UNHEALTHY | RATE_LIMITED
| BUNDLE_FAILED | BUNDLE_DROPPED | TIP_TOO_LOW
| FEE_ESTIMATION_FAILED.

Definition code_string (c : SolTxErrorCode) : string :=
  match c with
  | RETRIES_EXHAUSTED => "RETRIES_EXHAUSTED"
  | NON_RETRYABLE => "NON_RETRYABLE"
  | BLOCKHASH_EXPIRED => "BLOCKHASH_EXPIRED"
  | BLOCKHASH_FETCH_FAILED => "BLOCKHASH_FETCH_FAILED"
  | SIMULATION_FAILED => "SIMULATION_FAILED"
  | INSUFFICIENT_FUNDS => "INSUFFICIENT_FUNDS"
  | CONFIRMATION_TIMEOUT => "CONFIRMATION_TIMEOUT"
  | TRANSACTION_FAILED => "TRANSACTION_FAILED"
  | ALL_ENDPOINTS_UNHEALTHY => "ALL_ENDPOINTS_UNHEALTHY"
  | RATE_LIMITED => "RATE_LIMITED"
  | BUNDLE_FAILED => "BUNDLE_FAILED"
  | BUNDLE_DROPPED => "BUNDLE_DROPPED"
  | TIP_TOO_LOW => "TIP_TOO_LOW"
  | FEE_ESTIMATION_FAILED => "FEE_ESTIMATION_FAILED"
  end.

(** Values stored in an error's free-form [context] record. *)
Inductive CtxValue : Type :=
| CNum (n : Z)
| CStr (s : string)
| CLogs (l : list string).

(** A JavaScript [Error] object as the library observes it.
    [isSolTx] answers [error instanceof SolTxError]; [code] is the [code]
    property, which a [SolTxError] always carries and a Node errno error
    may carry ([undefined] is [None]); [cause] is the preserved chain. *)
#[warnings="-register-all"]
Inductive JsError : Type :=
| MkError (isSolTx : bool) (code : option string) (message : string)
          (cause : option JsError) (context : list (string * CtxValue)).

Definition isSolTx (e : JsError) : bool :=
  match e with MkError b _ _ _ _ => b end.
Definition code (e : JsError) : option string :=
  match e with MkError _ c _ _ _ => c end.
Definition message (e : JsError) : string :=
  match e with MkError _ _ m _ _ => m end.
Definition cause (e : JsError) : option JsError :=
  match e with MkError _ _ _ c _ => c end.
Definition context (e : JsError) : list (string * CtxValue) :=
  match e with MkError _ _ _ _ x => x end.

(** [new Error(message)] *)
Definition newError (msg : string) : JsError :=
  MkError false None msg None [].

(** [new SolTxError(code, message, { cause, context })] *)
Definition SolTxError (c : SolTxErrorCode) (msg : string)
    (cause : option JsError) (ctx : list (string * CtxValue)) : JsError :=
  MkError true (Some (code_string c)) msg cause ctx.

(** Anything can be thrown in JavaScript; the library normalises with
    [err instanceof Error ? err : new Error(String(err))]. *)
Inductive Thrown : Type :=
| ThrownError (e : JsError)
| ThrownValue (rendered : string).

Definition toError (x : Thrown) : JsError :=
  match x with
  | ThrownError e => e
  | ThrownValue s => newError s
  end.

End Errors.

(** ** Error classifier (src/retry/error-classifier.ts) *)

Module Classifier.
Import Errors.

(** [s.includes(pat)] on strings seen as character sequences. *)
Fixpoint includes (pat s : string) : bool :=
  if String.prefix pat s then true
  else match s with
       | EmptyString => false
       | String _ rest => includes pat rest
       end.

(** The mathematical reading of "the message contains the pattern". *)
Definition Contains (s pat : string) : Prop :=
  exists pre post, s = pre +:+ pat +:+ post.

Record ErrorClassification : Type := {
  retryable : bool;
  needsResign : bool;
  errorType : string
}.

Definition RETRYABLE_MESSAGES : list string :=
  [ "blockhash not found";
    "block height exceeded";
    "TransactionExpiredBlockheightExceeded";
    "Node is behind";
    "node is unhealthy";
    "Service unavailable";
    "Too many requests" ].

Definition NEEDS_RESIGN_MESSAGES : list string :=
  [ "blockhash not found"; "block height exceeded";
    "TransactionExpiredBlockheightExceeded" ].

Definition NETWORK_ERROR_CODES : list string :=
  [ "ECONNRESET"; "ETIMEDOUT"; "ENOTFOUND"; "ECONNREFUSED"; "EAI_AGAIN"; "EPIPE" ].

Definition NON_RETRYABLE_MESSAGES : list string :=
  [ "insufficient funds";
    "Insufficient funds";
    "invalid account data";
    "Account not found";
    "Signature verification failed";
    "Transaction simulation failed: Error processing Instruction";
    "Program failed to complete";
    "already been processed" ].

(** [list.includes(x)] for a list of strings. *)
Definition list_includes (l : list string) (x : string) : bool :=
  existsb (String.eqb x) l.

(** [list.some((p) => msg.includes(p))] *)
Definition some_included (l : list string) (msg : string) : bool :=
  existsb (fun p => includes p msg) l.

(** [for (const pattern of l) if (msg.includes(pattern)) return ...]:
    the first pattern of the list that occurs in the message. *)
Definition first_included (l : list string) (msg : string) : option string :=
  find (fun p => includes p msg) l.

Definition isBlockhashExpired (error : JsError) : bool :=
  if isSolTx error && bool_decide (code error = Some (code_string BLOCKHASH_EXPIRED))
  then true
  else some_included NEEDS_RESIGN_MESSAGES (message error).

Definition isRateLimited (error : JsError) : bool :=
  let msg := message error in
  includes "429" msg || includes "Too many requests" msg.

(** [code && NETWORK_ERROR_CODES.includes(code)]: the empty string and
    [undefined] are falsy. *)
Definition network_code (c : option string) : option string :=
  match c with
  | Some c => if negb (String.eqb c "") && list_includes NETWORK_ERROR_CODES c
              then Some c else None
  | None => None
  end.

Definition classifyError (error : JsError) : ErrorClassification :=
  let msg := message error in
  match first_included NON_RETRYABLE_MESSAGES msg with
  | Some pattern =>
      {| retryable := false; needsResign := false; errorType := pattern |}
  | None =>
  if isBlockhashExpired error then
      {| retryable := true; needsResign := true; errorType := "BLOCKHASH_EXPIRED" |}
  else
  match network_code (code error) with
  | Some c =>
      {| retryable := true; needsResign := false; errorType := c |}
  | None =>
  if includes "429" msg || includes "Too many requests" msg then
      {| retryable := true; needsResign := false; errorType := "RATE_LIMITED" |}
  else if includes "503" msg || includes "Service unavailable" msg then
      {| retryable := true; needsResign := false; errorType := "SERVICE_UNAVAILABLE" |}
  else
  match first_included RETRYABLE_MESSAGES msg with
  | Some pattern =>
      {| retryable := true;
         needsResign := some_included NEEDS_RESIGN_MESSAGES msg;
         errorType := pattern |}
  | None =>
      {| retryable := false; needsResign := false; errorType := "UNKNOWN" |}
  end
  end
  end.

(** The structured half of [isBlockhashExpired]. *)
Definition typedBlockhashExpired (error : JsError) : Prop :=
  isSolTx error = true /\ code error = Some "BLOCKHASH_EXPIRED".

(** The message contains one of the patterns of the list. *)
Definition ContainsAny (l : list string) (msg : string) : Prop :=
  exists p, In p l /\ Contains msg p.

(** Sample errors: a simulation failure that also mentions an expired
    blockhash, the error the send pipeline raises on expiry, and a socket
    error whose text mentions the blockhash. *)
Definition simulation_blockhash_error : JsError :=
  newError "Transaction simulation failed: Error processing Instruction 0: blockhash not found".

Definition confirmation_expired_error : JsError :=
  SolTxError BLOCKHASH_EXPIRED "Blockhash expired during confirmation" None [].

Definition reset_blockhash_error : JsError :=
  MkError false (Some "ECONNRESET") "blockhash not found" None [].

(** An error typed BLOCKHASH_EXPIRED whose message also reports a lack of
    funds. *)
Definition expired_insufficient_funds_error : JsError :=
  SolTxError BLOCKHASH_EXPIRED "Blockhash expired: insufficient funds for rent" None [].

End Classifier.

(** ** Retry engine (src/retry/retry.ts) *)

Module Retry.
Import Errors Classifier.

Record RetryContext : Type := {
  attempt : nat;
  totalAttempts : nat;
  elapsed : Z;
  lastError : option JsError
}.

(** Which statement of [withRetry] ended the call (ghost information: in
    JavaScript only the returned or thrown value is visible). *)
Inductive ExitPoint : Type :=
| ExitReturn          (* return await fn(context) *)
| ExitPredicate       (* throw NON_RETRYABLE, custom predicate said no *)
| ExitClassifier      (* throw NON_RETRYABLE, classifyError said no *)
| ExitHook            (* the awaited onRetry hook threw *)
| ExitExhausted.      (* throw RETRIES_EXHAUSTED after the loop *)

Inductive Outcome (T : Type) : Type :=
| Resolved (v : T)
| Rejected (x : Thrown).
Arguments Resolved {T} v.
Arguments Rejected {T} x.

Section WithWorld.
  (** The world [withRetry] runs in: everything [fn], the hook, the clock,
      the random source and the timer can observe or change. *)
Context {World : Type}.
Variable now : World -> Z.               (* Date.now() *)
Variable random : World -> Q * World.    (* Math.random() *)
Variable sleep : Q -> World -> World.    (* await sleep(ms) *)

Record RetryConfig : Type := {
    maxRetries : nat;                       (* a count of retries *)
    baseDelayMs : Q;
    maxDelayMs : Q;
    backoffMultiplier : Q;
    retryPredicate : option (JsError -> nat -> bool);
    onRetry : option (JsError -> nat -> Q -> World -> option Thrown * World)
  }.

  (** [Partial<RetryConfig>]: an absent key is [None]. *)
Record PartialRetryConfig : Type := {
    p_maxRetries : option nat;
    p_baseDelayMs : option Q;
    p_maxDelayMs : option Q;
    p_backoffMultiplier : option Q;
    p_retryPredicate : option (JsError -> nat -> bool);
    p_onRetry : option (JsError -> nat -> Q -> World -> option Thrown * World)
  }.

Definition emptyPartial : PartialRetryConfig :=
    {| p_maxRetries := None; p_baseDelayMs := None; p_maxDelayMs := None;
       p_backoffMultiplier := None; p_retryPredicate := None; p_onRetry := None |}.

  (** [{ ...a, ...b }]: keys of [b] win. *)
Definition spread (a b : PartialRetryConfig) : PartialRetryConfig :=
    {| p_maxRetries := match p_maxRetries b with Some x => Some x | None => p_maxRetries a end;
       p_baseDelayMs := match p_baseDelayMs b with Some x => Some x | None => p_baseDelayMs a end;
       p_maxDelayMs := match p_maxDelayMs b with Some x => Some x | None => p_maxDelayMs a end;
       p_backoffMultiplier :=
         match p_backoffMultiplier b with Some x => Some x | None => p_backoffMultiplier a end;
       p_retryPredicate :=
         match p_retryPredicate b with Some x => Some x | None => p_retryPredicate a end;
       p_onRetry := match p_onRetry b with Some x => Some x | None => p_onRetry a end |}.

  (** [DEFAULT_RETRY_CONFIG] of src/constants.ts. *)
Definition DEFAULT_RETRY_CONFIG : RetryConfig :=
    {| maxRetries := 3; baseDelayMs := 500; maxDelayMs := 10000;
       backoffMultiplier := 2; retryPredicate := None; onRetry := None |}.

  (** [{ ...DEFAULT_RETRY_CONFIG, ...config }] *)
Definition resolve (config : option PartialRetryConfig) : RetryConfig :=
    let c := default emptyPartial config in
    {| maxRetries := default (maxRetries DEFAULT_RETRY_CONFIG) (p_maxRetries c);
       baseDelayMs := default (baseDelayMs DEFAULT_RETRY_CONFIG) (p_baseDelayMs c);
       maxDelayMs := default (maxDelayMs DEFAULT_RETRY_CONFIG) (p_maxDelayMs c);
       backoffMultiplier :=
         default (backoffMultiplier DEFAULT_RETRY_CONFIG) (p_backoffMultiplier c);
       retryPredicate := p_retryPredicate c;
       onRetry := p_onRetry c |}.

  (** Full-jitter exponential back-off. *)
Definition computeDelay (attempt : nat) (config : RetryConfig) (w : World) : Q * World :=
    let exponential := (baseDelayMs config * backoffMultiplier config ^ Z.of_nat attempt)%Q in
    let capped := Qmin exponential (maxDelayMs config) in
    let (r, w') := random w in
    ((r * capped)%Q, w').

  (** The result of a call, with the ghost trace of what happened:
      [calls] counts the invocations of [fn], [caught] lists the errors the
      [catch] block received, oldest first. *)
Record Run (T : Type) : Type := {
    outcome : Outcome T;
    world : World;
    calls : nat;
    caught : list JsError;
    exit : ExitPoint
  }.
Arguments outcome {T} r.
Arguments world {T} r.
Arguments calls {T} r.
Arguments caught {T} r.
Arguments exit {T} r.

Section Loop.
Context {T : Type}.
Variable fn : RetryContext -> World -> (T + Thrown) * World.
Variable resolved : RetryConfig.
Variable startTime : Z.

    (** The [throw] that follows the [for] loop. *)
Definition exhausted (lastError : option JsError) (w : World)
        (calls : nat) (caught : list JsError) : Run T :=
      {| outcome := Rejected (ThrownError
           (SolTxError RETRIES_EXHAUSTED
              ("All " +:+ pretty (maxRetries resolved + 1)%nat +:+ " attempts failed")
              (Some (default (newError "Unknown error") lastError))
              [("maxRetries", CNum (Z.of_nat (maxRetries resolved)));
               ("elapsed", CNum (now w - startTime))]));
         world := w; calls := calls; caught := caught; exit := ExitExhausted |}.

    (** [for (let attempt = 0; attempt <= resolved.maxRetries; attempt++)].
        [remaining] is the number of iterations the loop condition still
        admits, [maxRetries + 1 - attempt]; with none left the condition is
        false and control reaches the final [throw]. *)
Fixpoint attempts (remaining attempt : nat) (lastError : option JsError)
        (w : World) (calls : nat) (caught : list JsError) : Run T :=
      match remaining with
      | O => exhausted lastError w calls caught
      | S remaining' =>
        let context :=
          {| attempt := attempt;
             totalAttempts := (maxRetries resolved + 1)%nat;
             elapsed := now w - startTime;
             lastError := lastError |} in
        match fn context w with
        | (inl v, w1) =>
            {| outcome := Resolved v; world := w1; calls := S calls;
               caught := caught; exit := ExitReturn |}
        | (inr err, w1) =>
            let error := toError err in
            let calls := S calls in
            let caught := caught ++ [error] in
            (* Last attempt: don't retry *)
            if (maxRetries resolved <=? attempt)%nat then
              exhausted (Some error) w1 calls caught
            else
              let verdict :=
                match retryPredicate resolved with
                | Some predicate =>
                    if predicate error attempt then None
                    else Some
                      (SolTxError NON_RETRYABLE
                         ("Non-retryable (custom predicate): " +:+ message error)
                         (Some error)
                         [("attempt", CNum (Z.of_nat attempt))],
                       ExitPredicate)
                | None =>
                    let classification := classifyError error in
                    if retryable classification then None
                    else Some
                      (SolTxError NON_RETRYABLE
                         ("Non-retryable: " +:+ message error)
                         (Some error)
                         [("attempt", CNum (Z.of_nat attempt));
                          ("errorType", CStr (errorType classification))],
                       ExitClassifier)
                end in
              match verdict with
              | Some (nonRetryable, site) =>
                  {| outcome := Rejected (ThrownError nonRetryable); world := w1;
                     calls := calls; caught := caught; exit := site |}
              | None =>
                  let (delayMs, w2) := computeDelay attempt resolved w1 in
                  match onRetry resolved with
                  | Some hook =>
                      match hook error attempt delayMs w2 with
                      | (Some x, w3) =>
                          {| outcome := Rejected x; world := w3; calls := calls;
                             caught := caught; exit := ExitHook |}
                      | (None, w3) =>
                          attempts remaining' (S attempt) (Some error)
                                   (sleep delayMs w3) calls caught
                      end
                  | None =>
                      attempts remaining' (S attempt) (Some error)
                               (sleep delayMs w2) calls caught
                  end
              end
        end
      end.
End Loop.

Definition withRetry {T : Type}
      (fn : RetryContext -> World -> (T + Thrown) * World)
      (config : option PartialRetryConfig) (w : World) : Run T :=
    let resolved := resolve config in
    let startTime := now w in
    attempts fn resolved startTime (S (maxRetries resolved)) 0 None w 0 [].

End WithWorld.

Arguments outcome {World T} r.
Arguments world {World T} r.
Arguments calls {World T} r.
Arguments caught {World T} r.
Arguments exit {World T} r.

(** The two coded errors [withRetry] raises by default classification. *)
Definition nonRetryableError (error : JsError) (attempt : nat) : JsError :=
  SolTxError NON_RETRYABLE ("Non-retryable: " +:+ message error) (Some error)
    [("attempt", CNum (Z.of_nat attempt));
     ("errorType", CStr (errorType (classifyError error)))].

Definition retriesExhaustedError (maxRetries : nat) (elapsed : Z) (last : JsError) : JsError :=
  SolTxError RETRIES_EXHAUSTED
    ("All " +:+ pretty (maxRetries + 1)%nat +:+ " attempts failed") (Some last)
    [("maxRetries", CNum (Z.of_nat maxRetries)); ("elapsed", CNum elapsed)].

(** The classifier's verdict on a caught error. *)
Definition classifiedRetryable (e : JsError) : Prop :=
  retryable (classifyError e) = true.

(** What a finished run looks like when no custom predicate is configured,
    by exit point. *)
Definition run_shape {World T : Type} (now : World -> Z)
    (resolved : RetryConfig (World := World)) (startTime : Z) (r : Run T) : Prop :=
  (calls r <= S (maxRetries resolved))%nat /\
  match exit r with
  | ExitReturn =>
      (exists v, outcome r = Resolved v)
      /\ calls r = S (length (caught r))
      /\ Forall classifiedRetryable (caught r)
  | ExitClassifier =>
      exists earlier e,
        caught r = earlier ++ [e]
        /\ Forall classifiedRetryable earlier
        /\ ~ classifiedRetryable e
        /\ (length earlier < maxRetries resolved)%nat
        /\ calls r = length (caught r)
        /\ outcome r = Rejected (ThrownError (nonRetryableError e (length earlier)))
  | ExitExhausted =>
      exists earlier e,
        caught r = earlier ++ [e]
        /\ Forall classifiedRetryable earlier
        /\ length earlier = maxRetries resolved
        /\ calls r = length (caught r)
        /\ outcome r = Rejected (ThrownError
             (retriesExhaustedError (maxRetries resolved) (now (world r) - startTime) e))
  | ExitHook =>
      (exists x, outcome r = Rejected x)
      /\ Forall classifiedRetryable (caught r)
      /\ calls r = length (caught r)
  | ExitPredicate => False
  end.

(** The coded error raised when the custom predicate refuses a retry. *)
Definition customNonRetryableError (error : JsError) (attempt : nat) : JsError :=
  SolTxError NON_RETRYABLE ("Non-retryable (custom predicate): " +:+ message error)
    (Some error) [("attempt", CNum (Z.of_nat attempt))].

(** The contexts [withRetry] plans to hand to [fn]. *)
Definition planned_context {World : Type} (resolved : RetryConfig (World := World))
    (ctx : RetryContext) : Prop :=
  (attempt ctx <= maxRetries resolved)%nat
  /\ totalAttempts ctx = (maxRetries resolved + 1)%nat
  /\ (lastError ctx = None <-> attempt ctx = 0%nat).

(** The custom predicate approved every error of the list, each with the
    number of the attempt that raised it. *)
Definition approved (predicate : JsError -> nat -> bool) (errors : list JsError) : Prop :=
  forall k e, errors !! k = Some e -> predicate e k = true.

(** What a finished run looks like under a custom predicate, by exit point. *)
Definition custom_shape {World T : Type} (predicate : JsError -> nat -> bool)
    (resolved : RetryConfig (World := World)) (r : Run (World := World) T) : Prop :=
  (calls r <= S (maxRetries resolved))%nat /\
  match exit r with
  | ExitReturn => calls r = S (length (caught r)) /\ approved predicate (caught r)
  | ExitPredicate =>
      exists earlier e,
        caught r = earlier ++ [e]
        /\ approved predicate earlier
        /\ predicate e (length earlier) = false
        /\ (length earlier < maxRetries resolved)%nat
        /\ calls r = length (caught r)
        /\ outcome r = Rejected (ThrownError (customNonRetryableError e (length earlier)))
  | ExitExhausted =>
      exists earlier e,
        caught r = earlier ++ [e]
        /\ approved predicate earlier
        /\ length earlier = maxRetries resolved
        /\ calls r = length (caught r)
  | ExitHook => approved predicate (caught r) /\ calls r = length (caught r)
  | ExitClassifier => False
  end.

(** A scenario: a frozen clock, no jitter, and an operation that always
    fails for lack of funds, run with [{ maxRetries: n }]. *)
Definition frozen_now (w : unit) : Z := 0.
Definition no_jitter (w : unit) : Q * unit := (0%Q, w).
Definition no_sleep (ms : Q) (w : unit) : unit := w.

Definition insufficient_funds : JsError := newError "insufficient funds".

Definition always_insufficient_funds (ctx : RetryContext) (w : unit) : (unit + Thrown) * unit :=
  (inr (ThrownError insufficient_funds), w).

Definition only_maxRetries (n : nat) : option (@PartialRetryConfig unit) :=
  Some {| p_maxRetries := Some n; p_baseDelayMs := None; p_maxDelayMs := None;
          p_backoffMultiplier := None; p_retryPredicate := None; p_onRetry := None |}.

Definition insufficient_funds_run (n : nat) : Run (World := unit) unit :=
  withRetry frozen_now no_jitter no_sleep always_insufficient_funds (only_maxRetries n) tt.

(** The same scenario with an error the classifier calls retryable. *)
Definition node_behind : JsError := newError "Node is behind".

Definition always_node_behind (ctx : RetryContext) (w : unit) : (unit + Thrown) * unit :=
  (inr (ThrownError node_behind), w).

Definition node_behind_run (n : nat) : Run (World := unit) unit :=
  withRetry frozen_now no_jitter no_sleep always_node_behind (only_maxRetries n) tt.

(** A node that stays behind for two attempts, and an account found empty
    at the third. *)
Definition behind_then_broke (attempt : nat) : JsError :=
  if (attempt <? 2)%nat then node_behind else insufficient_funds.

Definition failing (err : nat -> JsError) (ctx : RetryContext) (w : unit)
    : (unit + Thrown) * unit :=
  (inr (ThrownError (err (attempt ctx))), w).

Definition behind_then_broke_run (n : nat) : Run (World := unit) unit :=
  withRetry frozen_now no_jitter no_sleep (failing behind_then_broke) (only_maxRetries n) tt.

(** A random source that always answers one half. *)
Definition half_jitter (w : unit) : Q * unit := ((1 # 2)%Q, w).

(** [{ maxRetries: 3, retryPredicate: (error, attempt) => attempt < 1 }]:
    a caller who allows one retry whatever the error. *)
Definition one_retry_only : option (@PartialRetryConfig unit) :=
  Some {| p_maxRetries := Some 3%nat; p_baseDelayMs := None; p_maxDelayMs := None;
          p_backoffMultiplier := None;
          p_retryPredicate := Some (fun _ attempt => (attempt <? 1)%nat);
          p_onRetry := None |}.

(** An operation that fails for lack of funds twice and then returns the
    number of the attempt. *)
Definition recovering (ctx : RetryContext) (w : unit) : (nat + Thrown) * unit :=
  if (attempt ctx <? 2)%nat then (inr (ThrownError insufficient_funds), w)
  else (inl (attempt ctx), w).

(** An operation that fails while it is handed a planned context of
    [{ maxRetries: 2 }] and would return on any other. *)
Definition failing_as_planned (ctx : RetryContext) (w : unit) : (unit + Thrown) * unit :=
  if bool_decide (attempt ctx <= 2)%nat && bool_decide (totalAttempts ctx = 3%nat)
  then (inr (ThrownError node_behind), w)
  else (inl tt, w).

End Retry.

(** ** Circuit breaker (src/rpc/circuit-breaker.ts) *)

Module Breaker.

(** [enum CircuitState] of src/rpc/types.ts. *)
Inductive CircuitState : Type := CLOSED | OPEN | HALF_OPEN.

#[export] Instance CircuitState_eq_dec : EqDecision CircuitState.
Proof. solve_decision. Defined.

Record CircuitBreakerConfig : Type := {
  failureThreshold : Z;
  resetTimeoutMs : Z;
  windowMs : Z
}.

Record PartialConfig : Type := {
  p_failureThreshold : option Z;
  p_resetTimeoutMs : option Z;
  p_windowMs : option Z
}.

Definition DEFAULT_CIRCUIT_BREAKER_CONFIG : CircuitBreakerConfig :=
  {| failureThreshold := 5; resetTimeoutMs := 30000; windowMs := 60000 |}.

(** The private fields of the class. *)
Record CircuitBreaker : Type := {
  state : CircuitState;
  failures : list Z;
  lastOpenedAt : Z;
  config : CircuitBreakerConfig
}.

(** [{ ...DEFAULT_CIRCUIT_BREAKER_CONFIG, ...config }] *)
Definition resolve (c : option PartialConfig) : CircuitBreakerConfig :=
  match c with
  | None => DEFAULT_CIRCUIT_BREAKER_CONFIG
  | Some c =>
      {| failureThreshold :=
           default (failureThreshold DEFAULT_CIRCUIT_BREAKER_CONFIG) (p_failureThreshold c);
         resetTimeoutMs :=
           default (resetTimeoutMs DEFAULT_CIRCUIT_BREAKER_CONFIG) (p_resetTimeoutMs c);
         windowMs := default (windowMs DEFAULT_CIRCUIT_BREAKER_CONFIG) (p_windowMs c) |}
  end.

(** [new CircuitBreaker(config)] *)
Definition create (c : option PartialConfig) : CircuitBreaker :=
  {| state := CLOSED; failures := []; lastOpenedAt := 0; config := resolve c |}.

Definition set_state (s : CircuitState) (b : CircuitBreaker) : CircuitBreaker :=
  {| state := s; failures := failures b; lastOpenedAt := lastOpenedAt b; config := config b |}.

(** [get currentState()]: the getter mutates, so it returns the breaker too. *)
Definition currentState (now : Z) (b : CircuitBreaker) : CircuitState * CircuitBreaker :=
  let b' :=
    if decide (state b = OPEN) then
      if resetTimeoutMs (config b) <=? now - lastOpenedAt b
      then set_state HALF_OPEN b
      else b
    else b in
  (state b', b').

Definition recordSuccess (b : CircuitBreaker) : CircuitBreaker :=
  if decide (state b = HALF_OPEN) then
    {| state := CLOSED; failures := []; lastOpenedAt := lastOpenedAt b; config := config b |}
  else b.

Definition recordFailure (now : Z) (b : CircuitBreaker) : CircuitBreaker :=
  if decide (state b = HALF_OPEN) then
    {| state := OPEN; failures := failures b; lastOpenedAt := now; config := config b |}
  else
    (* Prune failures outside the window *)
    let pruned := List.filter (fun t => now - t <? windowMs (config b)) (failures b) in
    let pushed := pruned ++ [now] in
    if failureThreshold (config b) <=? Z.of_nat (length pushed) then
      {| state := OPEN; failures := pushed; lastOpenedAt := now; config := config b |}
    else
      {| state := state b; failures := pushed; lastOpenedAt := lastOpenedAt b;
         config := config b |}.

Definition canExecute (now : Z) (b : CircuitBreaker) : bool * CircuitBreaker :=
  let (current, b') := currentState now b in
  (bool_decide (current = CLOSED) || bool_decide (current = HALF_OPEN), b').

Definition reset (b : CircuitBreaker) : CircuitBreaker :=
  {| state := CLOSED; failures := []; lastOpenedAt := 0; config := config b |}.

(** The public surface as a labelled transition system; every method call
    reads the clock at most once, the reading is [now]. *)
Inductive Op : Type :=
| ReadCurrentState | CallCanExecute | CallRecordSuccess | CallRecordFailure | CallReset.

Definition step (now : Z) (op : Op) (b : CircuitBreaker) : CircuitBreaker :=
  match op with
  | ReadCurrentState => snd (currentState now b)
  | CallCanExecute => snd (canExecute now b)
  | CallRecordSuccess => recordSuccess b
  | CallRecordFailure => recordFailure now b
  | CallReset => reset b
  end.

Definition is_read (op : Op) : bool :=
  match op with ReadCurrentState | CallCanExecute => true | _ => false end.

(** A run of [recordFailure] calls at the given clock readings. *)
Definition recordFailures (times : list Z) (b : CircuitBreaker) : CircuitBreaker :=
  fold_left (fun b t => recordFailure t b) times b.

(** The timestamps of a list that lie in the window [[lo, lo + width)]. *)
Definition in_window (lo width t : Z) : bool := (lo <=? t) && (t <? lo + width).

(** The number of recorded failures inside a window. *)
Definition inside (lo width : Z) (l : list Z) : nat :=
  length (List.filter (in_window lo width) l).

(** Consecutive clock readings lie at least [width] apart. *)
Definition spaced (width : Z) (times : list Z) : Prop :=
  forall i a b, times !! i = Some a -> times !! S i = Some b -> width <= b - a.

(** Scenario of the test-suite: threshold 2, reset after 5 s, 60 s window,
    two failures one second apart. *)
Definition test_config : option PartialConfig :=
  Some {| p_failureThreshold := Some 2; p_resetTimeoutMs := Some 5000;
          p_windowMs := Some 60000 |}.

Definition tripped : CircuitBreaker := recordFailures [0; 1000] (create test_config).

(** A history of method calls, each with the clock reading of the call. *)
Definition run (history : list (Z * Op)) (b : CircuitBreaker) : CircuitBreaker :=
  fold_left (fun b call => step (fst call) (snd call) b) history b.

(** What every breaker reached by method calls satisfies: a closed breaker
    holds fewer failures than the threshold, and a breaker that is not
    closed was opened by a [recordFailure] of the history, at the time
    [lastOpenedAt] says. *)
Definition reachable_invariant (history : list (Z * Op)) (b : CircuitBreaker) : Prop :=
  (state b = CLOSED -> Z.of_nat (length (failures b)) < failureThreshold (config b))
  /\ (state b <> CLOSED -> In (lastOpenedAt b, CallRecordFailure) history).

(** The scenario as a history: a read, two failures one second apart,
    a success that changes nothing, a read. *)
Definition tripping_history : list (Z * Op) :=
  [(0, CallCanExecute); (0, CallRecordFailure); (1000, CallRecordFailure);
   (1500, CallRecordSuccess); (2000, ReadCurrentState)].

End Breaker.

(** ** Logging (src/logger.ts, the [Logger] interface of src/types.ts) *)

Module Log.

Inductive Level : Type := Debug | Info | Warn | Error.

Record Entry : Type := {
  level : Level;
  text : string;
  meta : list (string * string)
}.

(** [this.logger?.warn(text, meta)]: nothing happens without a logger. *)
Definition warn (logger : bool) (text : string) (meta : list (string * string)) : list Entry :=
  if logger then [ {| level := Warn; text := text; meta := meta |} ] else [].

Definition debug (logger : bool) (text : string) (meta : list (string * string)) : list Entry :=
  if logger then [ {| level := Debug; text := text; meta := meta |} ] else [].

End Log.

(** ** Health tracker (src/rpc/health-tracker.ts) *)

Module Health.
Import Breaker.

Record RpcEndpointConfig : Type := {
  url : string;
  weight : option Z;
  rateLimit : option Z;
  label : option string
}.

(** A web3.js [Connection]: an opaque handle, identified by what it was
    constructed from. *)
Record Connection : Type := {
  rpcEndpoint : string;
  commitment : string
}.

Record HealthMetrics : Type := {
  latencyEma : Q;
  errorCount : Z;
  successCount : Z;
  errorRate : Q;
  lastSlot : Z;
  slotLag : Z;
  lastSuccessAt : Z;
  circuitState : CircuitState
}.

Record HealthTracker : Type := {
  endpoint : RpcEndpointConfig;
  connection : Connection;
  logger : bool;
  breaker : CircuitBreaker;
  metrics : HealthMetrics
}.

Definition EMA_ALPHA : Q := 0.3.

Definition initialMetrics : HealthMetrics :=
  {| latencyEma := 0; errorCount := 0; successCount := 0; errorRate := 0;
     lastSlot := 0; slotLag := 0; lastSuccessAt := 0; circuitState := CLOSED |}.

(** [new HealthTracker(endpoint, connection, logger, circuitBreakerConfig)] *)
Definition create (endpoint : RpcEndpointConfig) (connection : Connection)
    (logger : bool) (circuitBreakerConfig : option PartialConfig) : HealthTracker :=
  {| endpoint := endpoint; connection := connection; logger := logger;
     breaker := Breaker.create circuitBreakerConfig; metrics := initialMetrics |}.

Definition with_metrics (m : HealthMetrics) (t : HealthTracker) : HealthTracker :=
  {| endpoint := endpoint t; connection := connection t; logger := logger t;
     breaker := breaker t; metrics := m |}.

Definition with_breaker (b : CircuitBreaker) (t : HealthTracker) : HealthTracker :=
  {| endpoint := endpoint t; connection := connection t; logger := logger t;
     breaker := b; metrics := metrics t |}.

(** [private updateErrorRate()] *)
Definition updateErrorRate (m : HealthMetrics) : HealthMetrics :=
  let total := successCount m + errorCount m in
  {| latencyEma := latencyEma m; errorCount := errorCount m;
     successCount := successCount m;
     errorRate := if 0 <? total then (inject_Z (errorCount m) / inject_Z total)%Q else 0%Q;
     lastSlot := lastSlot m; slotLag := slotLag m; lastSuccessAt := lastSuccessAt m;
     circuitState := circuitState m |}.

Definition set_circuitState (s : CircuitState) (m : HealthMetrics) : HealthMetrics :=
  {| latencyEma := latencyEma m; errorCount := errorCount m;
     successCount := successCount m; errorRate := errorRate m;
     lastSlot := lastSlot m; slotLag := slotLag m; lastSuccessAt := lastSuccessAt m;
     circuitState := s |}.

(** The latency update inside [recordSuccess]. *)
Definition updateLatencyEma (ema latencyMs : Q) : Q :=
  if Qeq_bool ema 0 then latencyMs
  else (EMA_ALPHA * latencyMs + (1 - EMA_ALPHA) * ema)%Q.

Definition recordSuccess (now : Z) (latencyMs : Q) (slot : option Z)
    (t : HealthTracker) : HealthTracker :=
  let m := metrics t in
  let m1 :=
    {| latencyEma := updateLatencyEma (latencyEma m) latencyMs;
       errorCount := errorCount m;
       successCount := successCount m + 1;
       errorRate := errorRate m;
       lastSlot := match slot with Some s => s | None => lastSlot m end;
       slotLag := slotLag m;
       lastSuccessAt := now;
       circuitState := circuitState m |} in
  let b1 := Breaker.recordSuccess (breaker t) in
  let m2 := updateErrorRate m1 in
  let (s, b2) := Breaker.currentState now b1 in
  with_breaker b2 (with_metrics (set_circuitState s m2) t).

Definition show_state (s : CircuitState) : string :=
  match s with CLOSED => "closed" | OPEN => "open" | HALF_OPEN => "half_open" end.

Definition recordFailure (now : Z) (error : Errors.JsError)
    (t : HealthTracker) : HealthTracker * list Log.Entry :=
  let m := metrics t in
  let m1 :=
    {| latencyEma := latencyEma m; errorCount := errorCount m + 1;
       successCount := successCount m; errorRate := errorRate m;
       lastSlot := lastSlot m; slotLag := slotLag m;
       lastSuccessAt := lastSuccessAt m; circuitState := circuitState m |} in
  let b1 := Breaker.recordFailure now (breaker t) in
  let m2 := updateErrorRate m1 in
  let (s, b2) := Breaker.currentState now b1 in
  (with_breaker b2 (with_metrics (set_circuitState s m2) t),
   Log.warn (logger t)
     ("RPC endpoint " +:+ default (url (endpoint t)) (label (endpoint t)) +:+ " error")
     [("error", Errors.message error); ("circuitState", show_state s)]).

Definition isAvailable (now : Z) (t : HealthTracker) : bool * HealthTracker :=
  let (ok, b') := Breaker.canExecute now (breaker t) in
  (ok, with_breaker b' t).

(** [getMetrics()] synchronises [circuitState] and returns a copy. *)
Definition getMetrics (now : Z) (t : HealthTracker) : HealthMetrics * HealthTracker :=
  let (s, b') := Breaker.currentState now (breaker t) in
  let m := set_circuitState s (metrics t) in
  (m, with_breaker b' (with_metrics m t)).

Definition updateSlotLag (highestSlot : Z) (t : HealthTracker) : HealthTracker :=
  let m := metrics t in
  with_metrics
    {| latencyEma := latencyEma m; errorCount := errorCount m;
       successCount := successCount m; errorRate := errorRate m;
       lastSlot := lastSlot m; slotLag := highestSlot - lastSlot m;
       lastSuccessAt := lastSuccessAt m; circuitState := circuitState m |} t.

Definition getConnection (t : HealthTracker) : Connection := connection t.

(** A run of successful samples without slots, all observed at [now]. *)
Definition recordSuccesses (now : Z) (samples : list Q) (t : HealthTracker) : HealthTracker :=
  fold_left (fun t x => recordSuccess now x None t) samples t.

(** A tracker as the pool builds it, and the two-sample history
    [recordSuccess(0); recordSuccess(100)]. *)
Definition fresh : HealthTracker :=
  create {| url := "https://rpc-1.example.com"; weight := None; rateLimit := None;
            label := Some "rpc-1" |}
         {| rpcEndpoint := "https://rpc-1.example.com"; commitment := "confirmed" |}
         false None.

Definition zero_then_hundred : HealthTracker := recordSuccesses 0 [0%Q; 100%Q] fresh.









End Health.

(** ** Connection pool (src/rpc/connection-pool.ts) *)

Module Pool.
Import Errors Breaker Health.

Inductive Strategy : Type := WeightedRoundRobin | LatencyBased.

Record ConnectionPoolConfig : Type := {
  endpoints : list RpcEndpointConfig;
  strategy : option Strategy;
  healthCheckIntervalMs : option Z;
  circuitBreaker : option PartialConfig;
  healthCheckCommitment : option string
}.

(** The fields of the class.  [healthCheckInterval] is the timer handle,
    represented by the period it was armed with. *)
Record ConnectionPool : Type := {
  trackers : list HealthTracker;
  healthCheckInterval : option Z;
  roundRobinIndex : Z;
  poolStrategy : Strategy;
  poolLogger : bool
}.

(** [new ConnectionPool(config, logger)] *)
Definition create (config : ConnectionPoolConfig) (logger : bool) : ConnectionPool :=
  {| trackers :=
       List.map
         (fun endpoint =>
            Health.create endpoint
              {| rpcEndpoint := url endpoint;
                 commitment := default "confirmed" (healthCheckCommitment config) |}
              logger (circuitBreaker config))
         (endpoints config);
     healthCheckInterval := Some (default 10000 (healthCheckIntervalMs config));
     roundRobinIndex := 0;
     poolStrategy := default WeightedRoundRobin (strategy config);
     poolLogger := logger |}.

Definition with_trackers (ts : list HealthTracker) (p : ConnectionPool) : ConnectionPool :=
  {| trackers := ts; healthCheckInterval := healthCheckInterval p;
     roundRobinIndex := roundRobinIndex p; poolStrategy := poolStrategy p;
     poolLogger := poolLogger p |}.

(** [this.trackers.filter((t) => t.isAvailable())].  [isAvailable] may move
    a breaker to HALF_OPEN, so the filter returns the trackers as it leaves
    them together with the positions it selected: the filtered array holds
    references into [this.trackers]. *)
Definition probe (now : Z) (ts : list HealthTracker) : list (bool * HealthTracker) :=
  List.map (isAvailable now) ts.

Fixpoint selected (i : nat) (flags : list bool) : list nat :=
  match flags with
  | [] => []
  | true :: flags => i :: selected (S i) flags
  | false :: flags => selected (S i) flags
  end.

(** Stable insertion sort, the contract of [Array.prototype.sort] with a
    comparator: [before a b] holds when the comparator is not positive. *)
Fixpoint insert_by {A : Type} (before : A -> A -> bool) (x : A) (l : list A) : list A :=
  match l with
  | [] => [x]
  | y :: l' => if before x y then x :: y :: l' else y :: insert_by before x l'
  end.

Definition sort_by {A : Type} (before : A -> A -> bool) (l : list A) : list A :=
  List.fold_right (insert_by before) [] l.

Definition ALL_UNHEALTHY_WARNING : string :=
  "All RPC endpoints unhealthy, using first endpoint as fallback".

Definition noEndpointsError : JsError :=
  SolTxError ALL_ENDPOINTS_UNHEALTHY
    "No RPC endpoints configured. Call .rpc() or .rpcPool() in the builder." None [].

(** [private selectByLatency(available)].  The comparator calls
    [getMetrics] on both arguments, which synchronises their
    [metrics.circuitState]; a sort of two or more elements compares each of
    them at least once. *)
Definition selectByLatency (now : Z) (available : list nat) (ts : list HealthTracker)
    : (Connection + JsError) * list HealthTracker :=
  let ts' :=
    if (2 <=? length available)%nat then
      List.fold_left (fun ts i => alter (fun t => snd (getMetrics now t)) i ts) available ts
    else ts in
  let candidates := omap (fun i => ts' !! i) available in
  let sorted :=
    sort_by (fun a b => Qle_bool (latencyEma (metrics a)) (latencyEma (metrics b)))
            candidates in
  match sorted with
  | best :: _ => (inl (getConnection best), ts')
  | [] => (inr (SolTxError ALL_ENDPOINTS_UNHEALTHY "No endpoints available" None []), ts')
  end.

(** The second loop of [selectByWeight]; [position] is [None] for NaN. *)
Fixpoint walk (position : option Z) (cumulative : Z) (available : list HealthTracker)
    : option Connection :=
  match available with
  | [] => None
  | tracker :: rest =>
      let cumulative := cumulative + default 1 (weight (endpoint tracker)) in
      if match position with Some p => p <? cumulative | None => false end
      then Some (getConnection tracker)
      else walk position cumulative rest
  end.

(** [private selectByWeight(available)]; returns the incremented counter. *)
Definition selectByWeight (roundRobinIndex : Z) (available : list HealthTracker)
    : (Connection + JsError) * Z :=
  let totalWeight :=
    List.fold_left (fun acc tracker => acc + default 1 (weight (endpoint tracker)))
                   available 0 in
  let position :=
    if totalWeight =? 0 then None else Some (Z.rem roundRobinIndex totalWeight) in
  match walk position 0 available with
  | Some c => (inl c, roundRobinIndex + 1)
  | None =>
      (inr (SolTxError ALL_ENDPOINTS_UNHEALTHY "No weighted endpoint available" None []),
       roundRobinIndex + 1)
  end.

(** [getConnection()]: the result or the error thrown, the pool as the
    call leaves it, and what was sent to the logger. *)
Definition getConnection (now : Z) (p : ConnectionPool)
    : (Connection + JsError) * ConnectionPool * list Log.Entry :=
  let probed := probe now (trackers p) in
  let ts := List.map snd probed in
  let available := selected 0 (List.map fst probed) in
  match available with
  | [] =>
      (* Fallback: return first tracker even if unhealthy *)
      let logs := Log.warn (poolLogger p) ALL_UNHEALTHY_WARNING [] in
      match ts !! 0%nat with
      | None => (inr noEndpointsError, with_trackers ts p, logs)
      | Some fallback => (inl (Health.getConnection fallback), with_trackers ts p, logs)
      end
  | _ :: _ =>
      match poolStrategy p with
      | LatencyBased =>
          let (r, ts') := selectByLatency now available ts in
          (r, with_trackers ts' p, [])
      | WeightedRoundRobin =>
          let (r, index') := selectByWeight (roundRobinIndex p)
                                            (omap (fun i => ts !! i) available) in
          (r,
           {| trackers := ts; healthCheckInterval := healthCheckInterval p;
              roundRobinIndex := index'; poolStrategy := poolStrategy p;
              poolLogger := poolLogger p |},
           [])
      end
  end.

(** [destroy()] *)
Definition destroy (p : ConnectionPool) : ConnectionPool :=
  {| trackers := trackers p; healthCheckInterval := None;
     roundRobinIndex := roundRobinIndex p; poolStrategy := poolStrategy p;
     poolLogger := poolLogger p |}.

(** No tracker's breaker allows execution at time [now]. *)
Definition none_available (now : Z) (p : ConnectionPool) : Prop :=
  Forall (fun t => fst (Breaker.canExecute now (breaker t)) = false) (trackers p).

(** A pool built from an empty endpoint list, with a logger. *)
Definition empty_pool : ConnectionPool :=
  create {| endpoints := []; strategy := None; healthCheckIntervalMs := None;
            circuitBreaker := None; healthCheckCommitment := None |} true.

(** A single endpoint whose breaker tripped after two failures. *)
Definition one_endpoint : RpcEndpointConfig :=
  {| url := "https://rpc-1.example.com"; weight := None; rateLimit := None;
     label := Some "rpc-1" |}.

Definition tripped_pool : ConnectionPool :=
  let p := create {| endpoints := [one_endpoint]; strategy := None;
                     healthCheckIntervalMs := None;
                     circuitBreaker := Breaker.test_config;
                     healthCheckCommitment := None |} true in
  with_trackers
    (List.map (fun t => fst (Health.recordFailure 1000 (newError "fail")
                               (fst (Health.recordFailure 0 (newError "fail") t))))
              (trackers p))
    p.

End Pool.

(** ** Asynchronous results *)

Module Async.

(** How an awaited call ends when the model runs it alone: it fulfils, it
    rejects, or it hands back a promise somebody else started and whose
    settlement lies outside the run ([Awaits]). *)
Inductive Settled (A P : Type) : Type :=
| Fulfilled (a : A)
| RejectedWith (e : Errors.JsError)
| Awaits (p : P).
Arguments Fulfilled {A P} a.
Arguments RejectedWith {A P} e.
Arguments Awaits {A P} p.

End Async.

(** ** Blockhash manager (src/blockhash/blockhash-manager.ts) *)

Module Blockhash.
Import Errors Async.

Record BlockhashInfo : Type := {
  blockhash : string;
  lastValidBlockHeight : Z;
  fetchedAt : Z
}.

Record BlockhashManagerConfig : Type := {
  ttlMs : Z;
  refreshIntervalMs : Z;
  commitment : string
}.

Record PartialConfig : Type := {
  p_ttlMs : option Z;
  p_refreshIntervalMs : option Z;
  p_commitment : option string
}.

(** [DEFAULT_BLOCKHASH_CONFIG] of src/constants.ts. *)
Definition DEFAULT_BLOCKHASH_CONFIG : BlockhashManagerConfig :=
  {| ttlMs := 60000; refreshIntervalMs := 30000; commitment := "confirmed" |}.

Definition resolve (c : option PartialConfig) : BlockhashManagerConfig :=
  match c with
  | None => DEFAULT_BLOCKHASH_CONFIG
  | Some c =>
      {| ttlMs := default (ttlMs DEFAULT_BLOCKHASH_CONFIG) (p_ttlMs c);
         refreshIntervalMs :=
           default (refreshIntervalMs DEFAULT_BLOCKHASH_CONFIG) (p_refreshIntervalMs c);
         commitment := default (commitment DEFAULT_BLOCKHASH_CONFIG) (p_commitment c) |}
  end.

(** What [connection.getLatestBlockhash] resolves to. *)
Record LatestBlockhash : Type := {
  rpc_blockhash : string;
  rpc_lastValidBlockHeight : Z
}.

(** Observable effects of the manager, in order. *)
Inductive Effect : Type :=
| RpcGetLatestBlockhash (conn : Health.Connection) (commitment : string)
| Logged (entry : Log.Entry).

Definition rpc_count (trace : list Effect) : nat :=
  length (List.filter (fun e => match e with RpcGetLatestBlockhash _ _ => true
                                        | Logged _ => false end) trace).

Section WithEnv.
(** The environment of the asynchronous code: the network and the clock.
    Awaiting an RPC call transforms it; synchronous code only reads the
    clock. [Promise] names in-flight fetches. *)
Context {Env Promise : Type}.
Variable now : Env -> Z.
Variable getLatestBlockhash :
  Health.Connection -> string -> Env -> (LatestBlockhash + Thrown) * Env.

Record BlockhashManager : Type := {
  cache : option BlockhashInfo;
  refreshInterval : option Z;
  fetchPromise : option Promise;
  config : BlockhashManagerConfig;
  connection : Health.Connection;
  logger : bool
}.

(** [new BlockhashManager(connection, config, logger)] *)
Definition create (connection : Health.Connection) (c : option PartialConfig)
    (logger : bool) : BlockhashManager :=
  {| cache := None; refreshInterval := None; fetchPromise := None;
     config := resolve c; connection := connection; logger := logger |}.

Definition set_cache (info : option BlockhashInfo) (m : BlockhashManager) : BlockhashManager :=
  {| cache := info; refreshInterval := refreshInterval m; fetchPromise := fetchPromise m;
     config := config m; connection := connection m; logger := logger m |}.

Definition set_fetchPromise (p : option Promise) (m : BlockhashManager) : BlockhashManager :=
  {| cache := cache m; refreshInterval := refreshInterval m; fetchPromise := p;
     config := config m; connection := connection m; logger := logger m |}.

(** [private isStale(info)] *)
Definition isStale (m : BlockhashManager) (info : BlockhashInfo) (env : Env) : bool :=
  ttlMs (config m) <? now env - fetchedAt info.

Definition fetchFailed (cause : JsError) : JsError :=
  SolTxError BLOCKHASH_FETCH_FAILED
    "Failed to fetch blockhash. Verify your RPC endpoint is reachable and responding."
    (Some cause) [].

(** [private async fetchBlockhash()] *)
Definition fetchBlockhash (m : BlockhashManager) (env : Env)
    : (BlockhashInfo + JsError) * Env * list Effect :=
  let rpc := RpcGetLatestBlockhash (connection m) (commitment (config m)) in
  match getLatestBlockhash (connection m) (commitment (config m)) env with
  | (inl result, env') =>
      let info := {| blockhash := rpc_blockhash result;
                     lastValidBlockHeight := rpc_lastValidBlockHeight result;
                     fetchedAt := now env' |} in
      (inl info, env',
       rpc :: List.map Logged
                (Log.debug (logger m) "Fetched new blockhash"
                   [("blockhash", String.substring 0 12 (blockhash info) +:+ "...")]))
  | (inr err, env') => (inr (fetchFailed (toError err)), env', [rpc])
  end.

(** [async refreshBlockhash()].  With a fetch in flight the call returns
    that promise.  Otherwise it starts one, and when the model runs the
    call alone the fetch settles before anything else happens: the cache is
    updated on success and the slot is cleared either way. *)
Definition refreshBlockhash (m : BlockhashManager) (env : Env)
    : Settled BlockhashInfo Promise * BlockhashManager * Env * list Effect :=
  match fetchPromise m with
  | Some p => (Awaits p, m, env, [])
  | None =>
      match fetchBlockhash m env with
      | (inl info, env', trace) =>
          (Fulfilled info, set_fetchPromise None (set_cache (Some info) m), env', trace)
      | (inr e, env', trace) =>
          (RejectedWith e, set_fetchPromise None m, env', trace)
      end
  end.

(** [async getBlockhash()] *)
Definition getBlockhash (m : BlockhashManager) (env : Env)
    : Settled BlockhashInfo Promise * BlockhashManager * Env * list Effect :=
  match cache m with
  | Some cached =>
      if negb (isStale m cached env) then (Fulfilled cached, m, env, [])
      else refreshBlockhash m env
  | None => refreshBlockhash m env
  end.

(** [getCachedBlockhash()] *)
Definition getCachedBlockhash (m : BlockhashManager) (env : Env) : option BlockhashInfo :=
  match cache m with
  | Some cached => if negb (isStale m cached env) then Some cached else None
  | None => None
  end.

(** [start()] and [destroy()] arm and cancel the refresh timer. *)
Definition start (m : BlockhashManager) : BlockhashManager :=
  match refreshInterval m with
  | Some _ => m
  | None =>
      {| cache := cache m; refreshInterval := Some (refreshIntervalMs (config m));
         fetchPromise := fetchPromise m; config := config m;
         connection := connection m; logger := logger m |}
  end.

Definition destroy (m : BlockhashManager) : BlockhashManager :=
  {| cache := cache m; refreshInterval := None; fetchPromise := fetchPromise m;
     config := config m; connection := connection m; logger := logger m |}.

(** The manager has a usable record at [env]: cached and not stale. *)
Definition fresh_in_cache (m : BlockhashManager) (env : Env) (info : BlockhashInfo) : Prop :=
  cache m = Some info /\ now env - fetchedAt info <= ttlMs (config m).

End WithEnv.

Arguments BlockhashManager Promise : clear implicits.

(** A scenario: the environment is the clock, every RPC call takes 40 ms
    and answers with the block height 200. *)
Definition clock_now (env : Z) : Z := env.

Definition mock_getLatestBlockhash (conn : Health.Connection) (commitment : string)
    (env : Z) : (LatestBlockhash + Thrown) * Z :=
  (inl {| rpc_blockhash := "GHtXQBsoZHVnNFa9YevAzFr17DJjgHXk3ycTKD5xD3Zi";
          rpc_lastValidBlockHeight := 200 |}, env + 40).

Definition mainnet : Health.Connection :=
  {| Health.rpcEndpoint := "https://api.mainnet-beta.solana.com";
     Health.commitment := "confirmed" |}.

Definition new_manager : BlockhashManager unit := create mainnet None false.

(** The record the first fetch caches, and the manager holding it. *)
Definition mock_info : BlockhashInfo :=
  {| blockhash := "GHtXQBsoZHVnNFa9YevAzFr17DJjgHXk3ycTKD5xD3Zi";
     lastValidBlockHeight := 200; fetchedAt := 40 |}.

Definition warm_manager : BlockhashManager unit :=
  set_fetchPromise None (set_cache (Some mock_info) new_manager).

End Blockhash.

(** ** Priority-fee estimator (src/priority-fee/fee-estimator.ts) *)

Module Fee.
Import Errors.

Record FeeEstimateConfig : Type := {
  targetPercentile : Z;
  maxMicroLamports : Z;
  minMicroLamports : Z;
  writableAccounts : option (list string)
}.

Record PartialConfig : Type := {
  p_targetPercentile : option Z;
  p_maxMicroLamports : option Z;
  p_minMicroLamports : option Z;
  p_writableAccounts : option (list string)
}.

Record FeeEstimateResult : Type := {
  microLamports : Z;
  p50 : Z;
  p75 : Z;
  p90 : Z;
  sampleCount : nat
}.

(** An element of what [getRecentPrioritizationFees] resolves to. *)
Record RecentFee : Type := {
  slot : Z;
  prioritizationFee : Z
}.

(** [DEFAULT_PRIORITY_FEE_CONFIG] of src/constants.ts. *)
Definition DEFAULT_targetPercentile : Z := 75.
Definition DEFAULT_maxMicroLamports : Z := 1000000.
Definition DEFAULT_minMicroLamports : Z := 1000.
Definition DEFAULT_defaultComputeUnits : Z := 200000.

(** [{ ...DEFAULT_PRIORITY_FEE_CONFIG, ...config }] *)
Definition resolve (c : option PartialConfig) : FeeEstimateConfig :=
  match c with
  | None =>
      {| targetPercentile := DEFAULT_targetPercentile;
         maxMicroLamports := DEFAULT_maxMicroLamports;
         minMicroLamports := DEFAULT_minMicroLamports;
         writableAccounts := None |}
  | Some c =>
      {| targetPercentile := default DEFAULT_targetPercentile (p_targetPercentile c);
         maxMicroLamports := default DEFAULT_maxMicroLamports (p_maxMicroLamports c);
         minMicroLamports := default DEFAULT_minMicroLamports (p_minMicroLamports c);
         writableAccounts := p_writableAccounts c |}
  end.

(** [function percentile(sorted, p)]:
    [Math.ceil((p / 100) * sorted.length) - 1], then
    [sorted[Math.max(0, index)] ?? 0]. *)
Definition percentile (sorted : list Z) (p : Z) : Z :=
  if (length sorted =? 0)%nat then 0
  else
    let index :=
      Qceiling (inject_Z p / 100 * inject_Z (Z.of_nat (length sorted)))%Q - 1 in
    default 0 (sorted !! Z.to_nat (Z.max 0 index)).

(** [feeValues.sort((a, b) => a - b)]: ascending numeric sort. *)
Fixpoint insert_asc (x : Z) (l : list Z) : list Z :=
  match l with
  | [] => [x]
  | y :: l' => if x <=? y then x :: y :: l' else y :: insert_asc x l'
  end.

Definition sort_asc (l : list Z) : list Z := List.fold_right insert_asc [] l.

Definition estimationFailed (cause : JsError) : JsError :=
  SolTxError FEE_ESTIMATION_FAILED
    "Failed to estimate priority fees. Use disablePriorityFees() or pass { priorityFee: { microLamports: N } } as a static override."
    (Some cause) [].

(** The body of the [try] block once the RPC has answered with [fees]. *)
Definition estimate (resolved : FeeEstimateConfig) (fees : list RecentFee) : FeeEstimateResult :=
  (* Extract non-zero fees and sort *)
  let feeValues := sort_asc (List.filter (fun f => 0 <? f) (List.map prioritizationFee fees)) in
  let p50 := percentile feeValues 50 in
  let p75 := percentile feeValues 75 in
  let p90 := percentile feeValues 90 in
  let target :=
    if targetPercentile resolved =? 50 then p50
    else if targetPercentile resolved =? 90 then p90
    else p75 in
  (* Clamp to min/max bounds *)
  let clamped := Z.min (Z.max target (minMicroLamports resolved)) (maxMicroLamports resolved) in
  {| microLamports := clamped; p50 := p50; p75 := p75; p90 := p90;
     sampleCount := length feeValues |}.

Section WithEnv.
Context {Env : Type}.
(** [connection.getRecentPrioritizationFees({ lockedWritableAccounts })] *)
Variable getRecentPrioritizationFees :
  Health.Connection -> option (list string) -> Env -> (list RecentFee + Thrown) * Env.

(** [async estimatePriorityFee(connection, config)] *)
Definition estimatePriorityFee (connection : Health.Connection)
    (config : option PartialConfig) (env : Env) : (FeeEstimateResult + JsError) * Env :=
  let resolved := resolve config in
  match getRecentPrioritizationFees connection (writableAccounts resolved) env with
  | (inl fees, env') => (inl (estimate resolved fees), env')
  | (inr err, env') => (inr (estimationFailed (toError err)), env')
  end.

End WithEnv.

(** *** The estimator as the specification words it *)

(** Nearest rank: [index = ceil(p/100 * n) - 1], clamped to [[0, n - 1]]. *)
Definition nearest_rank_index (p : Z) (n : nat) : Z :=
  Z.min (Z.of_nat n - 1)
        (Z.max 0 (Qceiling (inject_Z p / 100 * inject_Z (Z.of_nat n))%Q - 1)).

Definition nearest_rank (sorted : list Z) (p : Z) : Z :=
  default 0 (sorted !! Z.to_nat (nearest_rank_index p (length sorted))).

(** [x] clamped into [[lo, hi]]. *)
Definition clamped_into (lo hi x r : Z) : Prop :=
  lo <= r <= hi /\ (lo <= x <= hi -> r = x) /\ (x < lo -> r = lo) /\ (hi < x -> r = hi).

(** The samples that are not zero, in the order the RPC returned them. *)
Definition nonzero_samples (fees : list RecentFee) : list Z :=
  List.filter (fun v => negb (v =? 0)) (List.map prioritizationFee fees).

(** The values of the type [50 | 75 | 90]. *)
Definition valid_percentile (p : Z) : Prop := p = 50 \/ p = 75 \/ p = 90.

(** The samples of the test-suite, with a zero sample added. *)
Definition sample_fees : list RecentFee :=
  [ {| slot := 100; prioritizationFee := 3000 |};
    {| slot := 101; prioritizationFee := 0 |};
    {| slot := 102; prioritizationFee := 1000 |};
    {| slot := 103; prioritizationFee := 2000 |} ].

Definition mock_fees (fees : list RecentFee) (conn : Health.Connection)
    (accounts : option (list string)) (env : unit) : (list RecentFee + Thrown) * unit :=
  (inl fees, env).

(** Two caller configurations: [{ targetPercentile: 90, maxMicroLamports:
    2500, minMicroLamports: 1500 }], and [{ minMicroLamports: 2000000 }],
    whose floor lies above the default cap; and an answer of the RPC whose
    samples are all zero. *)
Definition narrow_p90 : option PartialConfig :=
  Some {| p_targetPercentile := Some 90; p_maxMicroLamports := Some 2500;
          p_minMicroLamports := Some 1500; p_writableAccounts := None |}.

Definition floor_above_cap : option PartialConfig :=
  Some {| p_targetPercentile := None; p_maxMicroLamports := None;
          p_minMicroLamports := Some 2000000; p_writableAccounts := None |}.

Definition idle_fees : list RecentFee :=
  [ {| slot := 100; prioritizationFee := 0 |};
    {| slot := 101; prioritizationFee := 0 |} ].

End Fee.

(** ** Send pipeline (src/sender/transaction-sender.ts) *)

Module Sender.
Import Errors Classifier Retry.

(** *** web3.js data, as far as the pipeline looks into it *)

Definition PublicKey : Type := string.

Record Keypair : Type := {
  publicKey : PublicKey;
  secretKey : string
}.

Record AccountMeta : Type := {
  pubkey : PublicKey;
  isSigner : bool;
  isWritable : bool
}.

Inductive InstructionData : Type :=
| SetComputeUnitLimit (units : Z)
| SetComputeUnitPrice (microLamports : Z)
| OtherData (bytes : list Z).

Record TransactionInstruction : Type := {
  programId : PublicKey;
  keys : list AccountMeta;
  data : InstructionData
}.

(** [ComputeBudgetProgram.programId] *)
Definition ComputeBudgetProgramId : PublicKey :=
  "ComputeBudget111111111111111111111111111111".

Definition setComputeUnitLimit (units : Z) : TransactionInstruction :=
  {| programId := ComputeBudgetProgramId; keys := []; data := SetComputeUnitLimit units |}.

Definition setComputeUnitPrice (microLamports : Z) : TransactionInstruction :=
  {| programId := ComputeBudgetProgramId; keys := [];
     data := SetComputeUnitPrice microLamports |}.

(** src/priority-fee/compute-budget.ts *)
Definition createComputeBudgetInstructions (computeUnits microLamports : Z)
    : list TransactionInstruction :=
  [ setComputeUnitLimit computeUnits; setComputeUnitPrice microLamports ].

(** [ix.programId.equals(ComputeBudgetProgram.programId)] *)
Definition isComputeBudget (ix : TransactionInstruction) : bool :=
  String.eqb (programId ix) ComputeBudgetProgramId.

Record SignaturePubkeyPair : Type := {
  signer_key : PublicKey;
  signature : option string
}.

(** A legacy [Transaction] object. *)
Record Transaction : Type := {
  instructions : list TransactionInstruction;
  recentBlockhash : option string;
  feePayer : option PublicKey;
  signatures : list SignaturePubkeyPair
}.

Record VersionedMessage : Type := {
  version : Z;
  m_recentBlockhash : string;
  staticAccountKeys : list PublicKey;
  compiledInstructions : list TransactionInstruction
}.

Record VersionedTransaction : Type := {
  message : VersionedMessage;
  v_signatures : list string
}.

(** [type SolanaTransaction = Transaction | VersionedTransaction] *)
Inductive SolanaTransaction : Type :=
| Legacy (tx : Transaction)
| Versioned (tx : VersionedTransaction).

(** src/utils.ts: ["version" in tx]. *)
Definition isVersionedTransaction (tx : SolanaTransaction) : bool :=
  match tx with Versioned _ => true | Legacy _ => false end.

Definition isLegacyTransaction (tx : SolanaTransaction) : bool :=
  negb (isVersionedTransaction tx).

(** The instruction list a transaction object carries. *)
Definition instruction_list (tx : SolanaTransaction) : list TransactionInstruction :=
  match tx with
  | Legacy t => instructions t
  | Versioned t => compiledInstructions (message t)
  end.

(** [new Transaction()] *)
Definition emptyTransaction : Transaction :=
  {| instructions := []; recentBlockhash := None; feePayer := None; signatures := [] |}.

(** [tx.add(ix)] *)
Definition add (ix : TransactionInstruction) (tx : Transaction) : Transaction :=
  {| instructions := instructions tx ++ [ix]; recentBlockhash := recentBlockhash tx;
     feePayer := feePayer tx; signatures := signatures tx |}.

(** *** Configuration and results (src/sender/types.ts) *)

(** A setting that can be switched off with [false] or left out. *)
Inductive Setting (A : Type) : Type :=
| Disabled
| Unset
| Configured (a : A).
Arguments Disabled {A}.
Arguments Unset {A}.
Arguments Configured {A} a.

Definition is_disabled {A : Type} (s : Setting A) : bool :=
  match s with Disabled => true | _ => false end.

Record SimulationConfig : Type := {
  sim_commitment : option string;
  replaceRecentBlockhash : option bool;
  sigVerify : option bool
}.

Record SimulationError : Type := {
  se_code : Z;
  se_message : string;
  se_instructionError : option (Z * string)
}.

Record SimulationResult : Type := {
  success : bool;
  sr_unitsConsumed : Z;
  sr_logs : list string;
  sr_error : option SimulationError
}.

(** The [err] member of the RPC's simulation value: how it renders
    ([typeof err === "string" ? err : JSON.stringify(err)]), its [code] and
    its [InstructionError] member if it has them. *)
Record SimErr : Type := {
  rendered : string;
  err_code : option Z;
  instructionError : option (Z * string)
}.

Record SimValue : Type := {
  err : option SimErr;
  logs : option (list string);
  unitsConsumed : option Z
}.

Record ConfirmationConfig : Type := {
  c_commitment : option string;
  timeoutMs : option Z;
  pollIntervalMs : option Z;
  useWebSocket : option bool
}.

Inductive ConfirmationStatus : Type := Confirmed | Finalized | Expired | Failed.

Record ConfirmationResult : Type := {
  status : ConfirmationStatus;
  c_slot : option Z;
  c_error : option (Z * string);
  latencyMs : Z
}.

Record SendResult : Type := {
  r_signature : string;
  r_slot : Z;
  r_commitment : string;
  r_attempts : nat;
  r_totalLatencyMs : Z;
  r_unitsConsumed : option Z;
  r_priorityFee : option Z
}.

(** [Partial<FeeEstimateConfig> | { microLamports: number }] *)
Record PriorityFeeOption : Type := {
  o_microLamports : option Z;
  o_estimate : Fee.PartialConfig
}.

(** ["microLamports" in config && !("targetPercentile" in config)] *)
Definition isStaticFee (o : PriorityFeeOption) : bool :=
  bool_decide (is_Some (o_microLamports o))
  && negb (bool_decide (is_Some (Fee.p_targetPercentile (o_estimate o)))).

(** Lifecycle events (src/events.ts) the pipeline emits. *)
Inductive TxEvent : Type :=
| SENDING (transaction : nat) (attempt : nat)
| SIMULATED (signature : string) (unitsConsumed : Z) (logs : list string)
| SENT (signature : string) (attempt : nat)
| CONFIRMED (signature : string) (slot : Z) (commitment : string)
| RETRYING (attempt : nat) (maxRetries : nat) (error : JsError) (delayMs : Q)
| BLOCKHASH_EXPIRED_EVENT (oldBlockhash newBlockhash : string).

(** What a run of the pipeline does, in order: events emitted, log lines,
    and the two calls the properties speak about, with the transaction
    object as it was when the call was made. *)
Inductive Action : Type :=
| Emitted (e : TxEvent)
| Logged (entry : Log.Entry)
| CalledSimulate (conn : Health.Connection) (tx : SolanaTransaction)
                 (config : option SimulationConfig)
| Submitted (tx : SolanaTransaction).

Definition is_simulate (a : Action) : bool :=
  match a with CalledSimulate _ _ _ => true | _ => false end.

Definition is_sending (a : Action) : bool :=
  match a with Emitted (SENDING _ _) => true | _ => false end.

Definition simulate_calls (trace : list Action) : nat :=
  length (List.filter is_simulate trace).

Definition sending_events (trace : list Action) : nat :=
  length (List.filter is_sending trace).

Section WithEnv.
(** The environment: the network, the clock, and the sender's own
    collaborators (connection pool, blockhash manager, confirmer), which
    the pipeline only reaches through the calls below.  None of them holds
    a reference to a transaction object. *)
Context {Env : Type}.
Variable now : Env -> Z.
Variable random : Env -> Q * Env.
Variable sleep : Q -> Env -> Env.
(** [this.pool.getConnection()] *)
Variable pool_getConnection : Env -> (Health.Connection + Thrown) * Env.
(** [this.pool.withFallback((conn) => conn.sendRawTransaction(tx.serialize(), ...))] *)
Variable pool_sendRaw : SolanaTransaction -> Env -> (string + Thrown) * Env.
(** [this.blockhashManager]: [getBlockhash], [getCachedBlockhash], [refreshBlockhash] *)
Variable getBlockhash : Env -> (Blockhash.BlockhashInfo + Thrown) * Env.
Variable getCachedBlockhash : Env -> option Blockhash.BlockhashInfo.
Variable refreshBlockhash : Env -> (Blockhash.BlockhashInfo + Thrown) * Env.
(** [this.confirmer.confirm(conn, signature, lastValidBlockHeight, config)] *)
Variable confirm :
  Health.Connection -> string -> Z -> option ConfirmationConfig -> Env ->
  (ConfirmationResult + Thrown) * Env.
(** [connection.getRecentPrioritizationFees] and [connection.simulateTransaction] *)
Variable getRecentPrioritizationFees :
  Health.Connection -> option (list string) -> Env -> (list Fee.RecentFee + Thrown) * Env.
Variable rpc_simulateTransaction :
  Health.Connection -> SolanaTransaction -> option (string * bool * bool) -> Env ->
  (SimValue + Thrown) * Env.
(** web3.js signing: the [signatures] a [sign] call installs on the object,
    and the error it throws if it throws. *)
Variable signLegacy : list Keypair -> Transaction -> list SignaturePubkeyPair * option Thrown.
Variable signVersioned : list Keypair -> VersionedTransaction -> list string * option Thrown.

(** Transaction objects live in a store and are passed by reference. *)
Record World : Type := {
  heap : gmap nat SolanaTransaction;
  trace : list Action;
  env : Env
}.

Definition set_env (e : Env) (w : World) : World :=
  {| heap := heap w; trace := trace w; env := e |}.

Definition set_heap (h : gmap nat SolanaTransaction) (w : World) : World :=
  {| heap := h; trace := trace w; env := env w |}.

(** Computations that may throw. *)
Definition M (A : Type) : Type := World -> (A + Thrown) * World.

Definition ret {A : Type} (a : A) : M A := fun w => (inl a, w).

Definition throw {A : Type} (x : Thrown) : M A := fun w => (inr x, w).

Definition bind {A B : Type} (m : M A) (k : A -> M B) : M B :=
  fun w => match m w with
           | (inl a, w') => k a w'
           | (inr x, w') => (inr x, w')
           end.

Notation "x <- m ;; k" := (bind m (fun x => k))
  (at level 90, m at level 89, right associativity).
Notation "m ;;; k" := (bind m (fun _ => k))
  (at level 90, right associativity).

(** An awaited call on a collaborator. *)
Definition await {A : Type} (call : Env -> (A + Thrown) * Env) : M A :=
  fun w => let (r, e) := call (env w) in (r, set_env e w).

Definition record (a : Action) : M unit :=
  fun w => (inl tt, {| heap := heap w; trace := trace w ++ [a]; env := env w |}).

(** [this.events.emit(event, payload)] *)
Definition emit (e : TxEvent) : M unit := record (Emitted e).

Definition log (entries : list Log.Entry) : M unit :=
  fun w => (inl tt, {| heap := heap w; trace := trace w ++ List.map Logged entries;
                       env := env w |}).

Definition clock : M Z := fun w => (inl (now (env w)), w).

(** Dereference.  A reference held by running code always points to an
    object; the other branch only makes the function total. *)
Definition load (r : nat) : M SolanaTransaction :=
  fun w => match heap w !! r with
           | Some tx => (inl tx, w)
           | None => (inr (ThrownValue "dangling reference"), w)
           end.

Definition store (r : nat) (tx : SolanaTransaction) : M unit :=
  fun w => (inl tt, set_heap (<[r := tx]> (heap w)) w).

(** [new TransactionClass()]: a new object at an unused address. *)
Definition alloc (tx : SolanaTransaction) : M nat :=
  fun w => let r := fresh (dom (heap w)) in
           (inl r, set_heap (<[r := tx]> (heap w)) w).

Record SendOptions : Type := {
  o_priorityFee : option PriorityFeeOption;
  o_computeUnits : option Z;
  o_retry : option (PartialRetryConfig (World := World));
  o_skipSimulation : option bool;
  o_skipConfirmation : option bool;
  o_commitment : option string;
  o_extraSigners : option (list Keypair)
}.

(** The members of [SenderConfig] the pipeline reads; [rpc], [blockhash],
    [jito] and [logger] configure the collaborators. *)
Record SenderConfig : Type := {
  signer : Keypair;
  extraSigners : option (list Keypair);
  retry : option (PartialRetryConfig (World := World));
  priorityFee : Setting Fee.PartialConfig;
  simulation : Setting SimulationConfig;
  confirmation : option ConfirmationConfig;
  commitment : option string
}.

Variable config : SenderConfig.

(** [private async resolvePriorityFee(options)] *)
Definition resolvePriorityFee (options : option SendOptions) : M Z :=
  match options ≫= o_priorityFee with
  | Some fee =>
      if isStaticFee fee then ret (default 0 (o_microLamports fee))
      else
        conn <- await pool_getConnection ;;
        result <- await (fun e =>
          match Fee.estimatePriorityFee getRecentPrioritizationFees conn
                  (Some (o_estimate fee)) e with
          | (inl r, e') => (inl r, e')
          | (inr x, e') => (inr (ThrownError x), e')
          end) ;;
        ret (Fee.microLamports result)
  | None =>
      conn <- await pool_getConnection ;;
      let feeConfig :=
        match priorityFee config with
        | Configured c => Some c
        | _ => None
        end in
      result <- await (fun e =>
        match Fee.estimatePriorityFee getRecentPrioritizationFees conn feeConfig e with
        | (inl r, e') => (inl r, e')
        | (inr x, e') => (inr (ThrownError x), e')
        end) ;;
      ret (Fee.microLamports result)
  end.

(** The instructions of the working copy. *)
Definition budgeted (computeUnits feeAmount : Z) (original : list TransactionInstruction)
    : list TransactionInstruction :=
  createComputeBudgetInstructions computeUnits feeAmount
  ++ List.filter (fun ix => negb (isComputeBudget ix)) original.

(** [private async prepareTransaction(transaction, options)] *)
Definition prepareTransaction (transaction : nat) (options : option SendOptions)
    : M (nat * option Z) :=
  original <- load transaction ;;
  match original with
  | Legacy legacy =>
      if negb (is_disabled (priorityFee config)) then
        feeAmount <- resolvePriorityFee options ;;
        let computeUnits :=
          default Fee.DEFAULT_defaultComputeUnits (options ≫= o_computeUnits) in
        let budgetInstructions := createComputeBudgetInstructions computeUnits feeAmount in
        copy <- alloc (Legacy emptyTransaction) ;;
        let filled :=
          List.fold_left (fun tx ix => add ix tx)
            (budgetInstructions
             ++ List.filter (fun ix => negb (isComputeBudget ix)) (instructions legacy))
            emptyTransaction in
        store copy (Legacy filled) ;;;
        ret (copy, Some feeAmount)
      else ret (transaction, None)
  | Versioned _ => ret (transaction, None)
  end.

(** [private signTransaction(tx, blockhashInfo, extraSigners)] *)
Definition signTransaction (tx : nat) (blockhash : string)
    (extra : option (list Keypair)) : M unit :=
  let allSigners :=
    [signer config] ++ default [] (extraSigners config) ++ default [] extra in
  object <- load tx ;;
  match object with
  | Legacy t =>
      let t1 := {| instructions := instructions t; recentBlockhash := Some blockhash;
                   feePayer := Some (publicKey (signer config));
                   signatures := signatures t |} in
      let (sigs, thrown) := signLegacy allSigners t1 in
      store tx (Legacy {| instructions := instructions t1;
                          recentBlockhash := recentBlockhash t1;
                          feePayer := feePayer t1; signatures := sigs |}) ;;;
      match thrown with Some x => throw x | None => ret tt end
  | Versioned t =>
      let m := message t in
      let t1 := {| message := {| version := version m; m_recentBlockhash := blockhash;
                                 staticAccountKeys := staticAccountKeys m;
                                 compiledInstructions := compiledInstructions m |};
                   v_signatures := v_signatures t |} in
      let (sigs, thrown) := signVersioned allSigners t1 in
      store tx (Versioned {| message := message t1; v_signatures := sigs |}) ;;;
      match thrown with Some x => throw x | None => ret tt end
  end.

(** src/simulation/simulator.ts: [simulateTransaction(connection,
    transaction, config, logger)]; the sender always has a logger. *)
Definition simulateTransaction (conn : Health.Connection) (tx : SolanaTransaction)
    (simConfig : option SimulationConfig) : M SimulationResult :=
  record (CalledSimulate conn tx simConfig) ;;;
  let commitment := default "confirmed" (simConfig ≫= sim_commitment) in
  let replace := default true (simConfig ≫= replaceRecentBlockhash) in
  let verify := default false (simConfig ≫= sigVerify) in
  let rpcConfig :=
    if isVersionedTransaction tx then Some (commitment, replace, verify) else None in
  fun w =>
    match await (rpc_simulateTransaction conn tx rpcConfig) w with
    | (inr thrown, w1) =>
        let cause := toError thrown in
        (inr (ThrownError
                (SolTxError SIMULATION_FAILED
                   ("Transaction simulation failed: " +:+ Errors.message cause)
                   (Some cause) [])), w1)
    | (inl value, w1) =>
        match err value with
        | Some e =>
            (log (Log.warn true "Simulation failed" [("error", rendered e)]) ;;;
             ret {| success := false;
                    sr_unitsConsumed := default 0 (unitsConsumed value);
                    sr_logs := default [] (logs value);
                    sr_error := Some {| se_code := default (-1) (err_code e);
                                        se_message := rendered e;
                                        se_instructionError := instructionError e |} |}) w1
        | None =>
            (log (Log.debug true "Simulation succeeded"
                    [("unitsConsumed", pretty (default 0 (unitsConsumed value)))]) ;;;
             ret {| success := true;
                    sr_unitsConsumed := default 0 (unitsConsumed value);
                    sr_logs := default [] (logs value);
                    sr_error := None |}) w1
        end
    end.

(** [options?.skipSimulation ?? this.config.simulation === false]: the
    comparison binds tighter than [??]. *)
Definition skipsSimulation (options : option SendOptions) : bool :=
  default (is_disabled (simulation config)) (options ≫= o_skipSimulation).

(** [private async runSimulation(tx, options)] *)
Definition runSimulation (tx : nat) (options : option SendOptions) : M (option Z) :=
  if skipsSimulation options then ret None
  else
    conn <- await pool_getConnection ;;
    let simConfig :=
      match simulation config with
      | Configured c => Some c
      | _ => None
      end in
    object <- load tx ;;
    simResult <- simulateTransaction conn object simConfig ;;
    emit (SIMULATED "" (sr_unitsConsumed simResult) (sr_logs simResult)) ;;;
    if negb (success simResult) then
      throw (ThrownError
               (SolTxError SIMULATION_FAILED
                  ("Simulation failed: "
                   +:+ default "unknown error" (se_message <$> sr_error simResult))
                  None [("logs", CLogs (sr_logs simResult))]))
    else ret (Some (sr_unitsConsumed simResult)).

(** [private async sendRawTransaction(tx)] *)
Definition sendRawTransaction (tx : nat) : M string :=
  object <- load tx ;;
  record (Submitted object) ;;;
  await (pool_sendRaw object).

(** [private async awaitConfirmation(signature, lastValidBlockHeight, commitment)] *)
Definition awaitConfirmation (signature : string) (lastValidBlockHeight : Z)
    (commitment : string) : M Z :=
  conn <- await pool_getConnection ;;
  confirmResult <- await (confirm conn signature lastValidBlockHeight (confirmation config)) ;;
  match status confirmResult with
  | Failed =>
      throw (ThrownError
               (SolTxError TRANSACTION_FAILED
                  (default "Transaction failed on chain" (snd <$> c_error confirmResult))
                  None []))
  | Expired =>
      throw (ThrownError
               (SolTxError BLOCKHASH_EXPIRED "Blockhash expired during confirmation" None []))
  | _ =>
      emit (CONFIRMED signature (default 0 (c_slot confirmResult)) commitment) ;;;
      ret (default 0 (c_slot confirmResult))
  end.

(** [private buildResult(...)] *)
Definition buildResult (signature : string) (slot : Z) (commitment : string)
    (attempt : nat) (startTime : Z) (unitsConsumed : option Z) (priorityFee : option Z)
    : M SendResult :=
  t <- clock ;;
  ret {| r_signature := signature; r_slot := slot; r_commitment := commitment;
         r_attempts := (attempt + 1)%nat; r_totalLatencyMs := t - startTime;
         r_unitsConsumed := unitsConsumed; r_priorityFee := priorityFee |}.

(** The operation [send] hands to [withRetry]. *)
Definition attempt_once (tx : nat) (feeAmount : option Z) (options : option SendOptions)
    (commitment : string) (startTime : Z) (ctx : RetryContext) : M SendResult :=
  blockhashInfo <- await getBlockhash ;;
  signTransaction tx (Blockhash.blockhash blockhashInfo) (options ≫= o_extraSigners) ;;;
  unitsConsumed <- runSimulation tx options ;;
  emit (SENDING tx (attempt ctx)) ;;;
  signature <- sendRawTransaction tx ;;
  emit (SENT signature (attempt ctx)) ;;;
  if default false (options ≫= o_skipConfirmation) then
    buildResult signature 0 commitment (attempt ctx) startTime unitsConsumed feeAmount
  else
    slot <- awaitConfirmation signature (Blockhash.lastValidBlockHeight blockhashInfo)
                              commitment ;;
    buildResult signature slot commitment (attempt ctx) startTime unitsConsumed feeAmount.

(** The [onRetry] hook [send] installs. *)
Definition onRetryHook (error : JsError) (attempt : nat) (delayMs : Q) : M unit :=
  emit (RETRYING attempt (default 3%nat (retry config ≫= p_maxRetries)) error delayMs) ;;;
  if isBlockhashExpired error then
    oldBlockhash <- (fun w => (inl (default "" (Blockhash.blockhash
                                        <$> getCachedBlockhash (env w))), w)) ;;
    await refreshBlockhash ;;;
    newBlockhash <- (fun w => (inl (default "" (Blockhash.blockhash
                                        <$> getCachedBlockhash (env w))), w)) ;;
    emit (BLOCKHASH_EXPIRED_EVENT oldBlockhash newBlockhash)
  else ret tt.

(** The clock, the random source and the timer of the retry engine. *)
Definition world_now (w : World) : Z := now (env w).

Definition world_random (w : World) : Q * World :=
  let (r, e) := random (env w) in (r, set_env e w).

Definition world_sleep (ms : Q) (w : World) : World := set_env (sleep ms (env w)) w.

(** [{ ...this.config.retry, ...options?.retry, onRetry }] *)
Definition retryConfig (options : option SendOptions) : PartialRetryConfig (World := World) :=
  let merged := spread (default emptyPartial (retry config))
                       (default emptyPartial (options ≫= o_retry)) in
  {| p_maxRetries := p_maxRetries merged;
     p_baseDelayMs := p_baseDelayMs merged;
     p_maxDelayMs := p_maxDelayMs merged;
     p_backoffMultiplier := p_backoffMultiplier merged;
     p_retryPredicate := p_retryPredicate merged;
     p_onRetry := Some (fun error attempt delayMs w =>
                          match onRetryHook error attempt delayMs w with
                          | (inl _, w') => (None, w')
                          | (inr x, w') => (Some x, w')
                          end) |}.

(** [async send(transaction, options)]: what the promise settles to and
    the world it leaves. *)
Definition send (transaction : nat) (options : option SendOptions) (w : World)
    : Outcome SendResult * World :=
  let startTime := now (env w) in
  let commitment :=
    default (default "confirmed" (commitment config)) (options ≫= o_commitment) in
  match prepareTransaction transaction options w with
  | (inr x, w1) => (Rejected x, w1)
  | (inl (tx, feeAmount), w1) =>
      let r := withRetry world_now world_random world_sleep
                 (attempt_once tx feeAmount options commitment startTime)
                 (Some (retryConfig options)) w1 in
      (outcome r, world r)
  end.

(** *** Specifications of computations *)

(** [triple P m Q E]: from a world satisfying [P], [m] either returns [a]
    in a world satisfying [Q a] or throws in a world satisfying [E]. *)
Definition triple {A : Type} (P : World -> Prop) (m : M A)
    (Q : A -> World -> Prop) (E : World -> Prop) : Prop :=
  forall w, P w ->
    match m w with
    | (inl a, w') => Q a w'
    | (inr _, w') => E w'
    end.

Definition preserves {A : Type} (I : World -> Prop) (m : M A) : Prop :=
  triple I m (fun _ => I) I.

(** Properties of worlds that do not look at the environment. *)
Definition env_stable (I : World -> Prop) : Prop :=
  forall w e, I w -> I (set_env e w).

(** Properties of worlds that survive recording an action. *)
Definition allows (I : World -> Prop) (a : Action) : Prop :=
  forall w, I w -> I {| heap := heap w; trace := trace w ++ [a]; env := env w |}.

(** What the simulation step does to a pair of properties: when it is
    skipped [I'] must follow from [I], otherwise the call to
    [simulateTransaction] leads from [I] to [I']. *)
Definition simulation_step (I I' : World -> Prop) (options : option SendOptions) : Prop :=
  if skipsSimulation options then forall w, I w -> I' w
  else forall conn object simConfig w,
         I w ->
         I' {| heap := heap w; trace := trace w ++ [CalledSimulate conn object simConfig];
               env := env w |}.

(** The object at [r] is exactly [object]. *)
Definition untouched (r : nat) (object : SolanaTransaction) (w : World) : Prop :=
  heap w !! r = Some object.

(** The object at [r] carries the instruction list [il]. *)
Definition carries (r : nat) (il : list TransactionInstruction) (w : World) : Prop :=
  exists object, heap w !! r = Some object /\ instruction_list object = il.

(** [a] is not a submission, or submits a legacy transaction with the
    instruction list [il]. *)
Definition submits (il : list TransactionInstruction) (a : Action) : Prop :=
  match a with
  | Submitted tx => isLegacyTransaction tx = true /\ instruction_list tx = il
  | _ => True
  end.

(** Since the trace was [before], only [il] has been submitted. *)
Definition submitted_only (before : list Action) (il : list TransactionInstruction)
    (w : World) : Prop :=
  exists added, trace w = before ++ added /\ Forall (submits il) added.

(** [object'] is [object] with a new blockhash, fee payer or signatures:
    the same kind of transaction with the same instruction list. *)
Definition resigned (object object' : SolanaTransaction) : Prop :=
  isLegacyTransaction object' = isLegacyTransaction object
  /\ instruction_list object' = instruction_list object.

(** The invariant of a send that works on a copy at [copy]. *)
Definition works_on_copy (transaction : nat) (original : SolanaTransaction)
    (copy : nat) (il : list TransactionInstruction) (before : list Action)
    (w : World) : Prop :=
  untouched transaction original w
  /\ (exists c, heap w !! copy = Some (Legacy c) /\ instructions c = il)
  /\ submitted_only before il w.

(** The signers of a send:
    [[this.config.signer, ...(this.config.extraSigners ?? []), ...(extraSigners ?? [])]]. *)
Definition allSigners (extra : option (list Keypair)) : list Keypair :=
  [signer config] ++ default [] (extraSigners config) ++ default [] extra.

(** The object [signTransaction] leaves at the reference it is given: the
    blockhash written into it (and the fee payer, for a legacy
    transaction), and the signatures the web3.js [sign] call installed. *)
Definition signedObject (blockhash : string) (extra : option (list Keypair))
    (object : SolanaTransaction) : SolanaTransaction :=
  match object with
  | Legacy t =>
      Legacy {| instructions := instructions t;
                recentBlockhash := Some blockhash;
                feePayer := Some (publicKey (signer config));
                signatures :=
                  fst (signLegacy (allSigners extra)
                         {| instructions := instructions t;
                            recentBlockhash := Some blockhash;
                            feePayer := Some (publicKey (signer config));
                            signatures := signatures t |}) |}
  | Versioned t =>
      Versioned
        {| message := {| version := version (message t);
                         m_recentBlockhash := blockhash;
                         staticAccountKeys := staticAccountKeys (message t);
                         compiledInstructions := compiledInstructions (message t) |};
           v_signatures :=
             fst (signVersioned (allSigners extra)
                    {| message := {| version := version (message t);
                                     m_recentBlockhash := blockhash;
                                     staticAccountKeys := staticAccountKeys (message t);
                                     compiledInstructions :=
                                       compiledInstructions (message t) |};
                       v_signatures := v_signatures t |}) |}
  end.

(** [object'] differs from [object] at most in what signing writes: the
    blockhash, the signatures and, for a legacy transaction, the fee payer. *)
Definition signs_apart (object object' : SolanaTransaction) : Prop :=
  match object, object' with
  | Legacy t, Legacy t' => instructions t' = instructions t
  | Versioned t, Versioned t' =>
      version (message t') = version (message t)
      /\ staticAccountKeys (message t') = staticAccountKeys (message t)
      /\ compiledInstructions (message t') = compiledInstructions (message t)
  | _, _ => False
  end.

(** [a] is not a submission, or submits [object]. *)
Definition submits_object (object : SolanaTransaction) (a : Action) : Prop :=
  forall o, a = Submitted o -> o = object.

(** Since the trace was [before], [object] has been submitted. *)
Definition submitted_since (before : list Action) (object : SolanaTransaction)
    (w : World) : Prop :=
  exists added, trace w = before ++ added /\ In (Submitted object) added.

(** Where an attempt that started in [w0] stands once it has signed: the
    store of [w0] with [signed] at [tx], nothing submitted since but
    [signed], and [signed] submitted if [sent]. *)
Definition signed_state (tx : nat) (signed : SolanaTransaction) (sent : bool)
    (w0 w : World) : Prop :=
  heap w = <[tx := signed]> (heap w0)
  /\ exists added,
       trace w = trace w0 ++ added
       /\ Forall (submits_object signed) added
       /\ (sent = true -> In (Submitted signed) added).

(** The working transaction at [tx] is [working] up to signing, and the
    trace has grown from [before]. *)
Definition working_on (tx : nat) (working : SolanaTransaction) (before : list Action)
    (w : World) : Prop :=
  (exists object, heap w !! tx = Some object /\ signs_apart working object)
  /\ exists added, trace w = before ++ added.

(** The object at [tx] is [working] as [signTransaction] leaves it, for
    some blockhash and whatever signatures it had before. *)
Definition signed_in_place (tx : nat) (working : SolanaTransaction)
    (extra : option (list Keypair)) (w : World) : Prop :=
  exists blockhash object,
    signs_apart working object
    /\ heap w !! tx = Some (signedObject blockhash extra object).

(** [n] calls to [simulateTransaction] are on record. *)
Definition simulated (n : nat) (w : World) : Prop :=
  simulate_calls (trace w) = n.

(** The calls to [simulateTransaction] on record exceed the SENDING
    events by [d] at least. *)
Definition simulated_ahead (d : Z) (w : World) : Prop :=
  Z.of_nat (sending_events (trace w)) + d <= Z.of_nat (simulate_calls (trace w)).

(** The compute-unit limit of a send. *)
Definition computeUnitsOf (options : option SendOptions) : Z :=
  default Fee.DEFAULT_defaultComputeUnits (options ≫= o_computeUnits).

(** The simulation configuration [runSimulation] passes on. *)
Definition simConfigOf : option SimulationConfig :=
  match simulation config with
  | Configured c => Some c
  | _ => None
  end.

End WithEnv.

Arguments World Env : clear implicits.

(** *** A scenario: one healthy endpoint that accepts everything *)

Definition calm_now (e : unit) : Z := 0.
Definition calm_random (e : unit) : Q * unit := (0%Q, e).
Definition calm_sleep (ms : Q) (e : unit) : unit := e.

Definition calm_getConnection (e : unit) : (Health.Connection + Thrown) * unit :=
  (inl Blockhash.mainnet, e).

Definition calm_sendRaw (tx : SolanaTransaction) (e : unit) : (string + Thrown) * unit :=
  (inl "5UfDuX7WXYzPMV3bNQHRKuN8n1MFi47kL9HteQNGPDaBbuEzivjJoSBFQMFg9M6RnN3t5C2X", e).

Definition calm_getBlockhash (e : unit) : (Blockhash.BlockhashInfo + Thrown) * unit :=
  (inl Blockhash.mock_info, e).

Definition calm_getCachedBlockhash (e : unit) : option Blockhash.BlockhashInfo :=
  Some Blockhash.mock_info.

Definition calm_confirm (conn : Health.Connection) (signature : string)
    (lastValidBlockHeight : Z) (c : option ConfirmationConfig) (e : unit)
    : (ConfirmationResult + Thrown) * unit :=
  (inl {| status := Confirmed; c_slot := Some 150; c_error := None; latencyMs := 0 |}, e).

Definition calm_fees (conn : Health.Connection) (accounts : option (list string))
    (e : unit) : (list Fee.RecentFee + Thrown) * unit :=
  (inl Fee.sample_fees, e).

Definition calm_simulate (conn : Health.Connection) (tx : SolanaTransaction)
    (c : option (string * bool * bool)) (e : unit) : (SimValue + Thrown) * unit :=
  (inl {| err := None; logs := Some ["log1"]; unitsConsumed := Some 50000 |}, e).

Definition calm_signLegacy (signers : list Keypair) (tx : Transaction)
    : list SignaturePubkeyPair * option Thrown :=
  (List.map (fun k => {| signer_key := publicKey k;
                         signature := Some ("signed:" +:+ publicKey k) |}) signers,
   None).

Definition calm_signVersioned (signers : list Keypair) (tx : VersionedTransaction)
    : list string * option Thrown :=
  (List.map (fun k => "signed:" +:+ publicKey k) signers, None).

Definition payer : Keypair := {| publicKey := "Payer"; secretKey := "secret" |}.

Definition calm_config (fee : Setting Fee.PartialConfig)
    (sim : Setting SimulationConfig) : SenderConfig (Env := unit) :=
  {| signer := payer; extraSigners := None; retry := None; priorityFee := fee;
     simulation := sim; confirmation := None; commitment := None |}.

Definition calm_send (fee : Setting Fee.PartialConfig) (sim : Setting SimulationConfig)
    (transaction : nat) (options : option (SendOptions (Env := unit))) (w : World unit)
    : Outcome SendResult * World unit :=
  send calm_now calm_random calm_sleep calm_getConnection calm_sendRaw calm_getBlockhash
       calm_getCachedBlockhash calm_getBlockhash calm_confirm calm_fees calm_simulate
       calm_signLegacy calm_signVersioned (calm_config fee sim) transaction options w.

Definition transfer : TransactionInstruction :=
  {| programId := "11111111111111111111111111111111";
     keys := [ {| pubkey := "Payer"; isSigner := true; isWritable := true |};
               {| pubkey := "Receiver"; isSigner := false; isWritable := true |} ];
     data := OtherData [2; 232; 3] |}.

(** A legacy transfer that already carries its own compute-budget pair. *)
Definition legacy_transfer : SolanaTransaction :=
  Legacy {| instructions := [ transfer; setComputeUnitLimit 999999; setComputeUnitPrice 42 ];
            recentBlockhash := None; feePayer := None; signatures := [] |}.

Definition versioned_transfer : SolanaTransaction :=
  Versioned {| message := {| version := 0; m_recentBlockhash := "StaleBlockhash";
                             staticAccountKeys := ["Payer"; "Receiver"];
                             compiledInstructions := [transfer] |};
               v_signatures := [] |}.

Definition world_with (tx : SolanaTransaction) : World unit :=
  {| heap := {[ 0%nat := tx ]}; trace := []; env := tt |}.

Definition only_skipSimulation (b : bool) : option (SendOptions (Env := unit)) :=
  Some {| o_priorityFee := None; o_computeUnits := None; o_retry := None;
          o_skipSimulation := Some b; o_skipConfirmation := None;
          o_commitment := None; o_extraSigners := None |}.

End Sender.

(** * Properties *)

(** ** Facts about the classifier *)

Module ClassifierFacts.
Import Errors Classifier.

Lemma prefix_spec (p s : string) :
  String.prefix p s = true <-> exists post, s = p +:+ post.
Proof.
  revert s. induction p as [|a p IH]; intros s; simpl.
  - split; [intros _; exists s; reflexivity | destruct s; reflexivity].
  - destruct s as [|b s]; simpl.
    + split; [discriminate | intros [post H]; discriminate].
    + destruct (Ascii.ascii_dec a b) as [->|Hne].
      * rewrite IH. split; intros [post H]; exists post.
        -- now rewrite H.
        -- now injection H.
      * split; [discriminate | intros [post H]; injection H; congruence].
Qed.

Lemma includes_unfold (pat s : string) :
  includes pat s =
  if String.prefix pat s then true
  else match s with
       | EmptyString => false
       | String _ rest => includes pat rest
       end.
Proof. destruct s; reflexivity. Qed.

Lemma includes_spec (pat s : string) :
  includes pat s = true <-> Contains s pat.
Proof.
  unfold Contains. induction s as [|c s IH]; rewrite includes_unfold.
  - destruct (String.prefix pat "") eqn:Hp.
    + apply prefix_spec in Hp as [post Hp].
      split; [intros _; exists "", post; exact Hp | reflexivity].
    + split; [discriminate |].
      intros (pre & post & H). destruct pre; simpl in H.
      * assert (String.prefix pat "" = true) by (apply prefix_spec; eauto).
        congruence.
      * discriminate.
  - destruct (String.prefix pat (String c s)) eqn:Hp.
    + apply prefix_spec in Hp as [post Hp].
      split; [intros _; exists "", post; exact Hp | reflexivity].
    + rewrite IH. split.
      * intros (pre & post & ->). exists (String c pre), post. reflexivity.
      * intros (pre & post & H). destruct pre as [|c' pre]; simpl in H.
        -- assert (String.prefix pat (String c s) = true)
             by (apply prefix_spec; eauto).
           congruence.
        -- injection H as _ ->. eauto.
Qed.

Lemma some_included_spec (l : list string) (msg : string) :
  some_included l msg = true <-> ContainsAny l msg.
Proof.
  unfold some_included, ContainsAny. rewrite existsb_exists.
  split; intros (p & Hin & H); exists p; split; auto; now apply includes_spec.
Qed.

Lemma first_included_some (l : list string) (msg p : string) :
  first_included l msg = Some p -> In p l /\ Contains msg p.
Proof.
  unfold first_included. intros H. apply find_some in H as [Hin H].
  split; [exact Hin | now apply includes_spec].
Qed.

Lemma first_included_none (l : list string) (msg : string) :
  first_included l msg = None <-> ~ ContainsAny l msg.
Proof.
  unfold first_included, ContainsAny. split.
  - intros H (p & Hin & Hc).
    pose proof (find_none _ _ H p Hin) as Hf. simpl in Hf.
    apply includes_spec in Hc. congruence.
  - intros H. destruct (find _ l) as [p|] eqn:Hf; [|reflexivity].
    exfalso. apply H. exists p. now apply first_included_some.
Qed.

Lemma isBlockhashExpired_spec (e : JsError) :
  isBlockhashExpired e = true <->
  typedBlockhashExpired e \/ ContainsAny NEEDS_RESIGN_MESSAGES (message e).
Proof.
  unfold isBlockhashExpired, typedBlockhashExpired.
  change (code_string BLOCKHASH_EXPIRED) with "BLOCKHASH_EXPIRED".
  rewrite <- some_included_spec.
  destruct (isSolTx e); cbn [andb].
  - case_bool_decide as Hc.
    + split; auto.
    + split; [auto | intros [[_ H]|H]; [congruence | auto]].
  - split; [auto | intros [[H _]|H]; [discriminate | auto]].
Qed.

(** A matching non-retryable pattern decides the classification on its
    own, whatever else the error carries. *)
Lemma classify_non_retryable (e : JsError) :
  ContainsAny NON_RETRYABLE_MESSAGES (message e) ->
  retryable (classifyError e) = false /\ needsResign (classifyError e) = false.
Proof.
  intros H. unfold classifyError.
  destruct (first_included NON_RETRYABLE_MESSAGES (message e)) eqn:Hf; simpl; auto.
  apply first_included_none in Hf. contradiction.
Qed.

Lemma classify_blockhash_expired (e : JsError) :
  ~ ContainsAny NON_RETRYABLE_MESSAGES (message e) ->
  typedBlockhashExpired e \/ ContainsAny NEEDS_RESIGN_MESSAGES (message e) ->
  classifyError e =
    {| retryable := true; needsResign := true; errorType := "BLOCKHASH_EXPIRED" |}.
Proof.
  intros Hn Hb. unfold classifyError.
  apply first_included_none in Hn. rewrite Hn.
  apply isBlockhashExpired_spec in Hb. now rewrite Hb.
Qed.

(** What the network-code rule answers when it is the one that fires. *)
Lemma classify_network_code (e : JsError) (c : string) :
  ~ ContainsAny NON_RETRYABLE_MESSAGES (message e) ->
  isBlockhashExpired e = false ->
  network_code (code e) = Some c ->
  classifyError e = {| retryable := true; needsResign := false; errorType := c |}.
Proof.
  intros Hn Hb Hc. unfold classifyError.
  apply first_included_none in Hn. now rewrite Hn, Hb, Hc.
Qed.

(** When [isBlockhashExpired] answers no, the message holds no re-sign
    pattern. *)
Lemma isBlockhashExpired_false (e : JsError) :
  isBlockhashExpired e = false -> some_included NEEDS_RESIGN_MESSAGES (message e) = false.
Proof.
  unfold isBlockhashExpired. destruct (_ && _); [discriminate|]. intros H; exact H.
Qed.

(** Where the re-sign flag comes from: the blockhash-expired rule, and only
    when no non-retryable pattern came first. *)
Lemma needsResign_cases (e : JsError) :
  (exists p, first_included NON_RETRYABLE_MESSAGES (message e) = Some p
             /\ needsResign (classifyError e) = false)
  \/ (first_included NON_RETRYABLE_MESSAGES (message e) = None
      /\ isBlockhashExpired e = true
      /\ classifyError e
         = {| retryable := true; needsResign := true; errorType := "BLOCKHASH_EXPIRED" |})
  \/ (first_included NON_RETRYABLE_MESSAGES (message e) = None
      /\ isBlockhashExpired e = false
      /\ needsResign (classifyError e) = false).
Proof.
  unfold classifyError.
  destruct (first_included NON_RETRYABLE_MESSAGES (message e)) as [p|] eqn:Hnon.
  - left. exists p. split; reflexivity.
  - right. destruct (isBlockhashExpired e) eqn:Hexp.
    + left. repeat split.
    + right. split; [reflexivity|]. split; [reflexivity|].
      destruct (network_code (code e)); [reflexivity|].
      destruct (includes "429" (message e) || includes "Too many requests" (message e));
        [reflexivity|].
      destruct (includes "503" (message e) || includes "Service unavailable" (message e));
        [reflexivity|].
      destruct (first_included RETRYABLE_MESSAGES (message e)); [|reflexivity].
      cbn [needsResign]. now apply isBlockhashExpired_false.
Qed.

(** C6 (amended).  [classifyError] is first-match-wins, and the
    non-retryable patterns come first.  (1) An error whose message contains
    a non-retryable substring is classified [retryable = false] without a
    re-sign, under the pattern as type, whatever else the message contains
    and whatever its code, the typed code BLOCKHASH_EXPIRED included.
    (2) An error coded BLOCKHASH_EXPIRED, or whose message contains a
    blockhash-expired pattern, is classified [retryable = true],
    [needsResign = true] provided its message contains no non-retryable
    pattern.  (3) That rule is applied before the network error-code rule:
    under the conditions of (2) the answer is the blockhash-expired one
    (type "BLOCKHASH_EXPIRED", re-sign needed) even when the error carries a
    network error code, for which the network rule alone would answer with
    the code as type and no re-sign.  (4) Conversely a re-sign is asked for
    only under the conditions of (2), and then the classification is the
    blockhash-expired one. *)
Theorem classifyError_first_match_wins (e : JsError) :
  (ContainsAny NON_RETRYABLE_MESSAGES (message e) ->
   retryable (classifyError e) = false
   /\ needsResign (classifyError e) = false
   /\ In (errorType (classifyError e)) NON_RETRYABLE_MESSAGES)
  /\
  (~ ContainsAny NON_RETRYABLE_MESSAGES (message e) ->
   typedBlockhashExpired e \/ ContainsAny NEEDS_RESIGN_MESSAGES (message e) ->
   retryable (classifyError e) = true /\ needsResign (classifyError e) = true)
  /\
  (~ ContainsAny NON_RETRYABLE_MESSAGES (message e) ->
   typedBlockhashExpired e \/ ContainsAny NEEDS_RESIGN_MESSAGES (message e) ->
   forall c, network_code (code e) = Some c ->
   errorType (classifyError e) = "BLOCKHASH_EXPIRED"
   /\ needsResign (classifyError e) = true
   /\ classifyError e <> {| retryable := true; needsResign := false; errorType := c |})
  /\
  (needsResign (classifyError e) = true ->
   ~ ContainsAny NON_RETRYABLE_MESSAGES (message e)
   /\ (typedBlockhashExpired e \/ ContainsAny NEEDS_RESIGN_MESSAGES (message e))
   /\ classifyError e
      = {| retryable := true; needsResign := true; errorType := "BLOCKHASH_EXPIRED" |}).
Proof.
  split; [|split; [|split]].
  - intros Hn. destruct (classify_non_retryable e Hn) as [Hr Hs].
    split; [exact Hr|]. split; [exact Hs|].
    unfold classifyError.
    destruct (first_included NON_RETRYABLE_MESSAGES (message e)) as [p|] eqn:Hp.
    + cbn [errorType]. now apply first_included_some in Hp as [Hin _].
    + apply first_included_none in Hp. contradiction.
  - intros Hn Hb. now rewrite (classify_blockhash_expired e Hn Hb).
  - intros Hn Hb c _. rewrite (classify_blockhash_expired e Hn Hb). simpl.
    repeat split. discriminate.
  - intros Hresign.
    destruct (needsResign_cases e) as [(p & _ & Hf) | [(Hnone & Hexp & Hc) | (_ & _ & Hf)]];
      try congruence.
    split; [now apply first_included_none|].
    split; [now apply isBlockhashExpired_spec | exact Hc].
Qed.

(** Four sample errors through the theorem: a simulation failure that
    mentions the blockhash is not retried, neither is an error typed
    BLOCKHASH_EXPIRED whose message reports a lack of funds; the pipeline's
    own expiry error is retried with a re-sign, and so is a socket error
    whose text mentions the blockhash, under the type "BLOCKHASH_EXPIRED". *)
Lemma classifyError_first_match_wins_witness :
  retryable (classifyError simulation_blockhash_error) = false
  /\ retryable (classifyError expired_insufficient_funds_error) = false
  /\ (retryable (classifyError confirmation_expired_error) = true
      /\ needsResign (classifyError confirmation_expired_error) = true)
  /\ errorType (classifyError reset_blockhash_error) = "BLOCKHASH_EXPIRED".
Proof.
  assert (Hnone : forall e, first_included NON_RETRYABLE_MESSAGES (message e) = None ->
                            ~ ContainsAny NON_RETRYABLE_MESSAGES (message e))
    by (intros e; apply first_included_none).
  split; [|split; [|split]].
  - apply (proj1 (classifyError_first_match_wins simulation_blockhash_error)).
    apply some_included_spec; reflexivity.
  - apply (proj1 (classifyError_first_match_wins expired_insufficient_funds_error)).
    apply some_included_spec; reflexivity.
  - apply (proj1 (proj2 (classifyError_first_match_wins confirmation_expired_error))).
    + apply Hnone. reflexivity.
    + left. split; reflexivity.
  - apply (proj1 (proj2 (proj2 (classifyError_first_match_wins reset_blockhash_error))))
      with (c := "ECONNRESET").
    + apply Hnone. reflexivity.
    + right. apply some_included_spec. reflexivity.
    + reflexivity.
Defined.

(** C6 as stated fails: an error typed BLOCKHASH_EXPIRED whose message
    contains a non-retryable pattern is classified non-retryable, without a
    re-sign, so "every error typed with code BLOCKHASH_EXPIRED is retryable"
    does not hold. *)
Lemma typed_blockhash_expired_not_retried :
  typedBlockhashExpired expired_insufficient_funds_error
  /\ classifyError expired_insufficient_funds_error
     = {| retryable := false; needsResign := false; errorType := "insufficient funds" |}
  /\ ~ (forall e : JsError,
          typedBlockhashExpired e ->
          retryable (classifyError e) = true /\ needsResign (classifyError e) = true).
Proof.
  split; [split; reflexivity|]. split; [reflexivity|].
  intros H. destruct (H expired_insufficient_funds_error) as [Hr _]; [split; reflexivity|].
  vm_compute in Hr. discriminate.
Qed.


(** *** The reported type *)

Lemma network_code_spec (c : option string) (x : string) :
  network_code c = Some x -> c = Some x /\ In x NETWORK_ERROR_CODES.
Proof.
  unfold network_code. destruct c as [c|]; [|discriminate].
  destruct (negb (c =? "")%string && list_includes NETWORK_ERROR_CODES c) eqn:H; [|discriminate].
  intros [= <-]. split; [reflexivity|].
  apply andb_true_iff in H as [_ H]. unfold list_includes in H.
  apply existsb_exists in H as (y & Hy & Heq). apply String.eqb_eq in Heq. now subst.
Qed.

(** The last loop of [classifyError] is reached only by messages without
    a re-sign pattern, "Too many requests" or "Service unavailable". *)
Lemma retryable_loop_reach (msg p : string) :
  some_included NEEDS_RESIGN_MESSAGES msg = false ->
  includes "Too many requests" msg = false ->
  includes "Service unavailable" msg = false ->
  first_included RETRYABLE_MESSAGES msg = Some p ->
  p = "Node is behind" \/ p = "node is unhealthy".
Proof.
  unfold some_included, first_included, NEEDS_RESIGN_MESSAGES, RETRYABLE_MESSAGES.
  cbn [existsb find]. intros Hresign Hmany Hservice.
  apply orb_false_iff in Hresign as [H1 Hresign].
  apply orb_false_iff in Hresign as [H2 Hresign].
  apply orb_false_iff in Hresign as [H3 _].
  rewrite H1, H2, H3, Hmany, Hservice.
  destruct (includes "Node is behind" msg); [intros [= <-]; now left|].
  destruct (includes "node is unhealthy" msg); [intros [= <-]; now right|].
  discriminate.
Qed.

(** X1.  The type [classifyError] reports.  A retryable classification
    carries "BLOCKHASH_EXPIRED", "RATE_LIMITED", "SERVICE_UNAVAILABLE", one
    of the two retryable patterns the earlier rules leave over ("Node is
    behind", "node is unhealthy"), or the error's own code, which is then a
    network error code; the other five retryable patterns are never
    reported as type.  A non-retryable classification carries the
    non-retryable pattern found, or "UNKNOWN". *)
Theorem classifyError_errorType_range (e : JsError) :
  let c := classifyError e in
  (retryable c = true ->
   In (errorType c)
      ["BLOCKHASH_EXPIRED"; "RATE_LIMITED"; "SERVICE_UNAVAILABLE";
       "Node is behind"; "node is unhealthy"]
   \/ (code e = Some (errorType c) /\ In (errorType c) NETWORK_ERROR_CODES))
  /\ (retryable c = false -> In (errorType c) ("UNKNOWN" :: NON_RETRYABLE_MESSAGES)).
Proof.
  cbv zeta. unfold classifyError.
  destruct (first_included NON_RETRYABLE_MESSAGES (message e)) as [p|] eqn:Hnon.
  { cbn. split; [discriminate|]. intros _. right.
    apply first_included_some in Hnon as [Hin _]. exact Hin. }
  destruct (isBlockhashExpired e) eqn:Hexp.
  { cbn. split; [intros _; left; now left | discriminate]. }
  destruct (network_code (code e)) as [c|] eqn:Hcode.
  { cbn. split; [|discriminate]. intros _. right. now apply network_code_spec. }
  destruct (includes "429" (message e) || includes "Too many requests" (message e)) eqn:Hrate.
  { cbn. split; [intros _; left; right; now left | discriminate]. }
  destruct (includes "503" (message e) || includes "Service unavailable" (message e))
    eqn:Hservice.
  { cbn. split; [intros _; left; right; right; now left | discriminate]. }
  destruct (first_included RETRYABLE_MESSAGES (message e)) as [p|] eqn:Hloop.
  - cbn [retryable errorType]. split; [|discriminate]. intros _. left.
    apply orb_false_iff in Hrate as [_ Hmany]. apply orb_false_iff in Hservice as [_ Hsvc].
    destruct (retryable_loop_reach _ _ (isBlockhashExpired_false _ Hexp) Hmany Hsvc Hloop)
      as [-> | ->]; cbn; tauto.
  - cbn. split; [discriminate|]. intros _. now left.
Qed.

(** X2.  "RATE_LIMITED" is reported exactly for the errors [isRateLimited]
    accepts that no earlier rule takes: no non-retryable pattern in the
    message, not blockhash-expired, no network error code.  An error
    [isRateLimited] accepts is retryable unless its message contains a
    non-retryable pattern. *)
Theorem rate_limited_classification (e : JsError) :
  (errorType (classifyError e) = "RATE_LIMITED" <->
   isRateLimited e = true
   /\ ~ ContainsAny NON_RETRYABLE_MESSAGES (message e)
   /\ isBlockhashExpired e = false
   /\ network_code (code e) = None)
  /\ (isRateLimited e = true ->
      ~ ContainsAny NON_RETRYABLE_MESSAGES (message e) ->
      retryable (classifyError e) = true).
Proof.
  unfold isRateLimited, classifyError.
  destruct (first_included NON_RETRYABLE_MESSAGES (message e)) as [p|] eqn:Hnon.
  { pose proof (first_included_some _ _ _ Hnon) as [Hin Hc].
    assert (Hany : ContainsAny NON_RETRYABLE_MESSAGES (message e)) by (exists p; tauto).
    cbn [errorType retryable]. split; [split|].
    - intros ->. cbn in Hin. repeat destruct Hin as [Hin|Hin]; try discriminate; contradiction.
    - tauto.
    - tauto. }
  apply first_included_none in Hnon.
  destruct (isBlockhashExpired e) eqn:Hexp.
  { cbn. split; [split|]; [discriminate | intros (_ & _ & ? & _); discriminate | reflexivity]. }
  destruct (network_code (code e)) as [c|] eqn:Hcode.
  { cbn [errorType retryable]. split; [split|].
    - intros ->. apply network_code_spec in Hcode as [_ Hin]. cbn in Hin.
      repeat destruct Hin as [Hin|Hin]; try discriminate; contradiction.
    - intros (_ & _ & _ & ?); discriminate.
    - reflexivity. }
  destruct (includes "429" (message e) || includes "Too many requests" (message e)) eqn:Hrate.
  { cbn. split; [split|]; tauto. }
  destruct (includes "503" (message e) || includes "Service unavailable" (message e))
    eqn:Hservice.
  { cbn. split; [split|]; [discriminate | intros (? & _); discriminate | discriminate]. }
  destruct (first_included RETRYABLE_MESSAGES (message e)) as [p|] eqn:Hloop.
  - cbn [errorType retryable]. split; [split|].
    + intros ->. apply orb_false_iff in Hrate as [_ Hmany].
      apply orb_false_iff in Hservice as [_ Hsvc].
      destruct (retryable_loop_reach _ _ (isBlockhashExpired_false _ Hexp) Hmany Hsvc Hloop);
        discriminate.
    + intros (? & _); discriminate.
    + reflexivity.
  - cbn. split; [split|]; [discriminate | intros (? & _); discriminate | discriminate].
Qed.

End ClassifierFacts.

(** ** Facts about the retry loop *)

Module RetryFacts.
Import Errors Classifier Retry.

Section Loop.
Context {World T : Type}.
Variable now : World -> Z.
Variable random : World -> Q * World.
Variable sleep : Q -> World -> World.
Variable fn : RetryContext -> World -> (T + Thrown) * World.
Variable resolved : RetryConfig (World := World).
Variable startTime : Z.

Lemma attempts_shape (remaining attempt : nat) (lastError : option JsError)
    (w : World) (n : nat) (seen : list JsError) :
  retryPredicate resolved = None ->
  (remaining + attempt = S (maxRetries resolved))%nat ->
  (attempt <= maxRetries resolved)%nat ->
  n = attempt -> length seen = attempt ->
  Forall classifiedRetryable seen ->
  run_shape now resolved startTime (attempts now random sleep fn resolved startTime
               remaining attempt lastError w n seen).
Proof.
  intros Hpred. revert attempt lastError w n seen.
  induction remaining as [|remaining IH];
    intros attempt lastError w n seen Hsum Hle Hn Hlen Hall.
  - lia.
  - cbn [attempts].
    destruct (fn _ w) as [[v|err] w1].
    + unfold run_shape; cbn. repeat split; eauto; lia.
    + destruct (Nat.leb_spec (maxRetries resolved) attempt) as [Hlast|Hmore].
      * unfold run_shape, exhausted; cbn. split; [lia|].
        exists seen, (toError err). rewrite length_app; cbn.
        repeat split; auto; lia.
      * rewrite Hpred.
        destruct (retryable (classifyError (toError err))) eqn:Hc.
        -- assert (Hnext : forall w', run_shape now resolved startTime
             (attempts now random sleep fn resolved startTime remaining (S attempt)
                (Some (toError err)) w' (S n) (seen ++ [toError err]))).
           { intros w'. apply IH; try lia.
             - rewrite length_app; cbn; lia.
             - apply Forall_app; split; auto. }
           destruct (computeDelay random attempt resolved w1) as [delayMs w2].
           destruct (onRetry resolved) as [hook|].
           2: apply Hnext.
           destruct (hook (toError err) attempt delayMs w2) as [[x|] w3].
           2: apply Hnext.
           unfold run_shape; cbn. rewrite length_app; cbn.
           repeat split; eauto; try lia.
           apply Forall_app; split; auto.
        -- unfold run_shape; cbn. split; [lia|].
           exists seen, (toError err). rewrite length_app; cbn.
           unfold classifiedRetryable, nonRetryableError. rewrite Hc, Hlen.
           repeat split; auto; try lia.
Qed.

(** An invariant of the world that the operation, the hook, the random
    source and the timer preserve still holds when the loop ends. *)
Lemma attempts_preserves (I : World -> Prop) :
  (forall ctx w, I w -> I (snd (fn ctx w))) ->
  (forall w, I w -> I (snd (random w))) ->
  (forall ms w, I w -> I (sleep ms w)) ->
  (forall hook, onRetry resolved = Some hook ->
     forall e a ms w, I w -> I (snd (hook e a ms w))) ->
  forall remaining attempt lastError w n seen,
    I w ->
    I (world (attempts now random sleep fn resolved startTime
                remaining attempt lastError w n seen)).
Proof.
  intros Hfn Hrandom Hsleep Hhook.
  induction remaining as [|remaining IH]; intros attempt lastError w n seen Hw.
  - exact Hw.
  - cbn [attempts]. specialize (Hfn {| attempt := attempt;
                                       totalAttempts := (maxRetries resolved + 1)%nat;
                                       elapsed := now w - startTime;
                                       lastError := lastError |} w Hw).
    destruct (fn _ w) as [[v|err] w1]; cbn [snd] in Hfn; [exact Hfn|].
    destruct (maxRetries resolved <=? attempt)%nat; [exact Hfn|].
    destruct (match retryPredicate resolved with Some _ => _ | None => _ end)
      as [[nonRetryable site]|]; [exact Hfn|].
    unfold computeDelay. specialize (Hrandom w1 Hfn).
    destruct (random w1) as [r w2]; cbn [snd] in Hrandom.
    destruct (onRetry resolved) as [hook|] eqn:Hh.
    + specialize (Hhook hook eq_refl (toError err) attempt
                    (r * Qmin (baseDelayMs resolved * backoffMultiplier resolved
                                 ^ Z.of_nat attempt) (maxDelayMs resolved))%Q w2 Hrandom).
      destruct (hook _ _ _ w2) as [[x|] w3]; cbn [snd] in Hhook; [exact Hhook|].
      apply IH, Hsleep, Hhook.
    + apply IH, Hsleep, Hrandom.
Qed.

(** A run resolves with what an invocation of [fn] returned, in the world
    that invocation left, and that invocation started where an invariant
    of the loop still held. *)
Lemma attempts_resolved_from (I : World -> Prop) :
  (forall ctx w, I w -> I (snd (fn ctx w))) ->
  (forall w, I w -> I (snd (random w))) ->
  (forall ms w, I w -> I (sleep ms w)) ->
  (forall hook, onRetry resolved = Some hook ->
     forall e a ms w, I w -> I (snd (hook e a ms w))) ->
  forall remaining attempt lastError w n seen v,
    I w ->
    outcome (attempts now random sleep fn resolved startTime
               remaining attempt lastError w n seen) = Resolved v ->
    exists ctx w0,
      I w0
      /\ fn ctx w0 = (inl v, world (attempts now random sleep fn resolved startTime
                                     remaining attempt lastError w n seen)).
Proof.
  intros Hfn Hrandom Hsleep Hhook.
  induction remaining as [|remaining IH]; intros attempt lastError w n seen v Hw.
  - discriminate.
  - cbn [attempts].
    pose proof (Hfn {| attempt := attempt;
                       totalAttempts := (maxRetries resolved + 1)%nat;
                       elapsed := now w - startTime;
                       lastError := lastError |} w Hw) as Hstep.
    destruct (fn _ w) as [[v'|err] w1] eqn:Hcall; cbn [snd] in Hstep.
    { cbn. intros [= ->]. eauto. }
    destruct (maxRetries resolved <=? attempt)%nat; [discriminate|].
    destruct (match retryPredicate resolved with Some _ => _ | None => _ end)
      as [[nonRetryable site]|]; [discriminate|].
    unfold computeDelay. specialize (Hrandom w1 Hstep).
    destruct (random w1) as [r w2]; cbn [snd] in Hrandom.
    destruct (onRetry resolved) as [hook|] eqn:Hh.
    + specialize (Hhook hook eq_refl (toError err) attempt
                    (r * Qmin (baseDelayMs resolved * backoffMultiplier resolved
                                 ^ Z.of_nat attempt) (maxDelayMs resolved))%Q w2 Hrandom).
      destruct (hook _ _ _ w2) as [[x|] w3]; cbn [snd] in Hhook; [discriminate|].
      apply IH, Hsleep, Hhook.
    + apply IH, Hsleep, Hrandom.
Qed.

(** What the first invocation establishes and the rest of the loop
    preserves holds when the loop ends. *)
Lemma attempts_established (I : World -> Prop) :
  (forall ctx w, I w -> I (snd (fn ctx w))) ->
  (forall w, I w -> I (snd (random w))) ->
  (forall ms w, I w -> I (sleep ms w)) ->
  (forall hook, onRetry resolved = Some hook ->
     forall e a ms w, I w -> I (snd (hook e a ms w))) ->
  forall remaining attempt lastError w n seen,
    (forall ctx, I (snd (fn ctx w))) ->
    I (world (attempts now random sleep fn resolved startTime
                (S remaining) attempt lastError w n seen)).
Proof.
  intros Hfn Hrandom Hsleep Hhook remaining attempt lastError w n seen Hfirst.
  assert (Hnext : forall w' n' seen' lastError',
            I w' ->
            I (world (attempts now random sleep fn resolved startTime
                        remaining (S attempt) lastError' w' n' seen'))).
  { intros. now apply attempts_preserves. }
  cbn [attempts].
  specialize (Hfirst {| attempt := attempt;
                        totalAttempts := (maxRetries resolved + 1)%nat;
                        elapsed := now w - startTime;
                        lastError := lastError |}).
  destruct (fn _ w) as [[v|err] w1]; cbn [snd] in Hfirst; [exact Hfirst|].
  destruct (maxRetries resolved <=? attempt)%nat; [exact Hfirst|].
  destruct (match retryPredicate resolved with Some _ => _ | None => _ end)
    as [[nonRetryable site]|]; [exact Hfirst|].
  unfold computeDelay. pose proof (Hrandom w1 Hfirst) as Hr.
  destruct (random w1) as [r w2]; cbn [snd] in Hr.
  destruct (onRetry resolved) as [hook|] eqn:Hh.
  + pose proof (Hhook hook eq_refl (toError err) attempt
                    (r * Qmin (baseDelayMs resolved * backoffMultiplier resolved
                                 ^ Z.of_nat attempt) (maxDelayMs resolved))%Q w2 Hr) as Hk.
    destruct (hook _ _ _ w2) as [[x|] w3]; cbn [snd] in Hk; [exact Hk|].
    apply Hnext, Hsleep, Hk.
  + apply Hnext, Hsleep, Hr.
Qed.
(** An operation that fails every time, with errors the classifier lets
    through on all attempts but possibly the last, and a hook that does not
    throw: every planned attempt is made and its error caught. *)
Lemma attempts_all_fail (err : nat -> JsError) (remaining attempt : nat)
    (lastError : option JsError) (w : World) (n : nat) (seen : list JsError) :
  retryPredicate resolved = None ->
  (forall ctx w, fst (fn ctx w) = inr (ThrownError (err (Retry.attempt ctx)))) ->
  (forall k, (k < maxRetries resolved)%nat -> classifiedRetryable (err k)) ->
  (forall hook, onRetry resolved = Some hook ->
     forall e a ms w, fst (hook e a ms w) = None) ->
  (remaining + attempt = S (maxRetries resolved))%nat ->
  caught (attempts now random sleep fn resolved startTime
            remaining attempt lastError w n seen)
  = seen ++ List.map err (seq attempt remaining).
Proof.
  intros Hpred Hfn Hretry Hhook. revert attempt lastError w n seen.
  induction remaining as [|remaining IH]; intros attempt lastError w n seen Hsum.
  - cbn. now rewrite app_nil_r.
  - cbn [attempts].
    specialize (Hfn {| attempt := attempt;
                       totalAttempts := (maxRetries resolved + 1)%nat;
                       elapsed := now w - startTime;
                       lastError := lastError |} w).
    destruct (fn _ w) as [[v|x] w1]; cbn [fst Retry.attempt] in Hfn; [discriminate|].
    injection Hfn as ->. cbn [toError].
    destruct (Nat.leb_spec (maxRetries resolved) attempt) as [Hlast|Hmore].
    + assert (remaining = 0%nat) as -> by lia. reflexivity.
    + rewrite Hpred. specialize (Hretry attempt Hmore). unfold classifiedRetryable in Hretry.
      rewrite Hretry.
      assert (Hnext : forall w',
                caught (attempts now random sleep fn resolved startTime remaining
                          (S attempt) (Some (err attempt)) w' (S n) (seen ++ [err attempt]))
                = seen ++ List.map err (seq attempt (S remaining))).
      { intros w'. rewrite IH by lia. rewrite <- app_assoc. reflexivity. }
      destruct (computeDelay random attempt resolved w1) as [delayMs w2].
      destruct (onRetry resolved) as [hook|] eqn:Hh; [|apply Hnext].
      specialize (Hhook hook eq_refl (err attempt) attempt delayMs w2).
      destruct (hook _ _ _ w2) as [[x|] w3]; [discriminate | apply Hnext].
Qed.
(** The last planned attempt: its error is wrapped in RETRIES_EXHAUSTED
    without being classified, and the loop ends that way only there. *)
Lemma attempts_last (remaining attempt : nat) (lastError : option JsError)
    (w : World) (n : nat) (seen : list JsError) :
  (remaining + attempt = S (maxRetries resolved))%nat ->
  (attempt <= maxRetries resolved)%nat ->
  n = attempt -> length seen = attempt ->
  let r := attempts now random sleep fn resolved startTime
             remaining attempt lastError w n seen in
  (length (caught r) <= S (maxRetries resolved))%nat
  /\ (exit r = ExitExhausted <-> length (caught r) = S (maxRetries resolved))
  /\ (length (caught r) = S (maxRetries resolved) ->
      calls r = S (maxRetries resolved)
      /\ exists earlier last,
           caught r = earlier ++ [last]
           /\ outcome r = Rejected (ThrownError
                (retriesExhaustedError (maxRetries resolved)
                   (now (world r) - startTime) last))).
Proof.
  revert attempt lastError w n seen.
  induction remaining as [|remaining IH]; intros attempt lastError w n seen Hsum Hle Hn Hlen.
  - lia.
  - cbn [attempts].
    destruct (fn _ w) as [[v|err] w1].
    + cbn. split; [lia|]. split; [split; [discriminate | lia] | lia].
    + destruct (Nat.leb_spec (maxRetries resolved) attempt) as [Hlast|Hmore].
      * unfold exhausted; cbn [caught exit calls outcome world]. rewrite length_app. cbn [length].
        split; [lia|]. split; [split; [lia | reflexivity]|]. intros _.
        split; [lia|]. exists seen, (toError err). split; reflexivity.
      * assert (Hstop : forall (r : Run (World := World) T),
                  caught r = seen ++ [toError err] -> exit r <> ExitExhausted ->
                  (length (caught r) <= S (maxRetries resolved))%nat
                  /\ (exit r = ExitExhausted <-> length (caught r) = S (maxRetries resolved))
                  /\ (length (caught r) = S (maxRetries resolved) ->
                      calls r = S (maxRetries resolved)
                      /\ exists earlier last,
                           caught r = earlier ++ [last]
                           /\ outcome r = Rejected (ThrownError
                                (retriesExhaustedError (maxRetries resolved)
                                   (now (world r) - startTime) last)))).
        { intros r Hc Hx. rewrite Hc, length_app. cbn [length].
          split; [lia|]. split; [split; [contradiction | lia] | lia]. }
        assert (Hnext : forall w',
                  let r := attempts now random sleep fn resolved startTime remaining
                             (S attempt) (Some (toError err)) w' (S n)
                             (seen ++ [toError err]) in
                  (length (caught r) <= S (maxRetries resolved))%nat
                  /\ (exit r = ExitExhausted <-> length (caught r) = S (maxRetries resolved))
                  /\ (length (caught r) = S (maxRetries resolved) ->
                      calls r = S (maxRetries resolved)
                      /\ exists earlier last,
                           caught r = earlier ++ [last]
                           /\ outcome r = Rejected (ThrownError
                                (retriesExhaustedError (maxRetries resolved)
                                   (now (world r) - startTime) last)))).
        { intros w'. apply IH; try lia. rewrite length_app; cbn; lia. }
        destruct (match retryPredicate resolved with Some _ => _ | None => _ end)
          as [[nonRetryable site]|] eqn:Hverdict.
        { apply Hstop; [reflexivity|]. cbn [exit].
          destruct (retryPredicate resolved) as [predicate|].
          - destruct (predicate (toError err) attempt); [discriminate|].
            injection Hverdict as _ <-. discriminate.
          - destruct (retryable (classifyError (toError err))); [discriminate|].
            injection Hverdict as _ <-. discriminate. }
        destruct (computeDelay random attempt resolved w1) as [delayMs w2].
        destruct (onRetry resolved) as [hook|]; [|apply Hnext].
        destruct (hook (toError err) attempt delayMs w2) as [[x|] w3]; [|apply Hnext].
        apply Hstop; [reflexivity | discriminate].
Qed.

Lemma approved_snoc (predicate : JsError -> nat -> bool) (l : list JsError) (e : JsError) :
  approved predicate l -> predicate e (length l) = true -> approved predicate (l ++ [e]).
Proof.
  intros Hl He k e' Hk.
  destruct (decide (k < length l)%nat) as [Hlt|Hge].
  - rewrite lookup_app_l in Hk by exact Hlt. eauto.
  - rewrite lookup_app_r in Hk by lia.
    destruct (k - length l)%nat as [|j] eqn:Hj; [|destruct j; discriminate].
    injection Hk as <-. assert (k = length l) as -> by lia. exact He.
Qed.

Lemma attempts_custom_shape (predicate : JsError -> nat -> bool)
    (remaining attempt : nat) (lastError : option JsError)
    (w : World) (n : nat) (seen : list JsError) :
  retryPredicate resolved = Some predicate ->
  (remaining + attempt = S (maxRetries resolved))%nat ->
  (attempt <= maxRetries resolved)%nat ->
  n = attempt -> length seen = attempt ->
  approved predicate seen ->
  custom_shape predicate resolved
    (attempts now random sleep fn resolved startTime remaining attempt lastError w n seen).
Proof.
  intros Hpred. revert attempt lastError w n seen.
  induction remaining as [|remaining IH];
    intros attempt lastError w n seen Hsum Hle Hn Hlen Hall.
  - lia.
  - cbn [attempts].
    destruct (fn _ w) as [[v|err] w1].
    + unfold custom_shape; cbn. repeat split; auto; lia.
    + destruct (Nat.leb_spec (maxRetries resolved) attempt) as [Hlast|Hmore].
      * unfold custom_shape, exhausted; cbn. split; [lia|].
        exists seen, (toError err). rewrite length_app; cbn.
        repeat split; auto; lia.
      * rewrite Hpred.
        destruct (predicate (toError err) attempt) eqn:Hp.
        -- assert (Hseen : approved predicate (seen ++ [toError err])).
           { apply approved_snoc; [exact Hall|]. now rewrite Hlen. }
           assert (Hnext : forall w', custom_shape predicate resolved
             (attempts now random sleep fn resolved startTime remaining (S attempt)
                (Some (toError err)) w' (S n) (seen ++ [toError err]))).
           { intros w'. apply IH; try lia; [|exact Hseen].
             rewrite length_app; cbn; lia. }
           destruct (computeDelay random attempt resolved w1) as [delayMs w2].
           destruct (onRetry resolved) as [hook|].
           2: apply Hnext.
           destruct (hook (toError err) attempt delayMs w2) as [[x|] w3].
           2: apply Hnext.
           unfold custom_shape; cbn. rewrite length_app; cbn.
           repeat split; auto; lia.
        -- unfold custom_shape; cbn. split; [lia|].
           exists seen, (toError err). rewrite length_app; cbn.
           rewrite Hlen. repeat split; auto; lia.
Qed.

(** [fn] only ever sees planned contexts. *)
Lemma attempts_contexts (fn' : RetryContext -> World -> (T + Thrown) * World)
    (remaining attempt : nat) (lastError : option JsError)
    (w : World) (n : nat) (seen : list JsError) :
  (forall ctx w, planned_context resolved ctx -> fn ctx w = fn' ctx w) ->
  (remaining + attempt = S (maxRetries resolved))%nat ->
  (attempt <= maxRetries resolved)%nat ->
  (lastError = None <-> attempt = 0%nat) ->
  attempts now random sleep fn resolved startTime remaining attempt lastError w n seen
  = attempts now random sleep fn' resolved startTime remaining attempt lastError w n seen.
Proof.
  intros Hext. revert attempt lastError w n seen.
  induction remaining as [|remaining IH]; intros attempt lastError w n seen Hsum Hle Hlast.
  - reflexivity.
  - cbn [attempts]. rewrite <- Hext by (repeat split; cbn; tauto || lia).
    destruct (fn _ w) as [[v|err] w1]; [reflexivity|].
    destruct (Nat.leb_spec (maxRetries resolved) attempt) as [Hend|Hmore]; [reflexivity|].
    assert (Hnext : forall w' n' seen',
      attempts now random sleep fn resolved startTime remaining (S attempt)
        (Some (toError err)) w' n' seen'
      = attempts now random sleep fn' resolved startTime remaining (S attempt)
        (Some (toError err)) w' n' seen').
    { intros. apply IH; [lia | lia | split; [discriminate | lia]]. }
    destruct (match retryPredicate resolved with Some _ => _ | None => _ end)
      as [[nonRetryable site]|]; [reflexivity|].
    destruct (computeDelay random attempt resolved w1) as [delayMs w2].
    destruct (onRetry resolved) as [hook|]; [|apply Hnext].
    destruct (hook (toError err) attempt delayMs w2) as [[x|] w3]; [reflexivity | apply Hnext].
Qed.

(** A run resolves only with what the last invocation of [fn] returned. *)
Lemma attempts_resolved (remaining attempt : nat) (lastError : option JsError)
    (w : World) (n : nat) (seen : list JsError) (v : T) :
  (remaining + attempt = S (maxRetries resolved))%nat ->
  (attempt <= maxRetries resolved)%nat ->
  n = attempt ->
  let r := attempts now random sleep fn resolved startTime
             remaining attempt lastError w n seen in
  outcome r = Resolved v ->
  exists ctx w0,
    fn ctx w0 = (inl v, world r)
    /\ calls r = S (Retry.attempt ctx)
    /\ (Retry.attempt ctx <= maxRetries resolved)%nat
    /\ totalAttempts ctx = (maxRetries resolved + 1)%nat
    /\ exit r = ExitReturn.
Proof.
  revert attempt lastError w n seen.
  induction remaining as [|remaining IH]; intros attempt lastError w n seen Hsum Hle Hn.
  - lia.
  - cbn [attempts].
    destruct (fn _ w) as [[v'|err] w1] eqn:Hfn.
    + cbn. intros [= ->]. eexists _, w. split; [exact Hfn|]. cbn. repeat split; auto; lia.
    + destruct (Nat.leb_spec (maxRetries resolved) attempt) as [Hend|Hmore];
        [cbn; discriminate|].
      destruct (match retryPredicate resolved with Some _ => _ | None => _ end)
        as [[nonRetryable site]|]; [cbn; discriminate|].
      destruct (computeDelay random attempt resolved w1) as [delayMs w2].
      destruct (onRetry resolved) as [hook|].
      * destruct (hook (toError err) attempt delayMs w2) as [[x|] w3]; [cbn; discriminate|].
        apply IH; lia.
      * apply IH; lia.
Qed.

End Loop.

Section WithRetry.
Context {World T : Type}.
Variable now : World -> Z.
Variable random : World -> Q * World.
Variable sleep : Q -> World -> World.
Variable fn : RetryContext -> World -> (T + Thrown) * World.
Variable config : option (PartialRetryConfig (World := World)).
Variable w : World.

Lemma withRetry_shape :
  retryPredicate (resolve config) = None ->
  run_shape now (resolve config) (now w) (withRetry now random sleep fn config w).
Proof.
  intros Hpred. unfold withRetry.
  apply attempts_shape; auto; lia.
Qed.

(** C1 (amended).  Without a custom [retryPredicate], [withRetry] invokes
    [fn] at most [maxRetries + 1] times.  If invocation number [k] (counted
    from 0) is not the last planned one ([k < maxRetries]) and throws an
    error the classifier calls non-retryable, NON_RETRYABLE wrapping that
    error is raised at once and [fn] has been invoked exactly [k + 1] times;
    a non-retryable failure of the first invocation means exactly one
    invocation.  RETRIES_EXHAUSTED is raised only after all
    [maxRetries + 1] invocations failed, wraps the last error, and every
    error before the last was classified retryable.  The error of the last
    planned attempt (invocation number [maxRetries]) is not classified:
    whatever the classifier would say of it, it is wrapped in
    RETRIES_EXHAUSTED after exactly [maxRetries + 1] invocations.  The loop
    ends that way exactly when all planned attempts failed, and a rejection
    that does not come from the hook carries the code RETRIES_EXHAUSTED
    exactly then.  In terms of the operation alone: if [fn] throws [err k]
    at attempt [k], the classifier lets [err k] through for [k < maxRetries]
    and the hook does not throw, then [fn] is invoked [maxRetries + 1] times
    and RETRIES_EXHAUSTED wrapping [err maxRetries] is raised, whatever the
    classifier says of [err maxRetries]. *)
Theorem withRetry_attempt_budget :
  retryPredicate (resolve config) = None ->
  let r := withRetry now random sleep fn config w in
  let maxRetries := maxRetries (resolve config) in
  (calls r <= maxRetries + 1)%nat
  /\ (forall (k : nat) (e : JsError),
        caught r !! k = Some e -> (k < maxRetries)%nat -> ~ classifiedRetryable e ->
        exit r = ExitClassifier
        /\ outcome r = Rejected (ThrownError (nonRetryableError e k))
        /\ calls r = S k)
  /\ (forall e : JsError,
        caught r !! 0%nat = Some e -> ~ classifiedRetryable e -> calls r = 1%nat)
  /\ (exit r = ExitExhausted ->
        calls r = (maxRetries + 1)%nat
        /\ exists earlier last,
             caught r = earlier ++ [last]
             /\ length earlier = maxRetries
             /\ Forall classifiedRetryable earlier
             /\ outcome r = Rejected (ThrownError
                  (retriesExhaustedError maxRetries (now (world r) - now w) last)))
  /\ (forall e : JsError,
        caught r !! maxRetries = Some e ->
        exit r = ExitExhausted
        /\ calls r = (maxRetries + 1)%nat
        /\ outcome r = Rejected (ThrownError
             (retriesExhaustedError maxRetries (now (world r) - now w) e)))
  /\ (exit r = ExitExhausted <-> length (caught r) = (maxRetries + 1)%nat)
  /\ (forall x : Thrown,
        outcome r = Rejected x -> exit r <> ExitHook ->
        (code (toError x) = Some "RETRIES_EXHAUSTED"
         <-> length (caught r) = (maxRetries + 1)%nat))
  /\ (forall err : nat -> JsError,
        (forall ctx w', fst (fn ctx w') = inr (ThrownError (err (attempt ctx)))) ->
        (forall k, (k < maxRetries)%nat -> classifiedRetryable (err k)) ->
        (forall hook, onRetry (resolve config) = Some hook ->
           forall e a ms w', fst (hook e a ms w') = None) ->
        calls r = (maxRetries + 1)%nat
        /\ outcome r = Rejected (ThrownError
             (retriesExhaustedError maxRetries (now (world r) - now w) (err maxRetries)))).
Proof.
  intros Hpred r maxRetries.
  pose proof (withRetry_shape Hpred) as [Hbound Hshape].
  fold r in Hbound, Hshape. fold maxRetries in Hbound, Hshape.
  assert (Hkth : forall (k : nat) (e : JsError),
            caught r !! k = Some e -> ~ classifiedRetryable e ->
            (exit r = ExitClassifier
             /\ outcome r = Rejected (ThrownError (nonRetryableError e k))
             /\ calls r = S k /\ (k < maxRetries)%nat)
            \/ (exit r = ExitExhausted /\ k = maxRetries /\ calls r = S k)).
  { intros k e Hk Hno.
    assert (Hin : forall l : list JsError,
              Forall classifiedRetryable l -> l !! k = Some e -> False).
    { intros l Hl Hlk. rewrite Forall_forall in Hl.
      apply Hno, Hl. apply list_elem_of_lookup. eauto. }
    destruct (exit r) eqn:Hexit.
    - destruct Hshape as (_ & _ & Hall). exfalso; eauto.
    - contradiction.
    - destruct Hshape as (earlier & e' & Hcaught & Hall & Hne & Hlt & Hcalls & Hout).
      rewrite Hcaught in Hk.
      destruct (decide (k < length earlier)%nat) as [Hk'|Hk'].
      + rewrite lookup_app_l in Hk by exact Hk'. exfalso; eauto.
      + rewrite lookup_app_r in Hk by lia.
        destruct (k - length earlier)%nat as [|j] eqn:Hj; [|destruct j; discriminate].
        injection Hk as ->.
        assert (k = length earlier) as -> by (apply lookup_lt_Some in Hexit || lia).
        left. rewrite Hcalls, Hcaught, length_app. cbn [length].
        repeat split; auto; lia.
    - destruct Hshape as (_ & Hall & _). exfalso; eauto.
    - destruct Hshape as (earlier & e' & Hcaught & Hall & Hlen & Hcalls & Hout).
      rewrite Hcaught in Hk.
      destruct (decide (k < length earlier)%nat) as [Hk'|Hk'].
      + rewrite lookup_app_l in Hk by exact Hk'. exfalso; eauto.
      + rewrite lookup_app_r in Hk by lia.
        destruct (k - length earlier)%nat as [|j] eqn:Hj; [|destruct j; discriminate].
        right. rewrite Hcalls, Hcaught, length_app. cbn [length].
        repeat split; auto; lia. }
  destruct (attempts_last now random sleep fn (resolve config) (now w)
              (S maxRetries) 0 None w 0 []) as (Hmost & Hiff & Hall);
    [lia | lia | reflexivity | reflexivity |].
  change (attempts now random sleep fn (resolve config) (now w)
            (S maxRetries) 0 None w 0 []) with r in Hmost, Hiff, Hall.
  assert (Hlast : forall e : JsError,
            caught r !! maxRetries = Some e ->
            exit r = ExitExhausted
            /\ calls r = (maxRetries + 1)%nat
            /\ outcome r = Rejected (ThrownError
                 (retriesExhaustedError maxRetries (now (world r) - now w) e))).
  { intros e He.
    assert (Hfull : length (caught r) = S maxRetries).
    { apply lookup_lt_Some in He. lia. }
    destruct (Hall Hfull) as (Hcalls & earlier & last & Hcaught & Hout).
    split; [now apply Hiff|]. split; [lia|].
    rewrite Hcaught, length_app in Hfull. cbn [length] in Hfull.
    rewrite Hcaught, lookup_app_r in He by lia.
    replace (maxRetries - length earlier)%nat with 0%nat in He by lia.
    injection He as <-. exact Hout. }
  split; [lia|]. split; [|split; [|split; [|split; [|split; [|split]]]]].
  - intros k e Hk Hlt Hno.
    destruct (Hkth k e Hk Hno) as [(? & ? & ? & _)|(_ & -> & _)]; [auto | lia].
  - intros e H0 Hno.
    destruct (Hkth 0%nat e H0 Hno) as [(_ & _ & ? & _)|(_ & _ & ?)]; auto.
  - intros Hexit. rewrite Hexit in Hshape.
    destruct Hshape as (earlier & last & Hcaught & Hret & Hlen & Hcalls & Hout).
    split.
    + rewrite Hcalls, Hcaught, length_app. cbn [length]. lia.
    + exists earlier, last. auto.
  - exact Hlast.
  - replace (maxRetries + 1)%nat with (S maxRetries) by lia. exact Hiff.
  - intros x Hout Hhook.
    replace (maxRetries + 1)%nat with (S maxRetries) by lia.
    transitivity (exit r = ExitExhausted); [|exact Hiff].
    destruct (exit r) eqn:Hexit.
    + destruct Hshape as ((v & Hv) & _). congruence.
    + contradiction.
    + destruct Hshape as (earlier & e & _ & _ & _ & _ & _ & Hrej).
      rewrite Hrej in Hout. injection Hout as <-. cbn. split; discriminate.
    + contradiction.
    + destruct Hshape as (earlier & e & _ & _ & _ & _ & Hrej).
      rewrite Hrej in Hout. injection Hout as <-. cbn. split; reflexivity.
  - intros err Hfn Hretry Hhook.
    pose proof (attempts_all_fail now random sleep fn (resolve config) (now w) err
                  (S maxRetries) 0 None w 0 [] Hpred Hfn Hretry Hhook ltac:(lia))
      as Hcaught.
    change (attempts now random sleep fn (resolve config) (now w)
              (S maxRetries) 0 None w 0 []) with r in Hcaught.
    destruct (Hlast (err maxRetries)) as (_ & Hcalls & Hout); [|auto].
    rewrite Hcaught. cbn [app]. rewrite list_lookup_fmap, lookup_seq_lt by lia.
    reflexivity.
Qed.

End WithRetry.

(** Three runs through the theorem: an invocation that fails for lack of
    funds with three retries left ends after one call with NON_RETRYABLE;
    an operation whose node stays behind uses its two retries and ends with
    RETRIES_EXHAUSTED after three calls; and when the third of three
    planned attempts fails for lack of funds, that error is not classified
    but wrapped in RETRIES_EXHAUSTED. *)
Lemma withRetry_attempt_budget_witness :
  (calls (insufficient_funds_run 3) <= 3 + 1)%nat
  /\ exit (insufficient_funds_run 3) = ExitClassifier
  /\ calls (insufficient_funds_run 3) = 1%nat
  /\ exit (node_behind_run 2) = ExitExhausted
  /\ calls (node_behind_run 2) = 3%nat
  /\ ~ classifiedRetryable insufficient_funds
  /\ calls (behind_then_broke_run 2) = 3%nat
  /\ outcome (behind_then_broke_run 2)
     = Rejected (ThrownError (retriesExhaustedError 2 0 insufficient_funds)).
Proof.
  pose proof (withRetry_attempt_budget frozen_now no_jitter no_sleep
                always_insufficient_funds (only_maxRetries 3) tt eq_refl)
    as (Hbound & Hkth & Hfirst & _).
  pose proof (withRetry_attempt_budget frozen_now no_jitter no_sleep
                always_node_behind (only_maxRetries 2) tt eq_refl)
    as (_ & _ & _ & _ & Hlast & _).
  pose proof (withRetry_attempt_budget frozen_now no_jitter no_sleep
                (failing behind_then_broke) (only_maxRetries 2) tt eq_refl)
    as (_ & _ & _ & _ & _ & _ & _ & Hfail).
  split; [exact Hbound|].
  assert (Hno : ~ classifiedRetryable insufficient_funds) by (vm_compute; discriminate).
  split.
  { apply (Hkth 0%nat insufficient_funds); [reflexivity | vm_compute; lia | exact Hno]. }
  split; [apply (Hfirst insufficient_funds); [reflexivity | exact Hno]|].
  destruct (Hlast node_behind) as (Hexit & Hcalls & _); [reflexivity|].
  split; [exact Hexit|]. split; [exact Hcalls|]. split; [exact Hno|].
  apply (Hfail behind_then_broke).
  - intros ctx w'. reflexivity.
  - intros k Hk. cbn in Hk.
    assert (k = 0 \/ k = 1)%nat as [-> | ->] by lia; vm_compute; reflexivity.
  - intros hook Hhook. discriminate.
Defined.

(** C1 as stated fails: with [maxRetries = 0] the only planned attempt is
    the last one, its error is never classified, and an error the
    classifier calls non-retryable is wrapped in RETRIES_EXHAUSTED. *)
Lemma withRetry_exhausted_with_non_retryable_error :
  exit (insufficient_funds_run 0) = ExitExhausted
  /\ outcome (insufficient_funds_run 0) =
       Rejected (ThrownError (retriesExhaustedError 0 0 insufficient_funds))
  /\ caught (insufficient_funds_run 0) = [insufficient_funds]
  /\ calls (insufficient_funds_run 0) = 1%nat
  /\ retryable (classifyError insufficient_funds) = false
  /\ ~ Forall classifiedRetryable (caught (insufficient_funds_run 0)).
Proof.
  repeat split; try reflexivity.
  intros H. apply Forall_inv in H. vm_compute in H. discriminate.
Qed.

(** *** The delay, the custom predicate, the contexts *)

Section Delay.
Context {World : Type}.
Variable random : World -> Q * World.

(** X3.  Full jitter: with [Math.random()] in [[0, 1)] and a configuration
    without negative numbers, the delay is not negative and stays below
    both the cap [maxDelayMs] and the exponential
    [baseDelayMs * backoffMultiplier ^ attempt]; computing it only draws
    the random number. *)
Theorem computeDelay_bounds (attempt : nat) (config : RetryConfig (World := World))
    (w : World) :
  (0 <= fst (random w))%Q -> (fst (random w) < 1)%Q ->
  (0 <= baseDelayMs config)%Q -> (0 <= backoffMultiplier config)%Q ->
  (0 <= maxDelayMs config)%Q ->
  let delayMs := fst (computeDelay random attempt config w) in
  (0 <= delayMs)%Q
  /\ (delayMs <= maxDelayMs config)%Q
  /\ (delayMs <= baseDelayMs config * backoffMultiplier config ^ Z.of_nat attempt)%Q
  /\ snd (computeDelay random attempt config w) = snd (random w).
Proof.
  intros Hr0 Hr1 Hbase Hmult Hmax. unfold computeDelay.
  destruct (random w) as [r w']. cbn [fst snd] in *.
  set (exponential := (baseDelayMs config * backoffMultiplier config ^ Z.of_nat attempt)%Q).
  assert (Hexp : (0 <= exponential)%Q).
  { unfold exponential. apply Qmult_le_0_compat; [exact Hbase|]. now apply Qpower_0_le. }
  assert (Hcap : (0 <= Qmin exponential (maxDelayMs config))%Q) by now apply Q.min_glb.
  pose proof (Q.le_min_l exponential (maxDelayMs config)) as Hl.
  pose proof (Q.le_min_r exponential (maxDelayMs config)) as Hrr.
  set (capped := Qmin exponential (maxDelayMs config)) in *.
  assert (Hle : (r * capped <= capped)%Q) by nra.
  repeat split; [nra | lra | lra].
Qed.
End Delay.

Section WithRetryMore.
Context {World T : Type}.
Variable now : World -> Z.
Variable random : World -> Q * World.
Variable sleep : Q -> World -> World.
Variable fn : RetryContext -> World -> (T + Thrown) * World.
Variable config : option (PartialRetryConfig (World := World)).
Variable w : World.

(** X4.  With a custom [retryPredicate] the classifier is never consulted:
    [fn] is invoked at most [maxRetries + 1] times, every error that was
    followed by another attempt had been approved by the predicate (called
    with the error and the number of the attempt), and the first error
    before the last planned attempt that the predicate refuses ends the
    run at once with NON_RETRYABLE "(custom predicate)" wrapping it. *)
Theorem withRetry_custom_predicate (predicate : JsError -> nat -> bool) :
  retryPredicate (resolve config) = Some predicate ->
  let r := withRetry now random sleep fn config w in
  let maxRetries := maxRetries (resolve config) in
  (calls r <= maxRetries + 1)%nat
  /\ exit r <> ExitClassifier
  /\ (forall (k : nat) (e : JsError),
        caught r !! k = Some e -> (S k < calls r)%nat -> predicate e k = true)
  /\ (forall (k : nat) (e : JsError),
        caught r !! k = Some e -> (k < maxRetries)%nat -> predicate e k = false ->
        exit r = ExitPredicate
        /\ outcome r = Rejected (ThrownError (customNonRetryableError e k))
        /\ calls r = S k).
Proof.
  intros Hpred r maxRetries.
  assert (Hshape : custom_shape predicate (resolve config) r).
  { unfold r, withRetry. apply attempts_custom_shape; auto; try lia.
    intros k e Hk. discriminate. }
  destruct Hshape as [Hbound Hshape]. fold maxRetries in Hbound, Hshape.
  assert (Hlast : forall (earlier : list JsError) (e0 e : JsError) (k : nat),
            (earlier ++ [e0]) !! k = Some e ->
            (k < length earlier)%nat /\ earlier !! k = Some e
            \/ k = length earlier /\ e = e0).
  { intros earlier e0 e k Hk.
    destruct (decide (k < length earlier)%nat) as [Hlt|Hge].
    - rewrite lookup_app_l in Hk by exact Hlt. now left.
    - rewrite lookup_app_r in Hk by lia.
      destruct (k - length earlier)%nat as [|j] eqn:Hj; [|destruct j; discriminate].
      injection Hk as ->. right. split; [lia | reflexivity]. }
  split; [lia|]. split; [|split].
  - intros Hexit. now rewrite Hexit in Hshape.
  - intros k e Hk Hlt. destruct (exit r).
    + destruct Hshape as [_ Hall]. eauto.
    + destruct Hshape as (earlier & e0 & Hcaught & Hall & _ & _ & Hcalls & _).
      rewrite Hcaught in Hk, Hcalls. rewrite length_app in Hcalls. cbn [length] in Hcalls.
      destruct (Hlast _ _ _ _ Hk) as [[_ Hin]|[-> _]]; [eauto | lia].
    + contradiction.
    + destruct Hshape as [Hall _]. eauto.
    + destruct Hshape as (earlier & e0 & Hcaught & Hall & _ & Hcalls).
      rewrite Hcaught in Hk, Hcalls. rewrite length_app in Hcalls. cbn [length] in Hcalls.
      destruct (Hlast _ _ _ _ Hk) as [[_ Hin]|[-> _]]; [eauto | lia].
  - intros k e Hk Hlt Hno.
    assert (Hin : forall l : list JsError, approved predicate l -> l !! k = Some e -> False).
    { intros l Hl Hlk. specialize (Hl k e Hlk). congruence. }
    destruct (exit r).
    + destruct Hshape as [_ Hall]. exfalso; eauto.
    + destruct Hshape as (earlier & e0 & Hcaught & Hall & Hp & Hlen & Hcalls & Hout).
      rewrite Hcaught in Hk, Hcalls. rewrite length_app in Hcalls. cbn [length] in Hcalls.
      destruct (Hlast _ _ _ _ Hk) as [[_ Hin']|[-> ->]]; [exfalso; eauto|].
      repeat split; auto; lia.
    + contradiction.
    + destruct Hshape as [Hall _]. exfalso; eauto.
    + destruct Hshape as (earlier & e0 & Hcaught & Hall & Hlen & Hcalls).
      rewrite Hcaught in Hk.
      destruct (Hlast _ _ _ _ Hk) as [[_ Hin']|[-> _]]; [exfalso; eauto | lia].
Qed.

(** X5.  [fn] only ever sees the contexts of the plan: attempt numbers up
    to [maxRetries], [totalAttempts = maxRetries + 1], and a [lastError]
    on every attempt but the first.  What [fn] would do with any other
    context does not matter to the run. *)
Theorem withRetry_planned_contexts
    (fn' : RetryContext -> World -> (T + Thrown) * World) :
  (forall ctx w, planned_context (resolve config) ctx -> fn ctx w = fn' ctx w) ->
  withRetry now random sleep fn config w = withRetry now random sleep fn' config w.
Proof.
  intros Hext. unfold withRetry. apply attempts_contexts; [exact Hext | lia | lia | tauto].
Qed.

(** X6.  A run resolves only by the [return] inside the loop: the value is
    what an invocation of [fn] returned, the world is the one that
    invocation left, and [fn] was invoked once more than the attempt number
    of that invocation. *)
Theorem withRetry_resolved_value (v : T) :
  let r := withRetry now random sleep fn config w in
  outcome r = Resolved v ->
  exit r = ExitReturn
  /\ exists ctx w0,
       fn ctx w0 = (inl v, world r)
       /\ calls r = S (attempt ctx)
       /\ (attempt ctx <= maxRetries (resolve config))%nat
       /\ totalAttempts ctx = (maxRetries (resolve config) + 1)%nat.
Proof.
  intros r Hout.
  destruct (attempts_resolved now random sleep fn (resolve config) (now w)
              (S (maxRetries (resolve config))) 0 None w 0 [] v) as (ctx & w0 & H);
    [lia | lia | reflexivity | exact Hout |].
  destruct H as (Hfn & Hcalls & Hle & Htotal & Hexit).
  split; [exact Hexit|]. exists ctx, w0. auto.
Qed.

End WithRetryMore.

(** The third attempt under the defaults with a random number of one half:
    half of [min(500 * 2^2, 10000)]. *)
Lemma computeDelay_bounds_witness :
  (0 <= fst (computeDelay half_jitter 2 (resolve None) tt))%Q
  /\ (fst (computeDelay half_jitter 2 (resolve None) tt) <= 10000)%Q
  /\ (fst (computeDelay half_jitter 2 (resolve None) tt) <= 500 * 2 ^ 2)%Q
  /\ (fst (computeDelay half_jitter 2 (resolve None) tt) == 1000)%Q.
Proof.
  destruct (computeDelay_bounds half_jitter 2 (resolve None) tt) as (H0 & Hcap & Hexp & _);
    try solve [vm_compute; discriminate | reflexivity].
  split; [exact H0|]. split; [exact Hcap|]. split; [exact Hexp|]. reflexivity.
Defined.

(** A caller who allows one retry: the node stays behind, the second
    failure is refused by the predicate, and the run ends after two calls. *)
Lemma withRetry_custom_predicate_witness :
  exit (withRetry frozen_now no_jitter no_sleep always_node_behind one_retry_only tt)
  = ExitPredicate
  /\ outcome (withRetry frozen_now no_jitter no_sleep always_node_behind one_retry_only tt)
     = Rejected (ThrownError (customNonRetryableError node_behind 1))
  /\ calls (withRetry frozen_now no_jitter no_sleep always_node_behind one_retry_only tt)
     = 2%nat.
Proof.
  destruct (withRetry_custom_predicate frozen_now no_jitter no_sleep always_node_behind
              one_retry_only tt (fun _ attempt => (attempt <? 1)%nat) eq_refl)
    as (_ & _ & _ & Hrefused).
  apply (Hrefused 1%nat node_behind); [reflexivity | vm_compute; lia | reflexivity].
Defined.

(** An operation that would return on an unplanned context never gets one. *)
Lemma withRetry_planned_contexts_witness :
  withRetry frozen_now no_jitter no_sleep failing_as_planned (only_maxRetries 2) tt
  = node_behind_run 2.
Proof.
  apply withRetry_planned_contexts.
  intros ctx w (Hattempt & Htotal & _). unfold failing_as_planned, always_node_behind.
  cbn in Hattempt, Htotal.
  rewrite bool_decide_eq_true_2 by exact Hattempt.
  rewrite bool_decide_eq_true_2 by exact Htotal. reflexivity.
Defined.

(** An operation that recovers at its third attempt, run with a predicate
    that approves every retry: the value comes from the invocation with
    attempt number 2 of the 4 planned. *)
Lemma withRetry_resolved_value_witness :
  exists ctx : RetryContext,
    recovering ctx tt = (inl 2%nat, tt)
    /\ attempt ctx = 2%nat
    /\ totalAttempts ctx = 4%nat.
Proof.
  pose (approving := Some {| p_maxRetries := Some 3%nat; p_baseDelayMs := None;
                             p_maxDelayMs := None; p_backoffMultiplier := None;
                             p_retryPredicate := Some (fun _ _ => true);
                             p_onRetry := None |} : option (@PartialRetryConfig unit)).
  destruct (withRetry_resolved_value frozen_now no_jitter no_sleep recovering approving tt
              2%nat eq_refl) as (_ & ctx & [] & Hfn & Hcalls & _ & Htotal).
  exists ctx. split; [exact Hfn|]. split; [|exact Htotal].
  assert (H3 : S (attempt ctx) = 3%nat) by (rewrite <- Hcalls; reflexivity).
  now injection H3.
Defined.

End RetryFacts.

(** ** Facts about the circuit breaker *)

Module BreakerFacts.
Import Breaker.

Lemma recordFailure_config (now : Z) (b : CircuitBreaker) :
  config (recordFailure now b) = config b.
Proof. unfold recordFailure. repeat case_match; reflexivity. Qed.

Lemma recordFailure_not_half_open (now : Z) (b : CircuitBreaker) :
  state (recordFailure now b) <> HALF_OPEN.
Proof.
  unfold recordFailure. destruct (decide (state b = HALF_OPEN)); [cbn; discriminate|].
  case_match; cbn; [discriminate | assumption].
Qed.

Lemma inside_le_length (lo width : Z) (l : list Z) :
  (inside lo width l <= length l)%nat.
Proof. unfold inside. apply List.filter_length_le. Qed.

(** Pruning at a time in the window keeps every timestamp of the window. *)
Lemma prune_keeps_window (lo width now : Z) (l : list Z) :
  in_window lo width now = true ->
  let pruned := List.filter (fun t => now - t <? width) l in
  (inside lo width l <= inside lo width pruned)%nat.
Proof.
  unfold inside, in_window. intros Hnow. cbn zeta.
  induction l as [|x l IH]; cbn; [lia|].
  destruct (now - x <? width) eqn:Hx; cbn;
    destruct ((lo <=? x) && (x <? lo + width)) eqn:Hw; cbn; lia.
Qed.

(** A failure recorded on a breaker that is not half-open, at a time inside
    the window, is added to the failures of that window, and opens the
    breaker as soon as the list reaches the threshold. *)
Lemma recordFailure_in_window (lo width now : Z) (b : CircuitBreaker) :
  width = windowMs (config b) ->
  state b <> HALF_OPEN ->
  in_window lo width now = true ->
  (S (inside lo width (failures b)) <= inside lo width (failures (recordFailure now b)))%nat
  /\ (failureThreshold (config b) <= Z.of_nat (S (inside lo width (failures b))) ->
      state (recordFailure now b) = OPEN /\ lastOpenedAt (recordFailure now b) = now).
Proof.
  intros -> Hs Hnow. unfold recordFailure.
  destruct (decide (state b = HALF_OPEN)); [contradiction|].
  set (pruned := List.filter _ (failures b)).
  assert (Hk : (inside lo (windowMs (config b)) (failures b)
                <= inside lo (windowMs (config b)) pruned)%nat)
    by now apply prune_keeps_window.
  assert (Hp : inside lo (windowMs (config b)) (pruned ++ [now])
               = S (inside lo (windowMs (config b)) pruned)).
  { unfold inside. rewrite List.filter_app, length_app. cbn. rewrite Hnow. cbn. lia. }
  pose proof (inside_le_length lo (windowMs (config b)) (pruned ++ [now])) as Hl.
  destruct (Z.leb_spec (failureThreshold (config b)) (Z.of_nat (length (pruned ++ [now]))));
    cbn [failures state lastOpenedAt]; split; try lia; auto.
Qed.

Lemma recordFailures_snoc (times : list Z) (t : Z) (b : CircuitBreaker) :
  recordFailures (times ++ [t]) b = recordFailure t (recordFailures times b).
Proof. unfold recordFailures. now rewrite fold_left_app. Qed.

Lemma recordFailures_in_window (lo width : Z) (times : list Z) (b : CircuitBreaker) :
  width = windowMs (config b) ->
  state b <> HALF_OPEN ->
  Forall (fun t => in_window lo width t = true) times ->
  let b' := recordFailures times b in
  config b' = config b
  /\ state b' <> HALF_OPEN
  /\ (inside lo width (failures b) + length times <= inside lo width (failures b'))%nat
  /\ (times <> [] ->
      failureThreshold (config b) <= Z.of_nat (inside lo width (failures b) + length times) ->
      state b' = OPEN).
Proof.
  intros Hw Hs. induction times as [|t times IH] using rev_ind; intros Hall.
  - cbn. repeat split; auto; try lia. congruence.
  - apply Forall_app in Hall as [Hall Ht]. apply Forall_inv in Ht.
    destruct (IH Hall) as (Hc & Hs' & Hcount & _).
    cbn zeta. rewrite recordFailures_snoc, length_app. cbn [length].
    set (b1 := recordFailures times b) in *.
    destruct (recordFailure_in_window lo width t b1) as [Hin Hopen]; auto; [congruence|].
    repeat split.
    + now rewrite recordFailure_config.
    + apply recordFailure_not_half_open.
    + lia.
    + intros _ Hth. apply Hopen. rewrite Hc. lia.
Qed.

(** A failure recorded on a closed breaker: the failures older than the
    window are dropped, the new one is added, and the breaker opens exactly
    when what is left reaches the threshold. *)
Lemma recordFailure_closed (now : Z) (b : CircuitBreaker) :
  state b = CLOSED ->
  let pruned := List.filter (fun t => now - t <? windowMs (config b)) (failures b) in
  failures (recordFailure now b) = pruned ++ [now]
  /\ (Z.of_nat (length pruned) + 1 < failureThreshold (config b) ->
      state (recordFailure now b) = CLOSED
      /\ lastOpenedAt (recordFailure now b) = lastOpenedAt b)
  /\ (failureThreshold (config b) <= Z.of_nat (length pruned) + 1 ->
      state (recordFailure now b) = OPEN /\ lastOpenedAt (recordFailure now b) = now).
Proof.
  intros Hs pruned. unfold recordFailure.
  destruct (decide (state b = HALF_OPEN)); [congruence|]. fold pruned.
  rewrite length_app. cbn [length].
  destruct (Z.leb_spec (failureThreshold (config b)) (Z.of_nat (length pruned + 1)));
    cbn [failures state lastOpenedAt]; (split; [reflexivity|]); split; intros; auto; lia.
Qed.

(** Fewer failures than the threshold never open a closed breaker. *)
Lemma recordFailures_few (times : list Z) (b : CircuitBreaker) :
  state b = CLOSED ->
  Z.of_nat (length (failures b) + length times) < failureThreshold (config b) ->
  let b' := recordFailures times b in
  config b' = config b /\ state b' = CLOSED
  /\ (length (failures b') <= length (failures b) + length times)%nat.
Proof.
  intros Hs. induction times as [|t times IH] using rev_ind; intros Hfew.
  - cbn. repeat split; auto. lia.
  - rewrite length_app in Hfew. cbn [length] in Hfew.
    destruct IH as (Hc & Hclosed & Hlen); [lia|].
    cbn zeta. rewrite recordFailures_snoc, length_app. cbn [length].
    set (b1 := recordFailures times b) in *.
    destruct (recordFailure_closed t b1 Hclosed) as (Hf & Hstay & _).
    pose proof (List.filter_length_le (fun t0 => t - t0 <? windowMs (config b1))
                  (failures b1)) as Hp.
    split; [now rewrite recordFailure_config|].
    split; [apply Hstay; rewrite Hc in Hp; rewrite Hc; lia|].
    rewrite Hf, length_app. cbn [length]. lia.
Qed.

(** Failures that lie a window apart never accumulate. *)
Lemma recordFailures_spaced (times : list Z) (b : CircuitBreaker) :
  2 <= failureThreshold (config b) ->
  state b = CLOSED -> failures b = [] ->
  spaced (windowMs (config b)) times ->
  let b' := recordFailures times b in
  config b' = config b /\ state b' = CLOSED
  /\ failures b' = match last times with Some t => [t] | None => [] end.
Proof.
  intros Hthreshold Hstate Hfail.
  induction times as [|t times IH] using rev_ind; intros Hspaced.
  - cbn. rewrite Hfail. auto.
  - rewrite recordFailures_snoc, last_snoc.
    destruct IH as (Hconfig & Hclosed & Hfailures).
    { intros i a b0 Ha Hb. apply (Hspaced i a b0).
      - rewrite lookup_app_l; [exact Ha | now apply lookup_lt_Some in Ha].
      - rewrite lookup_app_l; [exact Hb | now apply lookup_lt_Some in Hb]. }
    set (b1 := recordFailures times b) in *.
    assert (Hpruned : List.filter (fun t0 => t - t0 <? windowMs (config b1)) (failures b1) = []).
    { rewrite Hfailures. destruct (last times) as [t0|] eqn:Hlast; [|reflexivity].
      cbn [List.filter].
      assert (Hgap : windowMs (config b) <= t - t0).
      { apply (Hspaced (length times - 1)%nat).
        - rewrite lookup_app_l.
          + rewrite last_lookup in Hlast. now replace (length times - 1)%nat
              with (Nat.pred (length times)) by lia.
          + destruct times; [discriminate | cbn; lia].
        - replace (S (length times - 1)) with (length times)
            by (destruct times; [discriminate | cbn; lia]).
          now rewrite lookup_app_r, Nat.sub_diag by lia. }
      rewrite Hconfig. destruct (Z.ltb_spec (t - t0) (windowMs (config b))); [lia|reflexivity]. }
    destruct (recordFailure_closed t b1 Hclosed) as (Hf & Hstay & _).
    rewrite Hpruned in Hf, Hstay. cbn [length app] in Hf, Hstay.
    split; [now rewrite recordFailure_config|].
    split; [apply Hstay; rewrite Hconfig; lia | exact Hf].
Qed.

(** C4.  (a) From a closed breaker, a run of [recordFailure] calls whose
    clock readings all fall in one window of width [windowMs], at least
    [failureThreshold] of them, leaves the breaker OPEN; and a single
    [recordFailure] on a closed breaker opens it, stamping [lastOpenedAt],
    once the failures kept by the window and the new one reach the
    threshold.  (b) A state read, [currentState] or [canExecute], of an open
    breaker at least [resetTimeoutMs] after [lastOpenedAt] observes and
    leaves HALF_OPEN.  (c) In HALF_OPEN the next outcome decides:
    [recordSuccess] closes the breaker and clears the failures,
    [recordFailure] reopens it and restarts the timer.  (d) The threshold
    and the window are what decides in CLOSED: a [recordFailure] keeps
    exactly the failures younger than [windowMs] and adds the new one, and
    the breaker stays closed, [lastOpenedAt] untouched, while these are
    fewer than [failureThreshold]; so fewer failures than the threshold
    never open a closed breaker, and failures that lie [windowMs] or more
    apart never accumulate.  (e) A state read of an open breaker before
    [resetTimeoutMs] has elapsed observes OPEN, refuses execution and
    changes nothing. *)
Theorem breaker_state_machine :
  (forall (b : CircuitBreaker) (lo : Z) (times : list Z),
      state b = CLOSED -> times <> [] ->
      Forall (fun t => lo <= t < lo + windowMs (config b)) times ->
      failureThreshold (config b) <= Z.of_nat (length times) ->
      state (recordFailures times b) = OPEN)
  /\ (forall (b : CircuitBreaker) (now : Z),
      state b = CLOSED ->
      failureThreshold (config b)
        <= Z.of_nat (length (List.filter (fun t => now - t <? windowMs (config b))
                               (failures b))) + 1 ->
      state (recordFailure now b) = OPEN /\ lastOpenedAt (recordFailure now b) = now)
  /\ (forall (b : CircuitBreaker) (now : Z),
      state b = OPEN -> resetTimeoutMs (config b) <= now - lastOpenedAt b ->
      fst (currentState now b) = HALF_OPEN
      /\ state (snd (currentState now b)) = HALF_OPEN
      /\ fst (canExecute now b) = true
      /\ state (snd (canExecute now b)) = HALF_OPEN)
  /\ (forall b : CircuitBreaker,
      state b = HALF_OPEN ->
      state (recordSuccess b) = CLOSED /\ failures (recordSuccess b) = [])
  /\ (forall (b : CircuitBreaker) (now : Z),
      state b = HALF_OPEN ->
      state (recordFailure now b) = OPEN /\ lastOpenedAt (recordFailure now b) = now)
  /\ (forall (b : CircuitBreaker) (now : Z),
      state b = CLOSED ->
      failures (recordFailure now b)
      = List.filter (fun t => now - t <? windowMs (config b)) (failures b) ++ [now]
      /\ (Z.of_nat (length (List.filter (fun t => now - t <? windowMs (config b))
                              (failures b))) + 1 < failureThreshold (config b) ->
          state (recordFailure now b) = CLOSED
          /\ lastOpenedAt (recordFailure now b) = lastOpenedAt b))
  /\ (forall (b : CircuitBreaker) (times : list Z),
      state b = CLOSED ->
      Z.of_nat (length (failures b) + length times) < failureThreshold (config b) ->
      state (recordFailures times b) = CLOSED)
  /\ (forall (b : CircuitBreaker) (times : list Z),
      2 <= failureThreshold (config b) ->
      state b = CLOSED -> failures b = [] ->
      spaced (windowMs (config b)) times ->
      state (recordFailures times b) = CLOSED
      /\ failures (recordFailures times b)
         = match last times with Some t => [t] | None => [] end)
  /\ (forall (b : CircuitBreaker) (now : Z),
      state b = OPEN -> now - lastOpenedAt b < resetTimeoutMs (config b) ->
      currentState now b = (OPEN, b) /\ canExecute now b = (false, b)).
Proof.
  repeat apply conj.
  - intros b lo times Hs Hne Hall Hth.
    destruct (recordFailures_in_window lo (windowMs (config b)) times b)
      as (_ & _ & _ & Hopen); auto; try congruence.
    + eapply Forall_impl; [exact Hall|]. cbn. intros t Ht. unfold in_window.
      apply andb_true_intro. split; [apply Z.leb_le | apply Z.ltb_lt]; lia.
    + apply Hopen; auto. lia.
  - intros b now Hs Hth. unfold recordFailure.
    destruct (decide (state b = HALF_OPEN)); [congruence|].
    rewrite length_app. cbn [length].
    destruct (Z.leb_spec (failureThreshold (config b))
                (Z.of_nat (length (List.filter (fun t => now - t <? windowMs (config b))
                                     (failures b)) + 1))); [auto | lia].
  - intros b now Hs Ht. unfold canExecute, currentState.
    destruct (decide (state b = OPEN)); [|contradiction].
    destruct (Z.leb_spec (resetTimeoutMs (config b)) (now - lastOpenedAt b)); [|lia].
    cbn. auto.
  - intros b Hs. unfold recordSuccess.
    destruct (decide (state b = HALF_OPEN)); [auto | contradiction].
  - intros b now Hs. unfold recordFailure.
    destruct (decide (state b = HALF_OPEN)); [auto | contradiction].
  - intros b now Hs. destruct (recordFailure_closed now b Hs) as (Hf & Hstay & _).
    split; [exact Hf | exact Hstay].
  - intros b times Hs Hfew. now destruct (recordFailures_few times b Hs Hfew) as (_ & ? & _).
  - intros b times Hth Hs Hf Hsp.
    destruct (recordFailures_spaced times b Hth Hs Hf Hsp) as (_ & ? & ?). now split.
  - intros b now Hs Ht. unfold canExecute, currentState.
    destruct (decide (state b = OPEN)); [|contradiction].
    destruct (Z.leb_spec (resetTimeoutMs (config b)) (now - lastOpenedAt b)); [lia|].
    rewrite Hs. split; reflexivity.
Qed.

(** The scenario of the test-suite, through the theorem: two failures trip
    the breaker, five seconds later a read sees HALF_OPEN, and a success
    recorded then closes it; a read after two seconds is refused; a single
    failure, or two failures seventy seconds apart, leave it closed. *)
Lemma breaker_state_machine_witness :
  state tripped = OPEN
  /\ fst (currentState 6000 tripped) = HALF_OPEN
  /\ state (recordSuccess (snd (currentState 6000 tripped))) = CLOSED
  /\ state (recordFailure 6000 (snd (currentState 6000 tripped))) = OPEN
  /\ canExecute 3000 tripped = (false, tripped)
  /\ state (recordFailures [0] (create test_config)) = CLOSED
  /\ state (recordFailures [0; 70000] (create test_config)) = CLOSED.
Proof.
  destruct breaker_state_machine
    as (Hrun & _ & Hread & Hsucc & Hfail & _ & Hfew & Hspaced & Hearly).
  assert (Hopen : state tripped = OPEN).
  { apply (Hrun (create test_config) 0 [0; 1000]).
    - reflexivity.
    - discriminate.
    - repeat constructor; cbn; lia.
    - cbn; lia. }
  destruct (Hread tripped 6000 Hopen) as (Hcur & Hst & _); [vm_compute; discriminate|].
  split; [exact Hopen|]. split; [exact Hcur|]. split; [apply (Hsucc _ Hst)|].
  split; [apply (Hfail _ 6000 Hst)|]. split; [|split].
  - apply (Hearly tripped 3000 Hopen). vm_compute. reflexivity.
  - apply (Hfew (create test_config) [0]); [reflexivity | vm_compute; reflexivity].
  - apply (Hspaced (create test_config) [0; 70000]); [vm_compute; discriminate | reflexivity
      | reflexivity |].
    intros i a b Ha Hb. destruct i as [|[|i]]; cbn in Ha, Hb; try discriminate.
    injection Ha as <-. injection Hb as <-. vm_compute. discriminate.
Defined.

(** C10.  On an open breaker [recordSuccess] changes nothing, whatever the
    clock says: the state stays OPEN and the failure window is intact.  No
    method other than a state read ([currentState], [canExecute]) ever
    moves a breaker into HALF_OPEN, and a read does so only from OPEN once
    [resetTimeoutMs] has elapsed.  A success closes a breaker that was not
    closed only if it finds it HALF_OPEN, so an open breaker whose timeout
    has elapsed is closed by a success recorded after a read and not by
    one recorded before it. *)
Theorem recordSuccess_needs_observed_half_open :
  (forall b : CircuitBreaker,
      state b = OPEN ->
      recordSuccess b = b /\ state (recordSuccess b) = OPEN
      /\ failures (recordSuccess b) = failures b)
  /\ (forall (now : Z) (op : Op) (b : CircuitBreaker),
      state b <> HALF_OPEN -> state (step now op b) = HALF_OPEN ->
      is_read op = true /\ state b = OPEN
      /\ resetTimeoutMs (config b) <= now - lastOpenedAt b)
  /\ (forall b : CircuitBreaker,
      state b <> CLOSED -> state (recordSuccess b) = CLOSED -> state b = HALF_OPEN)
  /\ (forall (now : Z) (b : CircuitBreaker),
      state b = OPEN -> resetTimeoutMs (config b) <= now - lastOpenedAt b ->
      state (recordSuccess b) = OPEN
      /\ state (recordSuccess (snd (currentState now b))) = CLOSED
      /\ state (recordSuccess (snd (canExecute now b))) = CLOSED).
Proof.
  repeat apply conj.
  - intros b Hs. unfold recordSuccess.
    destruct (decide (state b = HALF_OPEN)); [congruence | auto].
  - intros now op b Hs Hh. destruct op; cbn in Hh.
    + unfold currentState in Hh. cbn in Hh.
      destruct (decide (state b = OPEN)); [|contradiction].
      destruct (Z.leb_spec (resetTimeoutMs (config b)) (now - lastOpenedAt b));
        [auto | contradiction].
    + unfold canExecute, currentState in Hh. cbn in Hh.
      destruct (decide (state b = OPEN)); [|contradiction].
      destruct (Z.leb_spec (resetTimeoutMs (config b)) (now - lastOpenedAt b));
        [auto | contradiction].
    + unfold recordSuccess in Hh.
      destruct (decide (state b = HALF_OPEN)); [discriminate | contradiction].
    + exfalso. now apply (recordFailure_not_half_open now b).
    + discriminate.
  - intros b Hs Hc. unfold recordSuccess in Hc.
    destruct (decide (state b = HALF_OPEN)); [assumption | contradiction].
  - intros now b Hs Ht. unfold recordSuccess, canExecute, currentState.
    destruct (decide (state b = OPEN)); [|contradiction].
    destruct (Z.leb_spec (resetTimeoutMs (config b)) (now - lastOpenedAt b)); [|lia].
    cbn. destruct (decide (state b = HALF_OPEN)); [congruence | auto].
Qed.

(** The tripped breaker of the test-suite, six seconds later: a success
    recorded without a read leaves it open with both failures, after a read
    it closes. *)
Lemma recordSuccess_needs_observed_half_open_witness :
  recordSuccess tripped = tripped
  /\ failures (recordSuccess tripped) = [0; 1000]
  /\ state (recordSuccess tripped) = OPEN
  /\ state (recordSuccess (snd (currentState 6000 tripped))) = CLOSED.
Proof.
  destruct recordSuccess_needs_observed_half_open as (Hnoop & _ & _ & Hafter).
  assert (Hopen : state tripped = OPEN) by reflexivity.
  destruct (Hnoop tripped Hopen) as (Hsame & _ & Hfail).
  destruct (Hafter 6000 tripped Hopen) as (Hstill & Hclosed & _); [vm_compute; discriminate|].
  split; [exact Hsame|]. split; [rewrite Hfail; reflexivity|]. split; assumption.
Defined.

(** *** Breakers reached by method calls *)

Lemma run_snoc (history : list (Z * Op)) (now : Z) (op : Op) (b : CircuitBreaker) :
  run (history ++ [(now, op)]) b = step now op (run history b).
Proof. unfold run. now rewrite fold_left_app. Qed.

Lemma step_config (now : Z) (op : Op) (b : CircuitBreaker) :
  config (step now op b) = config b.
Proof.
  destruct op; cbn [step].
  - unfold currentState. cbn [snd]. destruct (decide _); [|reflexivity].
    destruct (_ <=? _); reflexivity.
  - unfold canExecute, currentState. destruct (decide _); [|reflexivity].
    destruct (_ <=? _); reflexivity.
  - unfold recordSuccess. destruct (decide _); reflexivity.
  - apply recordFailure_config.
  - reflexivity.
Qed.

Lemma run_invariant (c : option PartialConfig) (history : list (Z * Op)) :
  1 <= failureThreshold (resolve c) ->
  config (run history (create c)) = resolve c
  /\ reachable_invariant history (run history (create c)).
Proof.
  intros Hthreshold.
  induction history as [|[now op] history IH] using rev_ind.
  - unfold reachable_invariant, run, create.
    cbn [fold_left state failures config length].
    split; [reflexivity|]. split; [intros _; lia | intros H; now contradiction H].
  - rewrite run_snoc. destruct IH as [Hconfig [Hclosed Hopen]].
    set (b := run history (create c)) in *.
    split; [now rewrite step_config|].
    assert (Hmono : forall t, In (t, CallRecordFailure) history ->
                              In (t, CallRecordFailure) (history ++ [(now, op)])).
    { intros t Ht. apply in_or_app. now left. }
    assert (Hnow : op = CallRecordFailure ->
                   In (now, CallRecordFailure) (history ++ [(now, op)])).
    { intros ->. apply in_or_app. right. now left. }
    unfold reachable_invariant.
    destruct op; cbn [step].
    + unfold currentState. cbn [snd]. destruct (decide (state b = OPEN)) as [Ho|Ho].
      * destruct (_ <=? _); cbn; (split; [congruence|]); intros _; apply Hmono, Hopen;
          congruence.
      * split; [exact Hclosed | intros H; apply Hmono, Hopen, H].
    + unfold canExecute, currentState. destruct (decide (state b = OPEN)) as [Ho|Ho].
      * destruct (_ <=? _); cbn; (split; [congruence|]); intros _; apply Hmono, Hopen;
          congruence.
      * cbn. split; [exact Hclosed | intros H; apply Hmono, Hopen, H].
    + unfold recordSuccess. destruct (decide (state b = HALF_OPEN)) as [Hh|Hh].
      * cbn. split; [intros _; rewrite Hconfig; lia | congruence].
      * split; [exact Hclosed | intros H; apply Hmono, Hopen, H].
    + unfold recordFailure. destruct (decide (state b = HALF_OPEN)) as [Hh|Hh].
      * cbn. split; [congruence | intros _; now apply Hnow].
      * destruct (_ <=? _) eqn:Hfull; cbn [state failures lastOpenedAt config].
        -- split; [congruence | intros _; now apply Hnow].
        -- apply Z.leb_gt in Hfull. split; [intros _; exact Hfull|].
           intros H. apply Hmono, Hopen, H.
    + cbn. split; [intros _; rewrite Hconfig; lia | congruence].
Qed.

(** X7.  A breaker built with a threshold of at least 1 and driven through
    its methods in any order refuses execution only if a [recordFailure]
    of its history lies less than [resetTimeoutMs] back. *)
Theorem refusal_follows_a_recent_failure (c : option PartialConfig)
    (history : list (Z * Op)) (now : Z) :
  1 <= failureThreshold (resolve c) ->
  fst (canExecute now (run history (create c))) = false ->
  exists t, In (t, CallRecordFailure) history /\ now - t < resetTimeoutMs (resolve c).
Proof.
  intros Hthreshold Hrefused.
  destruct (run_invariant c history Hthreshold) as [Hconfig [_ Hopen]].
  set (b := run history (create c)) in *.
  unfold canExecute, currentState in Hrefused.
  destruct (decide (state b = OPEN)) as [Ho|Ho].
  - destruct (Z.leb_spec (resetTimeoutMs (config b)) (now - lastOpenedAt b)) as [Hle|Hlt].
    + cbn in Hrefused. discriminate.
    + exists (lastOpenedAt b). split; [apply Hopen; congruence | now rewrite <- Hconfig].
  - cbn in Hrefused. destruct (state b); try contradiction; discriminate.
Qed.

(** X8.  However a breaker is driven through its methods, its
    configuration stays the one it was built with, and while it is closed
    it holds fewer failures than the threshold. *)
Theorem closed_breaker_is_below_threshold (c : option PartialConfig)
    (history : list (Z * Op)) :
  1 <= failureThreshold (resolve c) ->
  let b := run history (create c) in
  config b = resolve c
  /\ (state b = CLOSED -> Z.of_nat (length (failures b)) < failureThreshold (resolve c)).
Proof.
  intros Hthreshold b.
  destruct (run_invariant c history Hthreshold) as [Hconfig [Hclosed _]].
  fold b in Hconfig, Hclosed. split; [exact Hconfig|]. now rewrite <- Hconfig.
Qed.


(** The scenario's history: the breaker refuses execution at 3 s, and the
    failure recorded at 1 s is the recent one. *)
Lemma refusal_follows_a_recent_failure_witness :
  fst (canExecute 3000 (run tripping_history (create test_config))) = false
  /\ exists t, In (t, CallRecordFailure) tripping_history /\ 3000 - t < 5000.
Proof.
  split; [reflexivity|].
  apply (refusal_follows_a_recent_failure test_config tripping_history 3000);
    [vm_compute; discriminate | reflexivity].
Defined.

(** A breaker under the scenario's configuration after one failure and a
    read: closed, with one failure on record against a threshold of 2. *)
Lemma closed_breaker_is_below_threshold_witness :
  state (run [(0, CallRecordFailure); (10, CallCanExecute)] (create test_config)) = CLOSED
  /\ Z.of_nat (length (failures (run [(0, CallRecordFailure); (10, CallCanExecute)]
                                  (create test_config)))) < 2.
Proof.
  split; [reflexivity|].
  destruct (closed_breaker_is_below_threshold test_config
              [(0, CallRecordFailure); (10, CallCanExecute)]) as [_ H];
    [vm_compute; discriminate|].
  apply H. reflexivity.
Defined.

End BreakerFacts.

(** ** Facts about the health tracker *)

Module HealthFacts.
Import Breaker Health.

Lemma recordSuccess_latencyEma (now : Z) (x : Q) (slot : option Z) (t : HealthTracker) :
  latencyEma (metrics (recordSuccess now x slot t))
  = updateLatencyEma (latencyEma (metrics t)) x.
Proof.
  unfold recordSuccess.
  destruct (Breaker.currentState now (Breaker.recordSuccess (breaker t))) as [s b2].
  reflexivity.
Qed.

(** The first sample of a new tracker becomes the average. *)
Lemma first_sample_sets_ema (now : Z) (x : Q) (slot : option Z)
    (endpoint : RpcEndpointConfig) (connection : Connection) (logger : bool)
    (cb : option PartialConfig) :
  latencyEma (metrics (recordSuccess now x slot (create endpoint connection logger cb))) = x.
Proof. rewrite recordSuccess_latencyEma. reflexivity. Qed.

(** While the running average is not zero a sample is smoothed in. *)
Lemma nonzero_ema_smoothed (now : Z) (x : Q) (slot : option Z) (t : HealthTracker) :
  ~ (latencyEma (metrics t) == 0)%Q ->
  (latencyEma (metrics (recordSuccess now x slot t))
   == 0.3 * x + 0.7 * latencyEma (metrics t))%Q.
Proof.
  intros Hnz. rewrite recordSuccess_latencyEma. unfold updateLatencyEma.
  destruct (Qeq_bool (latencyEma (metrics t)) 0) eqn:Hz.
  - apply Qeq_bool_iff in Hz. contradiction.
  - unfold EMA_ALPHA. ring.
Qed.

(** What [recordSuccess] does when the running average is zero, as it is
    after a 0 ms sample: the next sample replaces it. *)
Lemma zero_ema_replaced (now : Z) (x : Q) (slot : option Z) (t : HealthTracker) :
  (latencyEma (metrics t) == 0)%Q ->
  latencyEma (metrics (recordSuccess now x slot t)) = x.
Proof.
  intros Hz. rewrite recordSuccess_latencyEma. unfold updateLatencyEma.
  apply Qeq_bool_iff in Hz. now rewrite Hz.
Qed.

(** C9, the code at the failing input.  After [recordSuccess(0)] the
    average is 0, and [recordSuccess(100)], a subsequent sample, sets it to
    100 where 0.3 * 100 + 0.7 * 0 = 30 is claimed. *)
Theorem latencyEma_restarts_after_zero_sample :
  latencyEma (metrics (recordSuccess 0 0 None fresh)) = 0%Q
  /\ latencyEma (metrics zero_then_hundred) = 100%Q
  /\ ~ (latencyEma (metrics zero_then_hundred) == 0.3 * 100 + 0.7 * 0)%Q.
Proof.
  repeat split. vm_compute. discriminate.
Qed.

(** *** Histories of reports *)









End HealthFacts.

(** ** Facts about the connection pool *)

Module PoolFacts.
Import Errors Breaker Health Pool.

Lemma canExecute_refused (now : Z) (b : CircuitBreaker) :
  fst (Breaker.canExecute now b) = false -> Breaker.canExecute now b = (false, b).
Proof.
  unfold Breaker.canExecute, Breaker.currentState.
  destruct (decide (state b = OPEN)) as [Ho|Hn].
  - destruct (resetTimeoutMs (config b) <=? now - lastOpenedAt b); cbn.
    + discriminate.
    + now intros ->.
  - cbn. now intros ->.
Qed.

Lemma isAvailable_refused (now : Z) (t : HealthTracker) :
  fst (Breaker.canExecute now (breaker t)) = false -> isAvailable now t = (false, t).
Proof.
  intros H. unfold isAvailable. rewrite (canExecute_refused _ _ H).
  now destruct t.
Qed.

Lemma probe_none_available (now : Z) (ts : list HealthTracker) :
  Forall (fun t => fst (Breaker.canExecute now (breaker t)) = false) ts ->
  List.map snd (probe now ts) = ts
  /\ forall i, selected i (List.map fst (probe now ts)) = [].
Proof.
  unfold probe. induction 1 as [|t ts Ht _ [IH1 IH2]]; cbn [List.map]; [auto|].
  rewrite (isAvailable_refused _ _ Ht). cbn [fst snd selected]. rewrite IH1. auto.
Qed.

Lemma with_trackers_same (p : ConnectionPool) : with_trackers (trackers p) p = p.
Proof. now destruct p. Qed.

(** C7 (amended).  When no tracker's breaker allows execution,
    [getConnection] sends the warning to the logger (if one is configured)
    and changes nothing in the pool; with at least one tracker it returns
    the first tracker's connection instead of raising, and only a pool
    without any tracker raises ALL_ENDPOINTS_UNHEALTHY. *)
Theorem getConnection_fallback (now : Z) (p : ConnectionPool) :
  none_available now p ->
  (forall first rest, trackers p = first :: rest ->
     getConnection now p
     = (inl (connection first), p, Log.warn (poolLogger p) ALL_UNHEALTHY_WARNING []))
  /\ (trackers p = [] ->
     getConnection now p
     = (inr noEndpointsError, p, Log.warn (poolLogger p) ALL_UNHEALTHY_WARNING [])).
Proof.
  intros Hnone. destruct (probe_none_available now (trackers p) Hnone) as [Hts Hsel].
  unfold getConnection. rewrite Hts, Hsel, with_trackers_same.
  split.
  - intros first rest ->. reflexivity.
  - intros ->. reflexivity.
Qed.

(** The tripped single-endpoint pool one second after it opened: the
    connection of its only tracker comes back, with one warning. *)
Lemma getConnection_fallback_witness :
  getConnection 2000 tripped_pool
  = (inl {| rpcEndpoint := "https://rpc-1.example.com"; commitment := "confirmed" |},
     tripped_pool,
     [ {| Log.level := Log.Warn; Log.text := ALL_UNHEALTHY_WARNING; Log.meta := [] |} ]).
Proof.
  assert (Hnone : none_available 2000 tripped_pool) by (repeat constructor).
  destruct (getConnection_fallback 2000 tripped_pool Hnone) as [Hfirst _].
  exact (Hfirst _ _ eq_refl).
Defined.

(** C7 as stated fails for a pool without endpoints: no breaker allows
    execution, and [getConnection] raises ALL_ENDPOINTS_UNHEALTHY. *)
Lemma getConnection_raises_without_endpoints :
  none_available 0 empty_pool
  /\ getConnection 0 empty_pool
     = (inr noEndpointsError, empty_pool,
        [ {| Log.level := Log.Warn; Log.text := ALL_UNHEALTHY_WARNING; Log.meta := [] |} ])
  /\ code noEndpointsError = Some "ALL_ENDPOINTS_UNHEALTHY".
Proof. repeat split. constructor. Qed.

End PoolFacts.

(** ** Facts about the blockhash manager *)

Module BlockhashFacts.
Import Errors Async Blockhash.

Section WithEnv.
Context {Env Promise : Type}.
Variable now : Env -> Z.
Variable getLatestBlockhash :
  Health.Connection -> string -> Env -> (LatestBlockhash + Thrown) * Env.

Abbreviation Manager := (BlockhashManager Promise).
Abbreviation getBlockhash := (getBlockhash now getLatestBlockhash).
Abbreviation refreshBlockhash := (refreshBlockhash now getLatestBlockhash).
Abbreviation fetchBlockhash := (fetchBlockhash now getLatestBlockhash).

(** The cached path: no state change, no effect. *)
Lemma getBlockhash_fresh (m : Manager) (env : Env) (info : BlockhashInfo) :
  fresh_in_cache now m env info -> getBlockhash m env = (Fulfilled info, m, env, []).
Proof.
  intros [Hc Hfresh]. unfold Blockhash.getBlockhash, isStale. rewrite Hc.
  destruct (Z.ltb_spec (ttlMs (config m)) (now env - fetchedAt info)); [lia | reflexivity].
Qed.

Lemma getBlockhash_delegates (m : Manager) (env : Env) :
  (forall info, ~ fresh_in_cache now m env info) ->
  getBlockhash m env = refreshBlockhash m env.
Proof.
  intros Hno. unfold Blockhash.getBlockhash, isStale.
  destruct (cache m) as [cached|] eqn:Hc; [|reflexivity].
  destruct (Z.ltb_spec (ttlMs (config m)) (now env - fetchedAt cached)); [reflexivity|].
  exfalso. apply (Hno cached). split; [assumption | lia].
Qed.

(** A fetch performs exactly one RPC call. *)
Lemma fetchBlockhash_one_rpc (m : Manager) (env : Env) :
  rpc_count (snd (fetchBlockhash m env)) = 1%nat.
Proof.
  unfold Blockhash.fetchBlockhash.
  destruct (getLatestBlockhash _ _ env) as [[result|err] env']; cbn; [|reflexivity].
  unfold Log.debug. destruct (logger m); reflexivity.
Qed.

(** A refresh that fulfils without a fetch in flight has cached what it
    returns, at the cost of one RPC call. *)
Lemma refreshBlockhash_populates (m m1 : Manager) (env env1 : Env)
    (info : BlockhashInfo) (trace : list Effect) :
  fetchPromise m = None ->
  refreshBlockhash m env = (Fulfilled info, m1, env1, trace) ->
  cache m1 = Some info /\ config m1 = config m /\ fetchPromise m1 = None
  /\ rpc_count trace = 1%nat.
Proof.
  intros Hp. unfold Blockhash.refreshBlockhash. rewrite Hp.
  pose proof (fetchBlockhash_one_rpc m env) as Hrpc.
  destruct (fetchBlockhash m env) as [[[info'|e] env'] trace']; intros H;
    inversion H; subst. auto.
Qed.

(** C8.  [getBlockhash] returns the cached record, unchanged and without
    any effect, whenever one is present and not stale, and in every other
    case it is [refreshBlockhash].  When a call on a manager without a
    usable record (and without a fetch in flight) has fetched and cached a
    record, a second call made while no more than [ttlMs] have passed since
    the record's [fetchedAt] returns that same record, leaves the manager
    as it is and performs no RPC call: one [getLatestBlockhash] across the
    two calls. *)
Theorem getBlockhash_cached_within_ttl :
  (forall (m : Manager) (env : Env) (info : BlockhashInfo),
      fresh_in_cache now m env info ->
      getBlockhash m env = (Fulfilled info, m, env, []))
  /\ (forall (m : Manager) (env : Env),
      (forall info, ~ fresh_in_cache now m env info) ->
      getBlockhash m env = refreshBlockhash m env)
  /\ (forall (m m1 : Manager) (env env1 env2 : Env) (info : BlockhashInfo)
             (trace1 : list Effect),
      fetchPromise m = None ->
      (forall info0, ~ fresh_in_cache now m env info0) ->
      getBlockhash m env = (Fulfilled info, m1, env1, trace1) ->
      now env2 - fetchedAt info <= ttlMs (config m1) ->
      exists trace2,
        getBlockhash m1 env2 = (Fulfilled info, m1, env2, trace2)
        /\ rpc_count trace2 = 0%nat
        /\ rpc_count (trace1 ++ trace2) = 1%nat).
Proof.
  split; [|split].
  - apply getBlockhash_fresh.
  - apply getBlockhash_delegates.
  - intros m m1 env env1 env2 info trace1 Hp Hno Hfirst Hwithin.
    rewrite (getBlockhash_delegates m env Hno) in Hfirst.
    destruct (refreshBlockhash_populates _ _ _ _ _ _ Hp Hfirst) as (Hc & _ & _ & Hrpc).
    exists []. split; [|split].
    + apply getBlockhash_fresh. split; assumption.
    + reflexivity.
    + now rewrite app_nil_r.
Qed.

End WithEnv.

(** A new manager, a first call at time 0 answered after 40 ms, a second
    call one second later: same record, one RPC call. *)
Lemma getBlockhash_cached_within_ttl_witness :
  getBlockhash clock_now mock_getLatestBlockhash new_manager 0
    = (Fulfilled mock_info, warm_manager, 40, [RpcGetLatestBlockhash mainnet "confirmed"])
  /\ exists trace2,
       getBlockhash clock_now mock_getLatestBlockhash warm_manager 1000
         = (Fulfilled mock_info, warm_manager, 1000, trace2)
       /\ rpc_count trace2 = 0%nat
       /\ rpc_count ([RpcGetLatestBlockhash mainnet "confirmed"] ++ trace2) = 1%nat.
Proof.
  destruct (getBlockhash_cached_within_ttl (Promise := unit)
              clock_now mock_getLatestBlockhash) as (_ & _ & Htwice).
  split; [reflexivity|].
  apply (Htwice new_manager warm_manager 0 40 1000 mock_info
           [RpcGetLatestBlockhash mainnet "confirmed"]).
  - reflexivity.
  - intros info0 [Hc _]. discriminate.
  - reflexivity.
  - vm_compute. discriminate.
Defined.

End BlockhashFacts.

(** ** Facts about the priority-fee estimator *)

Module FeeFacts.
Import Errors Fee.

Lemma insert_asc_perm (x : Z) (l : list Z) : Permutation (insert_asc x l) (x :: l).
Proof.
  induction l as [|y l IH]; cbn; [reflexivity|].
  destruct (x <=? y); [reflexivity|].
  rewrite IH. apply perm_swap.
Qed.

Lemma sort_asc_perm (l : list Z) : Permutation (sort_asc l) l.
Proof.
  induction l as [|x l IH]; cbn; [reflexivity|].
  rewrite insert_asc_perm. now constructor.
Qed.

Lemma insert_asc_sorted (x : Z) (l : list Z) :
  Sorted Z.le l -> Sorted Z.le (insert_asc x l).
Proof.
  induction 1 as [|y l Hs IH Hhd]; cbn.
  - repeat constructor.
  - destruct (Z.leb_spec x y) as [Hle|Hgt].
    + repeat constructor; assumption.
    + constructor; [exact IH|].
      destruct l as [|z l]; cbn.
      * constructor. lia.
      * destruct (x <=? z); constructor; [lia | now inversion Hhd].
Qed.

Lemma sort_asc_sorted (l : list Z) : Sorted Z.le (sort_asc l).
Proof.
  induction l as [|x l IH]; cbn; [constructor | now apply insert_asc_sorted].
Qed.

(** On unsigned samples, keeping the positive ones discards exactly the
    zero ones. *)
Lemma positive_is_nonzero (vs : list Z) :
  Forall (fun v => 0 <= v) vs ->
  List.filter (fun f => 0 <? f) vs = List.filter (fun v => negb (v =? 0)) vs.
Proof.
  induction 1 as [|v vs Hv _ IH]; cbn; [reflexivity|].
  rewrite IH.
  destruct (Z.ltb_spec 0 v), (Z.eqb_spec v 0); cbn; try reflexivity; lia.
Qed.

(** The rank never exceeds the number of samples. *)
Lemma ceiling_rank_bound (p : Z) (n : nat) :
  0 <= p <= 100 ->
  Qceiling (inject_Z p / 100 * inject_Z (Z.of_nat n))%Q <= Z.of_nat n.
Proof.
  intros Hp. rewrite <- (Qceiling_Z (Z.of_nat n)) at 2.
  apply Qceiling_resp_le.
  unfold Qle, Qdiv, Qmult, Qinv, inject_Z; cbn. nia.
Qed.

(** For a percentage the source's index never leaves the list, so the
    source's [percentile] is nearest rank with the clamped index. *)
Lemma percentile_nearest_rank (sorted : list Z) (p : Z) :
  0 <= p <= 100 -> percentile sorted p = nearest_rank sorted p.
Proof.
  intros Hp. unfold percentile, nearest_rank, nearest_rank_index.
  destruct sorted as [|x sorted]; [reflexivity|].
  cbn [length Nat.eqb].
  pose proof (ceiling_rank_bound p (S (length sorted)) Hp) as Hb.
  rewrite (Z.min_r (Z.of_nat (S (length sorted)) - 1)) by lia.
  reflexivity.
Qed.

Section WithEnv.
Context {Env : Type}.
Variable getRecentPrioritizationFees :
  Health.Connection -> option (list string) -> Env -> (list RecentFee + Thrown) * Env.

(** C5 (amended).  The configuration is the caller's, a key left out
    falling back to its default (percentile 75, floor 1000, cap 1000000).
    When the RPC, asked with the caller's writable accounts, answers with
    [fees] (unsigned samples), and the target percentile is 50, 75 or 90,
    [estimatePriorityFee] resolves to a result computed from the ascending
    sort of the non-zero samples: [sampleCount] counts them, p50, p75 and
    p90 are the nearest-rank percentiles ([index = ceil(p/100 * n) - 1]
    clamped to [[0, n - 1]]), and the returned fee is
    [min(max(target, minMicroLamports), maxMicroLamports)] for the target
    percentile.  With [minMicroLamports <= maxMicroLamports] that is the
    target clamped into [[minMicroLamports, maxMicroLamports]], and without
    non-zero samples it is [minMicroLamports] (for a floor that is not
    negative); with [minMicroLamports > maxMicroLamports] the cap wins and
    the returned fee is [maxMicroLamports], without non-zero samples too. *)
Theorem estimatePriorityFee_nearest_rank
    (connection : Health.Connection) (config : option PartialConfig)
    (env env' : Env) (fees : list RecentFee) :
  let target := default 75 (config ≫= p_targetPercentile) in
  let lo := default 1000 (config ≫= p_minMicroLamports) in
  let hi := default 1000000 (config ≫= p_maxMicroLamports) in
  getRecentPrioritizationFees connection (config ≫= p_writableAccounts) env
    = (inl fees, env') ->
  Forall (fun f => 0 <= prioritizationFee f) fees ->
  valid_percentile target ->
  exists (result : FeeEstimateResult) (sorted : list Z),
    estimatePriorityFee getRecentPrioritizationFees connection config env
      = (inl result, env')
    /\ Sorted Z.le sorted
    /\ Permutation sorted (nonzero_samples fees)
    /\ sampleCount result = length (nonzero_samples fees)
    /\ p50 result = nearest_rank sorted 50
    /\ p75 result = nearest_rank sorted 75
    /\ p90 result = nearest_rank sorted 90
    /\ microLamports result = Z.min (Z.max (nearest_rank sorted target) lo) hi
    /\ (lo <= hi -> clamped_into lo hi (nearest_rank sorted target) (microLamports result))
    /\ (hi < lo -> microLamports result = hi)
    /\ (nonzero_samples fees = [] -> 0 <= lo <= hi -> microLamports result = lo)
    /\ (nonzero_samples fees = [] -> hi < lo -> microLamports result = hi).
Proof.
  intros target lo hi Hrpc Hfees Htarget.
  assert (Hresolved : targetPercentile (resolve config) = target
                      /\ minMicroLamports (resolve config) = lo
                      /\ maxMicroLamports (resolve config) = hi
                      /\ writableAccounts (resolve config) = config ≫= p_writableAccounts).
  { unfold target, lo, hi. destruct config as [c|]; cbn; auto. }
  destruct Hresolved as (Hp & Hlo & Hhi & Hacc).
  exists (estimate (resolve config) fees), (sort_asc (nonzero_samples fees)).
  assert (Hkept : List.filter (fun f => 0 <? f) (List.map prioritizationFee fees)
                  = nonzero_samples fees).
  { apply positive_is_nonzero. rewrite Forall_forall in Hfees. apply Forall_forall.
    intros v Hv. apply list_elem_of_In, in_map_iff in Hv as (f & <- & Hf).
    apply Hfees, list_elem_of_In, Hf. }
  assert (Htgt : (if targetPercentile (resolve config) =? 50
                  then percentile (sort_asc (nonzero_samples fees)) 50
                  else if targetPercentile (resolve config) =? 90
                       then percentile (sort_asc (nonzero_samples fees)) 90
                       else percentile (sort_asc (nonzero_samples fees)) 75)
                 = nearest_rank (sort_asc (nonzero_samples fees)) target).
  { rewrite Hp. destruct Htarget as [-> | [-> | ->]]; cbn [Z.eqb Pos.eqb];
      apply percentile_nearest_rank; lia. }
  assert (Hfee : microLamports (estimate (resolve config) fees)
                 = Z.min (Z.max (nearest_rank (sort_asc (nonzero_samples fees)) target) lo) hi).
  { cbn [estimate microLamports]. now rewrite Hkept, Htgt, Hlo, Hhi. }
  split; [|split; [|split; [|split; [|split; [|split; [|split; [|split; [|split;
    [|split; [|split]]]]]]]]]].
  - unfold estimatePriorityFee. now rewrite Hacc, Hrpc.
  - apply sort_asc_sorted.
  - apply sort_asc_perm.
  - cbn [estimate sampleCount]. rewrite Hkept. apply Permutation_length, sort_asc_perm.
  - cbn [estimate p50]. rewrite Hkept. apply percentile_nearest_rank. lia.
  - cbn [estimate p75]. rewrite Hkept. apply percentile_nearest_rank. lia.
  - cbn [estimate p90]. rewrite Hkept. apply percentile_nearest_rank. lia.
  - exact Hfee.
  - intros Hbounds. rewrite Hfee. unfold clamped_into. lia.
  - intros Hbounds. rewrite Hfee. lia.
  - intros Hempty Hbounds. rewrite Hfee, Hempty.
    change (nearest_rank (sort_asc []) target) with 0. lia.
  - intros Hempty Hbounds. rewrite Hfee. lia.
Qed.

End WithEnv.

(** The samples of the test-suite with a zero sample among them, for a
    caller who asks for the 90th percentile between 1500 and 2500: sorted
    [1000; 2000; 3000], p90 is 3000, the cap gives 2500. *)
Lemma estimatePriorityFee_nearest_rank_witness :
  exists result sorted,
    estimatePriorityFee (mock_fees sample_fees) Blockhash.mainnet narrow_p90 tt
      = (inl result, tt)
    /\ Sorted Z.le sorted
    /\ Permutation sorted [3000; 1000; 2000]
    /\ sampleCount result = 3%nat
    /\ p90 result = nearest_rank sorted 90
    /\ microLamports result = Z.min (Z.max (nearest_rank sorted 90) 1500) 2500
    /\ microLamports result = 2500.
Proof.
  destruct (estimatePriorityFee_nearest_rank (mock_fees sample_fees)
              Blockhash.mainnet narrow_p90 tt tt sample_fees)
    as (result & sorted & Hrun & Hsorted & Hperm & Hcount & _ & _ & H90 & Hfee & _).
  - reflexivity.
  - unfold sample_fees. repeat (apply List.Forall_cons; [cbn; lia|]). apply List.Forall_nil.
  - right; right; reflexivity.
  - exists result, sorted.
    split; [exact Hrun|]. split; [exact Hsorted|]. split; [exact Hperm|].
    split; [exact Hcount|]. split; [exact H90|]. split; [exact Hfee|].
    injection Hrun as <-. reflexivity.
Defined.

(** C5 as stated fails: for a caller whose floor lies above the cap and an
    answer without non-zero samples, the returned fee is the cap, not
    [minMicroLamports]. *)
Lemma estimatePriorityFee_floor_above_cap :
  nonzero_samples idle_fees = []
  /\ exists result : FeeEstimateResult,
       estimatePriorityFee (mock_fees idle_fees) Blockhash.mainnet floor_above_cap tt
         = (inl result, tt)
       /\ sampleCount result = 0%nat
       /\ microLamports result = 1000000
       /\ minMicroLamports (resolve floor_above_cap) = 2000000
       /\ microLamports result <> minMicroLamports (resolve floor_above_cap).
Proof.
  split; [reflexivity|]. eexists. split; [reflexivity|].
  split; [reflexivity|]. split; [reflexivity|]. split; [reflexivity|].
  vm_compute. discriminate.
Qed.

End FeeFacts.

(** ** Facts about the send pipeline *)

Module SenderFacts.
Import Errors Classifier Retry Sender.

(** *** Rules for specifications *)

Section Rules.
Context {Env : Type}.
Variable now : Env -> Z.

Lemma triple_ret {A : Type} (P : World Env -> Prop) (a : A)
    (Q : A -> World Env -> Prop) (E : World Env -> Prop) :
  (forall w, P w -> Q a w) -> triple P (ret a) Q E.
Proof. intros H w Hw. cbn. auto. Qed.

Lemma triple_throw {A : Type} (P : World Env -> Prop) (x : Thrown)
    (Q : A -> World Env -> Prop) (E : World Env -> Prop) :
  (forall w, P w -> E w) -> triple P (throw x) Q E.
Proof. intros H w Hw. cbn. auto. Qed.

Lemma triple_bind {A B : Type} (P : World Env -> Prop) (R : A -> World Env -> Prop)
    (Q : B -> World Env -> Prop) (E : World Env -> Prop)
    (m : M A) (k : A -> M B) :
  triple P m R E -> (forall a, triple (R a) (k a) Q E) -> triple P (bind m k) Q E.
Proof.
  intros Hm Hk w Hw. unfold bind. specialize (Hm w Hw).
  destruct (m w) as [[a|x] w']; [apply Hk; exact Hm | exact Hm].
Qed.

Lemma triple_weaken {A : Type} (P P' : World Env -> Prop)
    (Q Q' : A -> World Env -> Prop) (E E' : World Env -> Prop) (m : M A) :
  triple P m Q E ->
  (forall w, P' w -> P w) -> (forall a w, Q a w -> Q' a w) -> (forall w, E w -> E' w) ->
  triple P' m Q' E'.
Proof.
  intros Hm HP HQ HE w Hw. specialize (Hm w (HP w Hw)).
  destruct (m w) as [[a|x] w']; auto.
Qed.

Lemma preserves_bind {A B : Type} (I : World Env -> Prop) (m : M A) (k : A -> M B) :
  preserves I m -> (forall a, preserves I (k a)) -> preserves I (bind m k).
Proof. intros Hm Hk. eapply triple_bind; [exact Hm | exact Hk]. Qed.

Lemma preserves_ret {A : Type} (I : World Env -> Prop) (a : A) : preserves I (ret a).
Proof. apply triple_ret. auto. Qed.

Lemma preserves_throw {A : Type} (I : World Env -> Prop) (x : Thrown) :
  preserves (A := A) I (throw x).
Proof. apply triple_throw. auto. Qed.

Lemma preserves_await {A : Type} (I : World Env -> Prop)
    (call : Env -> (A + Thrown) * Env) :
  env_stable I -> preserves I (await call).
Proof.
  intros HI w Hw. unfold await. destruct (call (env w)) as [[a|x] e]; apply HI, Hw.
Qed.

Lemma preserves_record (I : World Env -> Prop) (a : Action) :
  allows I a -> preserves I (record a).
Proof. intros HI w Hw. cbn. apply HI, Hw. Qed.

Lemma preserves_log (I : World Env -> Prop) (entries : list Log.Entry) :
  (forall l, allows I (Logged l)) -> preserves I (log entries).
Proof.
  intros HI w Hw. cbn. revert w Hw.
  induction entries as [|l entries IH] using rev_ind; intros w Hw.
  - cbn. rewrite app_nil_r. now destruct w.
  - rewrite map_app, app_assoc. cbn [List.map].
    apply (HI l _ (IH w Hw)).
Qed.

Lemma preserves_clock (I : World Env -> Prop) : preserves I (clock now).
Proof. intros w Hw. exact Hw. Qed.

(** After a load the object read is known to be the one in the store. *)
Lemma triple_load (I : World Env -> Prop) (r : nat) :
  triple I (load r) (fun object w => I w /\ heap w !! r = Some object) I.
Proof.
  intros w Hw. unfold load. destruct (heap w !! r) eqn:Hr; auto.
Qed.

Lemma triple_store (P Q E : World Env -> Prop) (r : nat) (object : SolanaTransaction) :
  (forall w, P w -> Q (set_heap (<[r := object]> (heap w)) w)) ->
  triple P (store r object) (fun _ => Q) E.
Proof. intros H w Hw. cbn. auto. Qed.

Lemma preserves_snd {A : Type} (I : World Env -> Prop) (m : M A) (w : World Env) :
  preserves I m -> I w -> I (snd (m w)).
Proof. intros Hm Hw. specialize (Hm w Hw). now destruct (m w) as [[a|x] w']. Qed.

End Rules.

(** *** The steps of an attempt preserve what signing and submitting respect *)

Section Pipeline.
Context {Env : Type}.
Variable now : Env -> Z.
Variable random : Env -> Q * Env.
Variable sleep : Q -> Env -> Env.
Variable pool_getConnection : Env -> (Health.Connection + Thrown) * Env.
Variable pool_sendRaw : SolanaTransaction -> Env -> (string + Thrown) * Env.
Variable getBlockhash : Env -> (Blockhash.BlockhashInfo + Thrown) * Env.
Variable getCachedBlockhash : Env -> option Blockhash.BlockhashInfo.
Variable refreshBlockhash : Env -> (Blockhash.BlockhashInfo + Thrown) * Env.
Variable confirm :
  Health.Connection -> string -> Z -> option ConfirmationConfig -> Env ->
  (ConfirmationResult + Thrown) * Env.
Variable rpc_simulateTransaction :
  Health.Connection -> SolanaTransaction -> option (string * bool * bool) -> Env ->
  (SimValue + Thrown) * Env.
Variable signLegacy : list Keypair -> Transaction -> list SignaturePubkeyPair * option Thrown.
Variable signVersioned : list Keypair -> VersionedTransaction -> list string * option Thrown.
Variable config : SenderConfig (Env := Env).

(** An invariant [I] of the world and the reference [tx] of the working
    transaction.  [I] ignores the environment, log lines and the events
    other than SENDING, survives re-signing the object at [tx], and admits
    submitting it.  [I'] is what holds between the simulation step and the
    SENDING event; for a plain invariant it is [I] itself. *)
Variable I I' : World Env -> Prop.
Variable tx : nat.
Hypothesis I_env : env_stable I.
Hypothesis I_emit : forall e, is_sending (Emitted e) = false -> allows I (Emitted e).
Hypothesis I_log : forall l, allows I (Logged l).
Hypothesis I_sign :
  forall w object object',
    I w -> heap w !! tx = Some object -> resigned object object' ->
    I (set_heap (<[tx := object']> (heap w)) w).
Hypothesis I_submit :
  forall w object,
    I w -> heap w !! tx = Some object ->
    I {| heap := heap w; trace := trace w ++ [Submitted object]; env := env w |}.
Hypothesis I'_env : env_stable I'.
Hypothesis I'_emit : forall e, is_sending (Emitted e) = false -> allows I' (Emitted e).
Hypothesis I'_log : forall l, allows I' (Logged l).
Hypothesis I'_weaken : forall w, I' w -> I w.
Hypothesis I_sending :
  forall w r a,
    I' w ->
    I {| heap := heap w; trace := trace w ++ [Emitted (SENDING r a)]; env := env w |}.

Lemma signTransaction_preserves (blockhash : string) (extra : option (list Keypair)) :
  preserves I (signTransaction signLegacy signVersioned config tx blockhash extra).
Proof.
  unfold signTransaction.
  eapply triple_bind; [apply triple_load|].
  intros object. destruct object as [t|t]; cbn beta.
  - destruct (signLegacy _ _) as [sigs thrown].
    eapply triple_bind.
    + apply triple_store with (Q := I). intros w [Hw Hobj].
      apply (I_sign w _ _ Hw Hobj). split; reflexivity.
    + intros u. destruct thrown; [apply preserves_throw | apply preserves_ret].
  - destruct (signVersioned _ _) as [sigs thrown].
    eapply triple_bind.
    + apply triple_store with (Q := I). intros w [Hw Hobj].
      apply (I_sign w _ _ Hw Hobj). split; reflexivity.
    + intros u. destruct thrown; [apply preserves_throw | apply preserves_ret].
Qed.

Lemma sendRawTransaction_preserves :
  preserves I (sendRawTransaction pool_sendRaw tx).
Proof.
  unfold sendRawTransaction.
  eapply triple_bind; [apply triple_load|].
  intros object. cbn beta.
  eapply triple_bind with (R := fun _ => I).
  - intros w [Hw Hobj]. cbn. now apply I_submit.
  - intros u. now apply preserves_await.
Qed.

Lemma awaitConfirmation_preserves (signature : string) (height : Z) (commitment : string) :
  preserves I (awaitConfirmation pool_getConnection confirm config signature height commitment).
Proof.
  unfold awaitConfirmation.
  apply preserves_bind; [now apply preserves_await|]. intros conn.
  apply preserves_bind; [now apply preserves_await|]. intros result.
  destruct (status result); try apply preserves_throw;
    (apply preserves_bind;
       [apply preserves_record, I_emit; reflexivity | intros u; apply preserves_ret]).
Qed.

Lemma buildResult_preserves (signature : string) (slot : Z) (commitment : string)
    (attempt : nat) (startTime : Z) (units fee : option Z) :
  preserves I (buildResult now signature slot commitment attempt startTime units fee).
Proof.
  unfold buildResult.
  apply preserves_bind; [apply preserves_clock | intros t; apply preserves_ret].
Qed.

Lemma simulateTransaction_spec (conn : Health.Connection)
    (object : SolanaTransaction) (simConfig : option SimulationConfig) :
  (forall w, I w ->
     I' {| heap := heap w; trace := trace w ++ [CalledSimulate conn object simConfig];
           env := env w |}) ->
  triple I (simulateTransaction rpc_simulateTransaction conn object simConfig)
         (fun _ => I') I.
Proof.
  intros Hsim. unfold simulateTransaction.
  eapply triple_bind with (R := fun _ => I').
  { intros w Hw. cbn. now apply Hsim. }
  intros u w Hw.
  pose proof (preserves_await I' (rpc_simulateTransaction conn object
    (if isVersionedTransaction object
     then Some (default "confirmed" (simConfig ≫= sim_commitment),
                default true (simConfig ≫= replaceRecentBlockhash),
                default false (simConfig ≫= sigVerify))
     else None)) I'_env w Hw) as Hrpc.
  destruct (await _ w) as [[value|thrown] w1]; [|apply I'_weaken, Hrpc].
  assert (Hlog : forall entries (r : SimulationResult),
            match bind (log entries) (fun _ => ret r) w1 with
            | (inl _, w2) => I' w2
            | (inr _, w2) => I w2
            end).
  { intros entries r.
    apply (triple_weaken I' I' (fun _ => I') (fun _ => I') I' I); auto.
    apply preserves_bind; [now apply preserves_log | intros; apply preserves_ret]. }
  destruct (err value) as [e|]; apply Hlog.
Qed.

(** The simulation step: from [I] to [I'], or to [I] when it throws. *)
Lemma runSimulation_spec (options : option SendOptions) :
  simulation_step config I I' options ->
  triple I (runSimulation pool_getConnection rpc_simulateTransaction config tx options)
         (fun _ => I') I.
Proof.
  unfold simulation_step, runSimulation.
  destruct (skipsSimulation config options) eqn:Hskip; intros Hsim.
  - apply triple_ret. exact Hsim.
  - eapply triple_bind with (R := fun _ => I); [now apply preserves_await|]. intros conn.
    eapply triple_bind with (R := fun _ => I).
    { apply (triple_weaken I I (fun object w => I w /\ heap w !! tx = Some object)
               (fun _ => I) I I);
        [apply triple_load | auto | intros a w [Hw _]; exact Hw | auto]. }
    intros object.
    eapply triple_bind; [apply simulateTransaction_spec, Hsim|]. intros result.
    eapply triple_bind with (R := fun _ => I').
    { intros w Hw. cbn. now apply I'_emit. }
    intros u. destruct (negb (success result));
      [apply triple_throw, I'_weaken | apply triple_ret; auto].
Qed.

Lemma attempt_once_preserves (feeAmount : option Z) (options : option SendOptions)
    (commitment : string) (startTime : Z) (ctx : RetryContext) :
  simulation_step config I I' options ->
  preserves I (attempt_once now pool_getConnection pool_sendRaw getBlockhash confirm
                 rpc_simulateTransaction signLegacy signVersioned config
                 tx feeAmount options commitment startTime ctx).
Proof.
  intros Hsim. unfold attempt_once.
  apply preserves_bind; [now apply preserves_await|]. intros info.
  apply preserves_bind; [apply signTransaction_preserves|]. intros u1.
  eapply triple_bind; [now apply runSimulation_spec|]. intros units.
  eapply triple_bind with (R := fun _ => I).
  { intros w Hw. cbn. now apply I_sending. }
  intros u2.
  apply preserves_bind; [apply sendRawTransaction_preserves|]. intros signature.
  apply preserves_bind; [apply preserves_record, I_emit; reflexivity|]. intros u3.
  destruct (default false (options ≫= o_skipConfirmation)).
  - apply buildResult_preserves.
  - apply preserves_bind; [apply awaitConfirmation_preserves|]. intros slot.
    apply buildResult_preserves.
Qed.

Lemma onRetryHook_preserves (error : JsError) (attempt : nat) (delayMs : Q) :
  preserves I (onRetryHook getCachedBlockhash refreshBlockhash config error attempt delayMs).
Proof.
  unfold onRetryHook.
  apply preserves_bind; [apply preserves_record, I_emit; reflexivity|]. intros u.
  destruct (isBlockhashExpired error); [|apply preserves_ret].
  apply preserves_bind; [intros w Hw; exact Hw|]. intros old.
  apply preserves_bind; [now apply preserves_await|]. intros info.
  apply preserves_bind; [intros w Hw; exact Hw|]. intros new.
  apply preserves_record, I_emit. reflexivity.
Qed.

(** The retry loop of [send] around the working transaction [tx]. *)
Lemma send_loop_preserves (feeAmount : option Z) (options : option SendOptions)
    (commitment : string) (startTime : Z) (w : World Env) :
  simulation_step config I I' options ->
  I w ->
  I (world (withRetry (world_now now) (world_random random) (world_sleep sleep)
              (attempt_once now pool_getConnection pool_sendRaw getBlockhash confirm
                 rpc_simulateTransaction signLegacy signVersioned config
                 tx feeAmount options commitment startTime)
              (Some (retryConfig getCachedBlockhash refreshBlockhash config options)) w)).
Proof.
  intros Hsim Hw. unfold withRetry.
  apply RetryFacts.attempts_preserves; [| | | | exact Hw].
  - intros ctx w' Hw'. apply preserves_snd; [now apply attempt_once_preserves | exact Hw'].
  - intros w' Hw'. unfold world_random. destruct (random (env w')) as [r e].
    apply I_env, Hw'.
  - intros ms w' Hw'. apply I_env, Hw'.
  - intros hook Hhook e a ms w' Hw'.
    change (Some (fun error attempt delayMs w0 =>
                    match onRetryHook getCachedBlockhash refreshBlockhash config
                            error attempt delayMs w0 with
                    | (inl _, w1) => (None, w1)
                    | (inr x, w1) => (Some x, w1)
                    end) = Some hook) in Hhook.
    injection Hhook as <-.
    pose proof (onRetryHook_preserves e a ms w' Hw') as Hh.
    destruct (onRetryHook _ _ _ e a ms w') as [[u|x] w'']; exact Hh.
Qed.

End Pipeline.

(** *** The invariants of a send *)

Section Invariants.
Context {Env : Type}.
Implicit Types (w : World Env) (il : list TransactionInstruction).

Lemma carries_env (r : nat) il : env_stable (Env := Env) (carries r il).
Proof. intros w e H. exact H. Qed.

Lemma carries_allows (r : nat) il (a : Action) : allows (Env := Env) (carries r il) a.
Proof. intros w H. exact H. Qed.

Lemma carries_sign (r tx : nat) il w (object object' : SolanaTransaction) :
  carries r il w -> heap w !! tx = Some object -> resigned object object' ->
  carries r il (set_heap (<[tx := object']> (heap w)) w).
Proof.
  intros (o & Ho & Hil) Hobj [_ Hsame]. unfold carries. cbn.
  destruct (decide (tx = r)) as [->|Hne].
  - rewrite lookup_insert_eq. exists object'. split; [reflexivity|]. congruence.
  - rewrite lookup_insert_ne by exact Hne. eauto.
Qed.

Lemma works_on_copy_env (transaction copy : nat) (original : SolanaTransaction) il
    (before : list Action) :
  env_stable (Env := Env) (works_on_copy transaction original copy il before).
Proof. intros w e H. exact H. Qed.

Lemma works_on_copy_allows (transaction copy : nat) (original : SolanaTransaction) il
    (before : list Action) (a : Action) :
  submits il a ->
  allows (Env := Env) (works_on_copy transaction original copy il before) a.
Proof.
  intros Ha w (Hu & Hc & added & Ht & Hall). repeat split; [exact Hu | exact Hc |].
  exists (added ++ [a]). cbn. rewrite Ht, app_assoc. split; [reflexivity|].
  apply Forall_app. split; [exact Hall | now constructor].
Qed.

Lemma works_on_copy_sign (transaction copy : nat) (original : SolanaTransaction) il
    (before : list Action) w (object object' : SolanaTransaction) :
  copy <> transaction ->
  works_on_copy transaction original copy il before w ->
  heap w !! copy = Some object -> resigned object object' ->
  works_on_copy transaction original copy il before
    (set_heap (<[copy := object']> (heap w)) w).
Proof.
  intros Hne (Hu & (c & Hc & Hil) & Hs) Hobj [Hkind Hsame].
  rewrite Hc in Hobj. injection Hobj as <-.
  repeat split; [| | exact Hs].
  - unfold untouched. cbn. now rewrite lookup_insert_ne.
  - cbn. rewrite lookup_insert_eq. destruct object' as [c'|v]; [|discriminate].
    exists c'. split; [reflexivity|]. cbn in Hsame. congruence.
Qed.

Lemma works_on_copy_submit (transaction copy : nat) (original : SolanaTransaction) il
    (before : list Action) w (object : SolanaTransaction) :
  works_on_copy transaction original copy il before w ->
  heap w !! copy = Some object ->
  works_on_copy transaction original copy il before
    {| heap := heap w; trace := trace w ++ [Submitted object]; env := env w |}.
Proof.
  intros H Hobj. apply works_on_copy_allows; [|exact H].
  destruct H as (_ & (c & Hc & Hil) & _). rewrite Hc in Hobj. injection Hobj as <-.
  split; [reflexivity | exact Hil].
Qed.

Lemma simulate_calls_snoc (t : list Action) (a : Action) :
  simulate_calls (t ++ [a]) = (simulate_calls t + if is_simulate a then 1 else 0)%nat.
Proof.
  unfold simulate_calls. rewrite List.filter_app, length_app. cbn.
  now destruct (is_simulate a).
Qed.

Lemma sending_events_snoc (t : list Action) (a : Action) :
  sending_events (t ++ [a]) = (sending_events t + if is_sending a then 1 else 0)%nat.
Proof.
  unfold sending_events. rewrite List.filter_app, length_app. cbn.
  now destruct (is_sending a).
Qed.

End Invariants.

(** *** [send] *)

Section Send.
Context {Env : Type}.
Variable now : Env -> Z.
Variable random : Env -> Q * Env.
Variable sleep : Q -> Env -> Env.
Variable pool_getConnection : Env -> (Health.Connection + Thrown) * Env.
Variable pool_sendRaw : SolanaTransaction -> Env -> (string + Thrown) * Env.
Variable getBlockhash : Env -> (Blockhash.BlockhashInfo + Thrown) * Env.
Variable getCachedBlockhash : Env -> option Blockhash.BlockhashInfo.
Variable refreshBlockhash : Env -> (Blockhash.BlockhashInfo + Thrown) * Env.
Variable confirm :
  Health.Connection -> string -> Z -> option ConfirmationConfig -> Env ->
  (ConfirmationResult + Thrown) * Env.
Variable getRecentPrioritizationFees :
  Health.Connection -> option (list string) -> Env -> (list Fee.RecentFee + Thrown) * Env.
Variable rpc_simulateTransaction :
  Health.Connection -> SolanaTransaction -> option (string * bool * bool) -> Env ->
  (SimValue + Thrown) * Env.
Variable signLegacy : list Keypair -> Transaction -> list SignaturePubkeyPair * option Thrown.
Variable signVersioned : list Keypair -> VersionedTransaction -> list string * option Thrown.
Variable config : SenderConfig (Env := Env).

Abbreviation send_ :=
  (send now random sleep pool_getConnection pool_sendRaw getBlockhash getCachedBlockhash
        refreshBlockhash confirm getRecentPrioritizationFees rpc_simulateTransaction
        signLegacy signVersioned config).
Abbreviation prepare_ :=
  (prepareTransaction pool_getConnection getRecentPrioritizationFees config).
Abbreviation resolveFee_ :=
  (resolvePriorityFee pool_getConnection getRecentPrioritizationFees config).
Abbreviation runSimulation_ :=
  (runSimulation pool_getConnection rpc_simulateTransaction config).

(** Resolving the fee only talks to the network. *)
Lemma resolvePriorityFee_env_only (options : option SendOptions) (w : World Env) :
  heap (snd (resolveFee_ options w)) = heap w
  /\ trace (snd (resolveFee_ options w)) = trace w.
Proof.
  set (I := fun w' : World Env => heap w' = heap w /\ trace w' = trace w).
  assert (HI : env_stable I) by (intros w' e H; exact H).
  apply (preserves_snd I); [|split; reflexivity].
  unfold resolvePriorityFee.
  destruct (options ≫= o_priorityFee) as [fee|].
  - destruct (isStaticFee fee); [apply preserves_ret|].
    apply preserves_bind; [now apply preserves_await|]. intros conn.
    apply preserves_bind; [now apply preserves_await | intros; apply preserves_ret].
  - apply preserves_bind; [now apply preserves_await|]. intros conn.
    apply preserves_bind; [now apply preserves_await | intros; apply preserves_ret].
Qed.

Lemma instructions_fold_add (l : list TransactionInstruction) (t : Transaction) :
  instructions (List.fold_left (fun tx ix => add ix tx) l t) = instructions t ++ l.
Proof.
  revert t. induction l as [|ix l IH]; intros t; cbn.
  - now rewrite app_nil_r.
  - rewrite IH. cbn. now rewrite <- app_assoc.
Qed.

(** What [prepareTransaction] returns: the original reference and an
    untouched store, or a new object holding the budgeted instructions. *)
Lemma prepareTransaction_cases (transaction : nat) (options : option SendOptions)
    (w : World Env) (original : SolanaTransaction) :
  heap w !! transaction = Some original ->
  trace (snd (prepare_ transaction options w)) = trace w
  /\ match fst (prepare_ transaction options w) with
     | inr _ => heap (snd (prepare_ transaction options w)) = heap w
     | inl (tx, fee) =>
         (tx = transaction /\ fee = None
          /\ heap (snd (prepare_ transaction options w)) = heap w
          /\ (isLegacyTransaction original = false
              \/ is_disabled (priorityFee config) = true))
         \/ (exists legacy feeAmount c,
               original = Legacy legacy
               /\ is_disabled (priorityFee config) = false
               /\ fee = Some feeAmount
               /\ fst (resolveFee_ options w) = inl feeAmount
               /\ tx <> transaction
               /\ heap (snd (prepare_ transaction options w)) !! transaction = Some original
               /\ heap (snd (prepare_ transaction options w)) !! tx = Some (Legacy c)
               /\ instructions c
                  = budgeted (computeUnitsOf options) feeAmount (instructions legacy))
     end.
Proof.
  intros Horig.
  destruct (prepare_ transaction options w) as [r w'] eqn:Hprep. cbn [fst snd].
  unfold prepareTransaction in Hprep. unfold bind at 1 in Hprep. unfold load in Hprep.
  rewrite Horig in Hprep.
  destruct original as [legacy|v];
    [|injection Hprep as <- <-; split; [reflexivity|]; left; repeat split; auto].
  destruct (is_disabled (priorityFee config)) eqn:Hfee; cbn [negb] in Hprep;
    [injection Hprep as <- <-; split; [reflexivity|]; left; repeat split; auto|].
  unfold bind at 1 in Hprep.
  destruct (resolvePriorityFee_env_only options w) as [Hheap Htrace].
  destruct (resolveFee_ options w) as [[feeAmount|x] w1] eqn:Hres; cbn [fst snd] in *;
    [|injection Hprep as <- <-; auto].
  cbn in Hprep. injection Hprep as <- <-. cbn [trace heap set_heap].
  split; [exact Htrace|]. right.
  set (copy := fresh (dom (heap w1))).
  assert (Hfresh : copy ∉ dom (heap w1)) by apply is_fresh.
  assert (Hne : copy <> transaction).
  { intros Heq. apply Hfresh, elem_of_dom. rewrite Heq, Hheap, Horig. eauto. }
  eexists legacy, feeAmount, _. repeat split; auto.
  - rewrite insert_insert_eq, lookup_insert_ne by exact Hne. now rewrite Hheap.
  - rewrite insert_insert_eq, lookup_insert_eq. reflexivity.
  - rewrite instructions_fold_add. reflexivity.
Qed.

Abbreviation loop_ tx feeAmount options commitment startTime w :=
  (world (withRetry (world_now now) (world_random random) (world_sleep sleep)
            (attempt_once now pool_getConnection pool_sendRaw getBlockhash confirm
               rpc_simulateTransaction signLegacy signVersioned config
               tx feeAmount options commitment startTime)
            (Some (retryConfig getCachedBlockhash refreshBlockhash config options)) w)).

(** The loop preserves a plain invariant. *)
Lemma send_loop_invariant (I : World Env -> Prop) (tx : nat)
    (feeAmount : option Z) (options : option SendOptions)
    (commitment : string) (startTime : Z) (w : World Env) :
  env_stable I ->
  (forall a, is_sending a = false -> is_simulate a = false ->
             match a with Submitted _ => False | _ => True end -> allows I a) ->
  (forall w object object',
     I w -> heap w !! tx = Some object -> resigned object object' ->
     I (set_heap (<[tx := object']> (heap w)) w)) ->
  (forall w object,
     I w -> heap w !! tx = Some object ->
     I {| heap := heap w; trace := trace w ++ [Submitted object]; env := env w |}) ->
  (forall r a, allows I (Emitted (SENDING r a))) ->
  simulation_step config I I options ->
  I w -> I (loop_ tx feeAmount options commitment startTime w).
Proof.
  intros Henv Hallow Hsign Hsubmit Hsending Hsim Hw.
  apply send_loop_preserves with (I' := I); try assumption;
    try (intros e He; apply Hallow; [exact He | reflexivity | constructor]);
    try (intros l; apply Hallow; [reflexivity | reflexivity | constructor]);
    try (intros w0 H; exact H);
    try (intros w0 r a Hw0; now apply Hsending).
Qed.

(** The instruction list of the caller's transaction survives the loop,
    whichever object the loop works on. *)
Lemma send_loop_carries (transaction tx : nat) (il : list TransactionInstruction)
    (feeAmount : option Z) (options : option SendOptions)
    (commitment : string) (startTime : Z) (w : World Env) :
  carries transaction il w ->
  carries transaction il (loop_ tx feeAmount options commitment startTime w).
Proof.
  apply send_loop_invariant.
  - apply carries_env.
  - intros a _ _ _. apply carries_allows.
  - intros w0 object object'. apply carries_sign.
  - intros w0 object H _. exact H.
  - intros r a. apply carries_allows.
  - unfold simulation_step. destruct (skipsSimulation config options); auto.
Qed.

(** A loop that works on a copy leaves the original alone and submits the
    copy's instructions only. *)
Lemma send_loop_works_on_copy (transaction copy : nat) (original : SolanaTransaction)
    (il : list TransactionInstruction) (before : list Action)
    (feeAmount : option Z) (options : option SendOptions)
    (commitment : string) (startTime : Z) (w : World Env) :
  copy <> transaction ->
  works_on_copy transaction original copy il before w ->
  works_on_copy transaction original copy il before
    (loop_ copy feeAmount options commitment startTime w).
Proof.
  intros Hne. apply send_loop_invariant.
  - apply works_on_copy_env.
  - intros a _ _ Ha. apply works_on_copy_allows. now destruct a.
  - intros w0 object object'. now apply works_on_copy_sign.
  - intros w0 object. apply works_on_copy_submit.
  - intros r a. now apply works_on_copy_allows.
  - unfold simulation_step. destruct (skipsSimulation config options); auto.
    intros conn object simConfig w0. now apply works_on_copy_allows.
Qed.

Abbreviation attempt_once_ :=
  (attempt_once now pool_getConnection pool_sendRaw getBlockhash confirm
     rpc_simulateTransaction signLegacy signVersioned config).
Abbreviation signedObject_ := (signedObject signLegacy signVersioned config).
Abbreviation signed_in_place_ := (signed_in_place signLegacy signVersioned config).

Lemma signs_apart_refl (object : SolanaTransaction) : signs_apart object object.
Proof. destruct object; cbn; auto. Qed.

Lemma signs_apart_signed (working object : SolanaTransaction) (blockhash : string)
    (extra : option (list Keypair)) :
  signs_apart working object -> signs_apart working (signedObject_ blockhash extra object).
Proof. destruct working, object; cbn; auto. Qed.

(** What [signTransaction] does to the world: the object at [tx] is
    replaced by its signed form, whether or not [sign] throws. *)
Lemma signTransaction_effect (tx : nat) (blockhash : string)
    (extra : option (list Keypair)) (w : World Env) (object : SolanaTransaction) :
  heap w !! tx = Some object ->
  snd (signTransaction signLegacy signVersioned config tx blockhash extra w)
  = set_heap (<[tx := signedObject_ blockhash extra object]> (heap w)) w.
Proof.
  intros Hobj. unfold signTransaction, bind at 1, load. rewrite Hobj.
  unfold signedObject, allSigners.
  destruct object as [t|t]; cbn beta iota zeta.
  - destruct (signLegacy _ _) as [sigs [x|]]; reflexivity.
  - destruct (signVersioned _ _) as [sigs [x|]]; reflexivity.
Qed.

Lemma signed_state_env (tx : nat) (signed : SolanaTransaction) (sent : bool)
    (w0 : World Env) :
  env_stable (signed_state tx signed sent w0).
Proof. intros w e H. exact H. Qed.

Lemma signed_state_allows (tx : nat) (signed : SolanaTransaction) (sent : bool)
    (w0 : World Env) (a : Action) :
  submits_object signed a -> allows (signed_state tx signed sent w0) a.
Proof.
  intros Ha w (Hheap & added & Htrace & Hall & Hsent). split; [exact Hheap|].
  exists (added ++ [a]). cbn. rewrite Htrace, app_assoc. split; [reflexivity|]. split.
  - apply Forall_app. split; [exact Hall | now constructor].
  - intros H. apply in_or_app. left. auto.
Qed.

Lemma signed_state_sent (tx : nat) (signed : SolanaTransaction) (sent : bool)
    (w0 w : World Env) :
  signed_state tx signed sent w0 w ->
  signed_state tx signed true w0
    {| heap := heap w; trace := trace w ++ [Submitted signed]; env := env w |}.
Proof.
  intros (Hheap & added & Htrace & Hall & _). split; [exact Hheap|].
  exists (added ++ [Submitted signed]). cbn. rewrite Htrace, app_assoc.
  split; [reflexivity|]. split.
  - apply Forall_app. split; [exact Hall|]. constructor; [|constructor].
    intros o [= <-]. reflexivity.
  - intros _. apply in_or_app. right. now left.
Qed.

Lemma signed_state_weaken (tx : nat) (signed : SolanaTransaction)
    (w0 w : World Env) :
  signed_state tx signed true w0 w -> signed_state tx signed false w0 w.
Proof.
  intros (Hheap & added & Htrace & Hall & _). split; [exact Hheap|].
  exists added. repeat split; auto. discriminate.
Qed.

Lemma triple_assume {A : Type} (fact : Prop) (P : World Env -> Prop) (m : M A)
    (Q : A -> World Env -> Prop) (E : World Env -> Prop) :
  (fact -> triple P m Q E) -> triple (fun w => fact /\ P w) m Q E.
Proof. intros H w [Hfact Hw]. now apply H. Qed.

(** One attempt.  If no blockhash can be had the attempt fails at once.
    Otherwise the working transaction is signed where it lies, before
    anything else is done, and nothing but the signed object is submitted;
    an attempt that returns has submitted it. *)
Lemma attempt_once_spec (tx : nat) (feeAmount : option Z) (options : option SendOptions)
    (commitment : string) (startTime : Z) (ctx : RetryContext) (w : World Env)
    (object : SolanaTransaction) :
  heap w !! tx = Some object ->
  let run := attempt_once_ tx feeAmount options commitment startTime ctx w in
  match getBlockhash (env w) with
  | (inr x, e1) => run = (inr x, set_env e1 w)
  | (inl info, e1) =>
      let signed := signedObject_ (Blockhash.blockhash info)
                      (options ≫= o_extraSigners) object in
      signed_state tx signed false w (snd run)
      /\ (forall result, fst run = inl result -> signed_state tx signed true w (snd run))
  end.
Proof.
  intros Hobj run.
  destruct (getBlockhash (env w)) as [[info|x] e1] eqn:Hget.
  2: { unfold run, attempt_once, bind at 1, await. now rewrite Hget. }
  intros signed.
  assert (Hattempt :
    triple (fun w1 => w1 = w)
           (attempt_once_ tx feeAmount options commitment startTime ctx)
           (fun _ => signed_state tx signed true w) (signed_state tx signed false w)).
  { unfold attempt_once.
    eapply triple_bind
      with (R := fun info' w1 => info' = info /\ w1 = set_env e1 w).
    { intros w1 ->. unfold await. rewrite Hget. auto. }
    intros info'. apply triple_assume. intros ->.
    eapply triple_bind with (R := fun _ => signed_state tx signed false w).
    { intros w1 ->.
      pose proof (signTransaction_effect tx (Blockhash.blockhash info)
                    (options ≫= o_extraSigners) (set_env e1 w) object Hobj) as Hsign.
      assert (Hs : signed_state tx signed false w
                     (set_heap (<[tx := signed]> (heap (set_env e1 w))) (set_env e1 w))).
      { split; [reflexivity|]. exists []. cbn. rewrite app_nil_r.
        repeat split; [constructor | discriminate]. }
      destruct (signTransaction _ _ _ _ _ _ _) as [[u|x] w2]; cbn [snd] in Hsign;
        subst w2; exact Hs. }
    intros u1.
    eapply triple_bind with (R := fun _ => signed_state tx signed false w).
    { apply runSimulation_spec with (I' := signed_state tx signed false w).
      - apply signed_state_env.
      - apply signed_state_env.
      - intros e _. apply signed_state_allows. intros o [=].
      - intros l. apply signed_state_allows. intros o [=].
      - auto.
      - unfold simulation_step. destruct (skipsSimulation config options); [auto|].
        intros conn o simConfig w1. apply signed_state_allows. intros o' [=]. }
    intros units.
    eapply triple_bind with (R := fun _ => signed_state tx signed false w).
    { apply preserves_record, signed_state_allows. intros o [=]. }
    intros u2.
    eapply triple_bind with (R := fun _ => signed_state tx signed true w).
    { unfold sendRawTransaction, bind, load, record, await.
      intros w1 Hw1. pose proof Hw1 as (Hheap & _).
      rewrite Hheap, lookup_insert_eq.
      pose proof (signed_state_sent _ _ _ _ _ Hw1) as Hsent.
      destruct (pool_sendRaw signed _) as [[signature|x] e2]; cbn.
      - exact Hsent.
      - apply signed_state_weaken. exact Hsent. }
    intros signature.
    assert (Hweak : forall (m : M SendResult),
              preserves (signed_state tx signed true w) m ->
              triple (signed_state tx signed true w) m
                     (fun _ => signed_state tx signed true w)
                     (signed_state tx signed false w)).
    { intros m Hm. eapply triple_weaken; [exact Hm | auto | auto |].
      apply signed_state_weaken. }
    apply Hweak.
    apply preserves_bind.
    { apply preserves_record, signed_state_allows. intros o [=]. }
    intros u3.
    destruct (default false (options ≫= o_skipConfirmation)).
    - apply buildResult_preserves.
    - apply preserves_bind; [|intros slot; apply buildResult_preserves].
      apply awaitConfirmation_preserves.
      + apply signed_state_env.
      + intros e _. apply signed_state_allows. intros o [=]. }
  specialize (Hattempt w eq_refl). fold run in Hattempt.
  destruct run as [[result|x] w1]; cbn [fst snd]; split;
    [now apply signed_state_weaken | intros r _; exact Hattempt
     | exact Hattempt | discriminate].
Qed.

(** An attempt keeps working on the object it was given. *)
Lemma attempt_once_working_on (tx : nat) (working : SolanaTransaction)
    (before : list Action) (feeAmount : option Z) (options : option SendOptions)
    (commitment : string) (startTime : Z) (ctx : RetryContext) (w : World Env) :
  working_on tx working before w ->
  working_on tx working before
    (snd (attempt_once_ tx feeAmount options commitment startTime ctx w)).
Proof.
  intros ((object & Hobj & Hapart) & added & Htrace).
  pose proof (attempt_once_spec tx feeAmount options commitment startTime ctx w
                object Hobj) as Hspec.
  cbv zeta in Hspec.
  destruct (getBlockhash (env w)) as [[info|x] e1].
  - destruct Hspec as ((Hheap & added' & Htrace' & _) & _). split.
    + eexists. rewrite Hheap, lookup_insert_eq. split; [reflexivity|].
      now apply signs_apart_signed.
    + exists (added ++ added'). now rewrite Htrace', Htrace, app_assoc.
  - rewrite Hspec. cbn. split; eauto.
Qed.

(** Once signed in place, the working transaction stays so. *)
Lemma attempt_once_signed_in_place (tx : nat) (working : SolanaTransaction)
    (feeAmount : option Z) (options : option SendOptions)
    (commitment : string) (startTime : Z) (ctx : RetryContext) (w : World Env) :
  signed_in_place_ tx working (options ≫= o_extraSigners) w ->
  signed_in_place_ tx working (options ≫= o_extraSigners)
    (snd (attempt_once_ tx feeAmount options commitment startTime ctx w)).
Proof.
  intros (b & object & Hapart & Hobj).
  pose proof (attempt_once_spec tx feeAmount options commitment startTime ctx w
                _ Hobj) as Hspec.
  cbv zeta in Hspec.
  destruct (getBlockhash (env w)) as [[info|x] e1].
  - destruct Hspec as ((Hheap & _) & _).
    exists (Blockhash.blockhash info), (signedObject_ b (options ≫= o_extraSigners) object).
    split; [now apply signs_apart_signed|].
    now rewrite Hheap, lookup_insert_eq.
  - rewrite Hspec. cbn. exists b, object. auto.
Qed.

Lemma onRetryHook_frame (I : World Env -> Prop) (hook : _) (options : option SendOptions) :
  env_stable I -> (forall a, allows I a) ->
  onRetry (resolve (Some (retryConfig getCachedBlockhash refreshBlockhash config options)))
  = Some hook ->
  forall e a ms w, I w -> I (snd (hook e a ms w)).
Proof.
  intros Henv Hallow Hhook e a ms w Hw.
  change (Some (fun error attempt delayMs w0 =>
                  match onRetryHook getCachedBlockhash refreshBlockhash config
                          error attempt delayMs w0 with
                  | (inl _, w1) => (None, w1)
                  | (inr x, w1) => (Some x, w1)
                  end) = Some hook) in Hhook.
  injection Hhook as <-.
  pose proof (onRetryHook_preserves getCachedBlockhash refreshBlockhash config I Henv
                (fun ev _ => Hallow (Emitted ev)) e a ms w Hw) as Hh.
  destruct (onRetryHook _ _ _ e a ms w) as [[u|x] w'']; exact Hh.
Qed.

(** What the first attempt establishes and the attempts preserve holds
    when the loop ends. *)
Lemma send_loop_established (I : World Env -> Prop) (tx : nat)
    (feeAmount : option Z) (options : option SendOptions)
    (commitment : string) (startTime : Z) (w : World Env) :
  env_stable I -> (forall a, allows I a) ->
  (forall ctx w0, I w0 ->
     I (snd (attempt_once_ tx feeAmount options commitment startTime ctx w0))) ->
  (forall ctx, I (snd (attempt_once_ tx feeAmount options commitment startTime ctx w))) ->
  I (loop_ tx feeAmount options commitment startTime w).
Proof.
  intros Henv Hallow Hattempt Hfirst. unfold withRetry.
  apply RetryFacts.attempts_established; [exact Hattempt | | | | exact Hfirst].
  - intros w' Hw'. unfold world_random. destruct (random (env w')) as [r e].
    apply Henv, Hw'.
  - intros ms w' Hw'. apply Henv, Hw'.
  - intros hook Hhook. now apply (onRetryHook_frame I hook options).
Qed.

(** A send loop that resolves does so with an attempt that returned, begun
    in a world where the invariant of the loop held. *)
Lemma send_loop_resolved_from (I : World Env -> Prop) (tx : nat)
    (feeAmount : option Z) (options : option SendOptions)
    (commitment : string) (startTime : Z) (w : World Env) (result : SendResult) :
  env_stable I -> (forall a, allows I a) ->
  (forall ctx w0, I w0 ->
     I (snd (attempt_once_ tx feeAmount options commitment startTime ctx w0))) ->
  I w ->
  outcome (withRetry (world_now now) (world_random random) (world_sleep sleep)
             (attempt_once_ tx feeAmount options commitment startTime)
             (Some (retryConfig getCachedBlockhash refreshBlockhash config options)) w)
  = Resolved result ->
  exists ctx w0,
    I w0
    /\ attempt_once_ tx feeAmount options commitment startTime ctx w0
       = (inl result, loop_ tx feeAmount options commitment startTime w).
Proof.
  intros Henv Hallow Hattempt Hw. unfold withRetry.
  apply RetryFacts.attempts_resolved_from; [exact Hattempt | | | | exact Hw].
  - intros w' Hw'. unfold world_random. destruct (random (env w')) as [r e].
    apply Henv, Hw'.
  - intros ms w' Hw'. apply Henv, Hw'.
  - intros hook Hhook. now apply (onRetryHook_frame I hook options).
Qed.

(** If the first attempt gets a blockhash, the working transaction ends
    signed in place, however the send ends. *)
Lemma send_loop_signs (tx : nat) (working : SolanaTransaction)
    (feeAmount : option Z) (options : option SendOptions)
    (commitment : string) (startTime : Z) (w : World Env)
    (info : Blockhash.BlockhashInfo) (e1 : Env) :
  heap w !! tx = Some working ->
  getBlockhash (env w) = (inl info, e1) ->
  signed_in_place_ tx working (options ≫= o_extraSigners)
    (loop_ tx feeAmount options commitment startTime w).
Proof.
  intros Hobj Hget. apply send_loop_established.
  - intros w0 e H. exact H.
  - intros a w0 H. exact H.
  - intros ctx w0. apply attempt_once_signed_in_place.
  - intros ctx.
    pose proof (attempt_once_spec tx feeAmount options commitment startTime ctx w
                  working Hobj) as Hspec.
    cbv zeta in Hspec. rewrite Hget in Hspec.
    destruct Hspec as ((Hheap & _) & _).
    exists (Blockhash.blockhash info), working.
    split; [apply signs_apart_refl|]. now rewrite Hheap, lookup_insert_eq.
Qed.

(** A send loop that resolves leaves the working transaction signed in
    place, and has submitted it as it is then. *)
Lemma send_loop_submits (tx : nat) (working : SolanaTransaction)
    (feeAmount : option Z) (options : option SendOptions)
    (commitment : string) (startTime : Z) (w : World Env) (result : SendResult) :
  heap w !! tx = Some working ->
  outcome (withRetry (world_now now) (world_random random) (world_sleep sleep)
             (attempt_once_ tx feeAmount options commitment startTime)
             (Some (retryConfig getCachedBlockhash refreshBlockhash config options)) w)
  = Resolved result ->
  exists blockhash object,
    signs_apart working object
    /\ heap (loop_ tx feeAmount options commitment startTime w) !! tx
       = Some (signedObject_ blockhash (options ≫= o_extraSigners) object)
    /\ submitted_since (trace w)
         (signedObject_ blockhash (options ≫= o_extraSigners) object)
         (loop_ tx feeAmount options commitment startTime w).
Proof.
  intros Hobj Hres.
  destruct (send_loop_resolved_from (working_on tx working (trace w)) tx feeAmount
              options commitment startTime w result) as (ctx & w0 & Hw0 & Hcall).
  - intros w0 e H. exact H.
  - intros a w0 (H & added & Htrace). split; [exact H|].
    exists (added ++ [a]). cbn. now rewrite Htrace, app_assoc.
  - intros ctx w0. apply attempt_once_working_on.
  - split; [exists working; split; [exact Hobj | apply signs_apart_refl]|].
    exists []. now rewrite app_nil_r.
  - exact Hres.
  - destruct Hw0 as ((object & Hobj0 & Hapart) & added & Htrace).
    pose proof (attempt_once_spec tx feeAmount options commitment startTime ctx w0
                  object Hobj0) as Hspec.
    cbv zeta in Hspec. rewrite Hcall in Hspec.
    destruct (getBlockhash (env w0)) as [[info|x] e1]; [|discriminate].
    destruct Hspec as (_ & Hsent). cbn [fst snd] in Hsent.
    destruct (Hsent result eq_refl) as (Hheap & added' & Htrace' & _ & Hin).
    exists (Blockhash.blockhash info), object. split; [exact Hapart|]. split.
    + now rewrite Hheap, lookup_insert_eq.
    + exists (added ++ added'). split; [now rewrite Htrace', Htrace, app_assoc|].
      apply in_or_app. right. now apply Hin.
Qed.

Lemma budgeted_shape (computeUnits feeAmount : Z) (l : list TransactionInstruction) :
  let il := budgeted computeUnits feeAmount l in
  take 2 il = [setComputeUnitLimit computeUnits; setComputeUnitPrice feeAmount]
  /\ drop 2 il = List.filter (fun ix => negb (isComputeBudget ix)) l
  /\ List.filter isComputeBudget il = take 2 il.
Proof.
  cbn. repeat split. f_equal. f_equal.
  induction l as [|ix l IH]; [reflexivity|]. cbn.
  destruct (isComputeBudget ix) eqn:Hix; cbn; [exact IH|]. now rewrite Hix.
Qed.

(** C2 (amended).  Whatever [send] does and however it ends, the
    instruction list of the caller's transaction object is the one it had.
    For a legacy transaction with priority fees enabled the object as a
    whole is unchanged: the pipeline works on a copy, a new object whose
    instructions are the fresh compute-budget pair (CU limit, then CU
    price at the resolved fee) followed by the original's instructions
    without its own compute-budget instructions, and every transaction it
    submits is a legacy transaction with these instructions; if the fee
    cannot be resolved nothing is submitted.  For a versioned transaction
    the working transaction is the caller's object itself.  In both cases,
    if the first attempt obtains a blockhash the working transaction ends
    signed in place (blockhash written into it, signatures installed),
    and a send that resolves has submitted the working transaction as it
    is then.  Every attempt that obtains a blockhash first replaces the
    working transaction by its signed form, submits nothing else, and has
    submitted it when it returns. *)
Theorem send_works_on_a_copy (transaction : nat) (options : option SendOptions)
    (w : World Env) (original : SolanaTransaction) :
  heap w !! transaction = Some original ->
  let w' := snd (send_ transaction options w) in
  let extra := options ≫= o_extraSigners in
  carries transaction (instruction_list original) w'
  /\ (forall legacy,
        original = Legacy legacy -> is_disabled (priorityFee config) = false ->
        untouched transaction original w'
        /\ (forall x, fst (resolveFee_ options w) = inr x -> trace w' = trace w)
        /\ (forall feeAmount,
              fst (resolveFee_ options w) = inl feeAmount ->
              let il := budgeted (computeUnitsOf options) feeAmount (instructions legacy) in
              submitted_only (trace w) il w'
              /\ take 2 il = [setComputeUnitLimit (computeUnitsOf options);
                              setComputeUnitPrice feeAmount]
              /\ drop 2 il = List.filter (fun ix => negb (isComputeBudget ix))
                                         (instructions legacy)
              /\ List.filter isComputeBudget il = take 2 il
              /\ exists copy,
                   copy <> transaction
                   /\ fst (prepare_ transaction options w) = inl (copy, Some feeAmount)
                   /\ (forall info e1,
                         getBlockhash (env (snd (prepare_ transaction options w)))
                         = (inl info, e1) ->
                         exists blockhash c,
                           instructions c = il
                           /\ heap w' !! copy
                              = Some (signedObject_ blockhash extra (Legacy c)))
                   /\ (forall result,
                         fst (send_ transaction options w) = Resolved result ->
                         exists blockhash c,
                           instructions c = il
                           /\ heap w' !! copy
                              = Some (signedObject_ blockhash extra (Legacy c))
                           /\ submitted_since (trace w)
                                (signedObject_ blockhash extra (Legacy c)) w')))
  /\ (forall v,
        original = Versioned v ->
        prepare_ transaction options w = (inl (transaction, None), w)
        /\ (forall info e1,
              getBlockhash (env w) = (inl info, e1) ->
              signed_in_place_ transaction original extra w')
        /\ (forall result,
              fst (send_ transaction options w) = Resolved result ->
              exists blockhash object,
                signs_apart original object
                /\ heap w' !! transaction = Some (signedObject_ blockhash extra object)
                /\ submitted_since (trace w) (signedObject_ blockhash extra object) w'))
  /\ (forall tx feeAmount commitment startTime ctx w0 object info e1,
        heap w0 !! tx = Some object ->
        getBlockhash (env w0) = (inl info, e1) ->
        let signed := signedObject_ (Blockhash.blockhash info) extra object in
        let run := attempt_once_ tx feeAmount options commitment startTime ctx w0 in
        signed_state tx signed false w0 (snd run)
        /\ (forall result, fst run = inl result ->
              signed_state tx signed true w0 (snd run))).
Proof.
  intros Horig w' extra.
  assert (Hattempt :
    forall tx feeAmount commitment startTime ctx w0 object info e1,
      heap w0 !! tx = Some object ->
      getBlockhash (env w0) = (inl info, e1) ->
      let signed := signedObject_ (Blockhash.blockhash info) extra object in
      let run := attempt_once_ tx feeAmount options commitment startTime ctx w0 in
      signed_state tx signed false w0 (snd run)
      /\ (forall result, fst run = inl result ->
            signed_state tx signed true w0 (snd run))).
  { intros tx feeAmount commitment startTime ctx w0 object info e1 Hobj Hget.
    pose proof (attempt_once_spec tx feeAmount options commitment startTime ctx w0
                  object Hobj) as Hspec.
    cbv zeta in Hspec. rewrite Hget in Hspec. exact Hspec. }
  pose proof (prepareTransaction_cases transaction options w original Horig)
    as [Htrace Hcases].
  assert (Hw' : w' = match prepare_ transaction options w with
                     | (inr x, w1) => w1
                     | (inl (tx, feeAmount), w1) =>
                         loop_ tx feeAmount options
                           (default (default "confirmed" (commitment config))
                                    (options ≫= o_commitment))
                           (now (env w)) w1
                     end).
  { unfold w', send. destruct (prepare_ transaction options w) as [[[tx fee]|x] w1];
      reflexivity. }
  assert (Hout : fst (send_ transaction options w)
                 = match prepare_ transaction options w with
                   | (inr x, w1) => Rejected x
                   | (inl (tx, feeAmount), w1) =>
                       outcome
                         (withRetry (world_now now) (world_random random) (world_sleep sleep)
                            (attempt_once_ tx feeAmount options
                               (default (default "confirmed" (commitment config))
                                        (options ≫= o_commitment))
                               (now (env w)))
                            (Some (retryConfig getCachedBlockhash refreshBlockhash
                                     config options)) w1)
                   end).
  { unfold send. destruct (prepare_ transaction options w) as [[[tx fee]|x] w1];
      reflexivity. }
  clearbody w'.
  destruct (prepare_ transaction options w) as [[[tx fee]|x] w1] eqn:Hprep;
    cbn [fst snd] in Htrace, Hcases |- *.
  - (* a working transaction was prepared *)
    assert (Hcarries : carries transaction (instruction_list original) w1).
    { destruct Hcases as [(-> & _ & Hheap & _)|(l & f & c & _ & _ & _ & _ & _ & Hsame & _)].
      - exists original. now rewrite Hheap.
      - exists original. auto. }
    split; [rewrite Hw'; now apply send_loop_carries|]. split; [|split].
    + intros legacy -> Hfee.
      destruct Hcases as [(_ & _ & _ & [Hv|Hd])|
                          (l & f & c & Hl & _ & -> & Hres & Hne & Hsame & Hcopy & Hil)];
        [discriminate | congruence |].
      injection Hl as <-.
      assert (HJ : works_on_copy transaction (Legacy legacy) tx
                     (budgeted (computeUnitsOf options) f (instructions legacy))
                     (trace w) w').
      { rewrite Hw'. apply send_loop_works_on_copy; [exact Hne|].
        repeat split; [exact Hsame | eauto |].
        exists []. rewrite app_nil_r. auto. }
      destruct HJ as (Hu & _ & Hsub).
      split; [exact Hu|]. split.
      * intros x Hx. rewrite Hres in Hx. discriminate.
      * intros feeAmount Hf. rewrite Hres in Hf. injection Hf as <-.
        split; [exact Hsub|].
        destruct (budgeted_shape (computeUnitsOf options) f (instructions legacy))
          as (Htake & Hdrop & Hfilter).
        split; [exact Htake|]. split; [exact Hdrop|]. split; [exact Hfilter|].
        exists tx. split; [exact Hne|]. split; [reflexivity|]. split.
        -- intros info e1 Hget.
           pose proof (send_loop_signs tx (Legacy c) (Some f) options
                         (default (default "confirmed" (commitment config))
                                  (options ≫= o_commitment))
                         (now (env w)) w1 info e1 Hcopy Hget)
             as (b & object & Hapart & Hsigned).
           rewrite <- Hw' in Hsigned.
           destruct object as [c'|v']; [|contradiction]. cbn in Hapart.
           exists b, c'. split; [congruence | exact Hsigned].
        -- intros result Hresult. rewrite Hout in Hresult.
           pose proof (send_loop_submits tx (Legacy c) (Some f) options _ _ w1 result
                         Hcopy Hresult)
             as (b & object & Hapart & Hsigned & Hsubmitted).
           rewrite <- Hw' in Hsigned, Hsubmitted. rewrite Htrace in Hsubmitted.
           destruct object as [c'|v']; [|contradiction]. cbn in Hapart.
           exists b, c'. split; [congruence|]. split; [exact Hsigned | exact Hsubmitted].
    + intros v ->.
      assert (Hsame : tx = transaction /\ fee = None /\ w1 = w).
      { unfold prepareTransaction, bind, load in Hprep. rewrite Horig in Hprep.
        injection Hprep as <- <- <-. auto. }
      destruct Hsame as (-> & -> & ->).
      split; [reflexivity|]. split.
      * intros info e1 Hget. rewrite Hw'. now apply (send_loop_signs _ _ _ _ _ _ _ info e1).
      * intros result Hresult. rewrite Hout in Hresult. rewrite Hw'.
        now apply (send_loop_submits _ _ _ _ _ _ _ result).
    + exact Hattempt.
  - (* preparation threw *)
    rewrite Hw'. split; [exists original; now rewrite Hcases|]. split; [|split].
    + intros legacy -> Hfee. split; [unfold untouched; now rewrite Hcases|]. split.
      * intros _ _. exact Htrace.
      * intros feeAmount Hf. exfalso.
        unfold prepareTransaction in Hprep. unfold bind at 1 in Hprep.
        unfold load in Hprep. rewrite Horig, Hfee in Hprep. cbn [negb] in Hprep.
        unfold bind at 1 in Hprep.
        destruct (resolveFee_ options w) as [[f|x'] w2]; [|discriminate].
        cbn in Hprep. discriminate.
    + intros v ->. unfold prepareTransaction, bind, load in Hprep.
      rewrite Horig in Hprep. discriminate.
    + exact Hattempt.
Qed.

(** [simulateTransaction] puts its call on record first; what follows adds
    log lines only. *)
Lemma simulateTransaction_records (conn : Health.Connection)
    (object : SolanaTransaction) (simConfig : option SimulationConfig) (w : World Env) :
  let w' := snd (simulateTransaction rpc_simulateTransaction conn object simConfig w) in
  heap w' = heap w
  /\ exists rest,
       trace w' = trace w ++ CalledSimulate conn object simConfig :: rest
       /\ simulate_calls rest = 0%nat.
Proof.
  cbn zeta.
  destruct (simulateTransaction rpc_simulateTransaction conn object simConfig w)
    as [r w'] eqn:Hrun. cbn [snd].
  unfold simulateTransaction in Hrun. unfold bind at 1 in Hrun.
  unfold record, await in Hrun. cbn [env] in Hrun.
  destruct (rpc_simulateTransaction conn object _ (env w)) as [[value|x] e].
  - destruct (err value); cbn in Hrun; injection Hrun as <- <-; cbn;
      (split; [reflexivity|]);
      eexists; (split; [rewrite <- app_assoc; reflexivity | reflexivity]).
  - injection Hrun as <- <-. cbn. split; [reflexivity|]. exists []. split; [|reflexivity].
    reflexivity.
Qed.

Lemma simulate_calls_app (t1 t2 : list Action) :
  simulate_calls (t1 ++ t2) = (simulate_calls t1 + simulate_calls t2)%nat.
Proof. unfold simulate_calls. now rewrite List.filter_app, length_app. Qed.

(** When the step is not skipped and a connection is available,
    [runSimulation] invokes [simulateTransaction] on the working
    transaction, exactly once. *)
Lemma runSimulation_invokes (tx : nat) (options : option SendOptions) (w : World Env)
    (conn : Health.Connection) (e : Env) (object : SolanaTransaction) :
  skipsSimulation config options = false ->
  pool_getConnection (env w) = (inl conn, e) ->
  heap w !! tx = Some object ->
  let w' := snd (runSimulation_ tx options w) in
  (exists rest,
     trace w' = trace w ++ CalledSimulate conn object (simConfigOf config) :: rest)
  /\ simulate_calls (trace w') = S (simulate_calls (trace w)).
Proof.
  intros Hskip Hconn Hobj. cbn zeta.
  destruct (runSimulation_ tx options w) as [r w'] eqn:Hrun. cbn [snd].
  unfold runSimulation in Hrun. rewrite Hskip in Hrun.
  unfold bind at 1 in Hrun. unfold await at 1 in Hrun. rewrite Hconn in Hrun.
  unfold bind at 1 in Hrun. unfold load in Hrun. cbn [heap set_env] in Hrun.
  rewrite Hobj in Hrun. unfold bind at 1 in Hrun.
  fold (simConfigOf config) in Hrun.
  pose proof (simulateTransaction_records conn object (simConfigOf config) (set_env e w))
    as (Hheap & rest & Htrace & Hrest).
  cbn [trace set_env] in Htrace.
  assert (Hcount : forall more,
            simulate_calls more = 0%nat ->
            simulate_calls
              ((trace w ++ CalledSimulate conn object (simConfigOf config) :: rest) ++ more)
            = S (simulate_calls (trace w))).
  { intros more Hmore. rewrite !simulate_calls_app, Hmore.
    change (simulate_calls (CalledSimulate conn object (simConfigOf config) :: rest))
      with (S (simulate_calls rest)).
    rewrite Hrest. lia. }
  destruct (simulateTransaction rpc_simulateTransaction conn object (simConfigOf config)
              (set_env e w)) as [[result|x] w1]; cbn [snd] in Htrace.
  - unfold bind, emit, record in Hrun.
    destruct (negb (success result)); cbn in Hrun; injection Hrun as <- <-;
      cbn [trace]; rewrite Htrace; (split; [|now apply Hcount]);
      eexists; rewrite <- app_assoc; reflexivity.
  - injection Hrun as <- <-. rewrite Htrace. split; [eauto|].
    rewrite <- (app_nil_r (trace w ++ _)). now apply Hcount.
Qed.

Lemma send_world (transaction : nat) (options : option SendOptions) (w : World Env) :
  snd (send_ transaction options w)
  = match prepare_ transaction options w with
    | (inr x, w1) => w1
    | (inl (tx, feeAmount), w1) =>
        loop_ tx feeAmount options
          (default (default "confirmed" (commitment config)) (options ≫= o_commitment))
          (now (env w)) w1
    end.
Proof.
  unfold send. destruct (prepare_ transaction options w) as [[[tx fee]|x] w1]; reflexivity.
Qed.

Lemma prepareTransaction_trace (transaction : nat) (options : option SendOptions)
    (w : World Env) :
  trace (snd (prepare_ transaction options w)) = trace w.
Proof.
  destruct (heap w !! transaction) as [original|] eqn:Horig.
  - apply (prepareTransaction_cases transaction options w original Horig).
  - unfold prepareTransaction, bind, load. now rewrite Horig.
Qed.

(** A send that skips the simulation step records no call. *)
Lemma send_skipping (transaction : nat) (options : option SendOptions) (w : World Env) :
  skipsSimulation config options = true ->
  simulate_calls (trace (snd (send_ transaction options w))) = simulate_calls (trace w).
Proof.
  intros Hskip. rewrite send_world.
  pose proof (prepareTransaction_trace transaction options w) as Htrace.
  destruct (prepare_ transaction options w) as [[[tx fee]|x] w1]; cbn [snd] in Htrace;
    [|now rewrite Htrace].
  change (simulated (simulate_calls (trace w))
            (loop_ tx fee options
               (default (default "confirmed" (commitment config)) (options ≫= o_commitment))
               (now (env w)) w1)).
  apply send_loop_invariant.
  - intros w0 e H. exact H.
  - intros a _ Ha _ w0 H. unfold simulated in *. cbn [trace].
    rewrite simulate_calls_snoc, Ha. lia.
  - intros w0 object object' H _ _. exact H.
  - intros w0 object H _. unfold simulated in *. cbn [trace].
    rewrite simulate_calls_snoc. cbn [is_simulate]. lia.
  - intros r a w0 H. unfold simulated in *. cbn [trace].
    rewrite simulate_calls_snoc. cbn [is_simulate]. lia.
  - unfold simulation_step. rewrite Hskip. auto.
  - unfold simulated. now rewrite Htrace.
Qed.

(** A send that does not skip the step has simulated before every SENDING
    event it emits. *)
Lemma send_simulating (transaction : nat) (options : option SendOptions) (w : World Env)
    (d : Z) :
  skipsSimulation config options = false ->
  simulated_ahead d w -> simulated_ahead d (snd (send_ transaction options w)).
Proof.
  intros Hskip Hd. rewrite send_world.
  pose proof (prepareTransaction_trace transaction options w) as Htrace.
  destruct (prepare_ transaction options w) as [[[tx fee]|x] w1]; cbn [snd] in Htrace;
    [|unfold simulated_ahead; now rewrite Htrace].
  apply send_loop_preserves with (I' := simulated_ahead (d + 1));
    unfold simulated_ahead, env_stable, allows in *; cbn [trace set_env set_heap].
  - intros; assumption.
  - intros e He w0 H. rewrite simulate_calls_snoc, sending_events_snoc, He.
    cbn [is_simulate]. lia.
  - intros; assumption.
  - intros w0 object H _. rewrite simulate_calls_snoc, sending_events_snoc.
    cbn [is_simulate is_sending]. lia.
  - intros; assumption.
  - intros e He w0 H. rewrite simulate_calls_snoc, sending_events_snoc, He.
    cbn [is_simulate]. lia.
  - intros l w0 H. rewrite simulate_calls_snoc, sending_events_snoc.
    cbn [is_simulate is_sending]. lia.
  - intros w0 H. lia.
  - intros w0 r a H. rewrite simulate_calls_snoc, sending_events_snoc.
    cbn [is_simulate is_sending]. lia.
  - unfold simulation_step. rewrite Hskip. intros conn object simConfig w0 H.
    cbn [trace]. rewrite simulate_calls_snoc, sending_events_snoc.
    cbn [is_simulate is_sending]. lia.
  - now rewrite Htrace.
Qed.

(** C3 (amended).  The per-send option decides whenever it is given.  On a
    sender whose configuration disables simulation, a send whose options
    leave [skipSimulation] out never invokes [simulateTransaction]; a send
    that passes [skipSimulation = true] never does, whatever the
    configuration.  A send that passes [skipSimulation = false] does not
    skip the step, even when the configuration disables simulation:
    [runSimulation] then invokes [simulateTransaction] once on the working
    transaction as soon as the pool hands out a connection (without a
    simulation configuration if none is configured), and over the whole
    send at least as many calls of [simulateTransaction] are recorded as
    SENDING events are emitted. *)
Theorem skipSimulation_option_decides (transaction : nat)
    (options : option SendOptions) (w : World Env) :
  let w' := snd (send_ transaction options w) in
  (simulation config = Disabled ->
   options ≫= o_skipSimulation <> Some false ->
   simulate_calls (trace w') = simulate_calls (trace w))
  /\ (options ≫= o_skipSimulation = Some true ->
      simulate_calls (trace w') = simulate_calls (trace w))
  /\ (options ≫= o_skipSimulation = Some false ->
      skipsSimulation config options = false
      /\ (forall tx w0 conn e object,
            pool_getConnection (env w0) = (inl conn, e) ->
            heap w0 !! tx = Some object ->
            (exists rest,
               trace (snd (runSimulation_ tx options w0))
               = trace w0 ++ CalledSimulate conn object (simConfigOf config) :: rest)
            /\ simulate_calls (trace (snd (runSimulation_ tx options w0)))
               = S (simulate_calls (trace w0)))
      /\ (simulation config = Disabled -> simConfigOf config = None)
      /\ Z.of_nat (sending_events (trace w')) - Z.of_nat (sending_events (trace w))
         <= Z.of_nat (simulate_calls (trace w')) - Z.of_nat (simulate_calls (trace w))).
Proof.
  intros w'. split; [|split].
  - intros Hdisabled Hopt. apply send_skipping. unfold skipsSimulation.
    rewrite Hdisabled. destruct (options ≫= o_skipSimulation) as [[|]|]; cbn; congruence.
  - intros Hopt. apply send_skipping. unfold skipsSimulation. now rewrite Hopt.
  - intros Hopt.
    assert (Hskip : skipsSimulation config options = false)
      by (unfold skipsSimulation; now rewrite Hopt).
    split; [exact Hskip|]. split; [|split].
    + intros tx w0 conn e object Hconn Hobj.
      now apply (runSimulation_invokes tx options w0 conn e object).
    + intros Hdisabled. unfold simConfigOf. now rewrite Hdisabled.
    + pose proof (send_simulating transaction options w
                    (Z.of_nat (simulate_calls (trace w))
                     - Z.of_nat (sending_events (trace w))) Hskip) as H.
      unfold simulated_ahead in H. fold w' in H. lia.
Qed.

End Send.

(** *** The scenario *)

(** A legacy and a versioned transfer sent with default settings, through
    the theorem.  Legacy: the caller's object is untouched, what was
    submitted carries the fresh pair in front of the transfer, and the
    send, which resolves, has signed a copy and submitted it.  Versioned:
    the caller's own object ends signed in place. *)
Lemma send_works_on_a_copy_witness :
  untouched 0 legacy_transfer (snd (calm_send Unset Unset 0 None (world_with legacy_transfer)))
  /\ submitted_only []
       [setComputeUnitLimit 200000; setComputeUnitPrice 3000; transfer]
       (snd (calm_send Unset Unset 0 None (world_with legacy_transfer)))
  /\ (exists copy blockhash c,
        copy <> 0%nat
        /\ instructions c = [setComputeUnitLimit 200000; setComputeUnitPrice 3000; transfer]
        /\ heap (snd (calm_send Unset Unset 0 None (world_with legacy_transfer))) !! copy
           = Some (signedObject calm_signLegacy calm_signVersioned (calm_config Unset Unset)
                     blockhash None (Legacy c))
        /\ submitted_since []
             (signedObject calm_signLegacy calm_signVersioned (calm_config Unset Unset)
                blockhash None (Legacy c))
             (snd (calm_send Unset Unset 0 None (world_with legacy_transfer))))
  /\ signed_in_place calm_signLegacy calm_signVersioned (calm_config Unset Unset)
       0 versioned_transfer None
       (snd (calm_send Unset Unset 0 None (world_with versioned_transfer))).
Proof.
  pose proof (send_works_on_a_copy calm_now calm_random calm_sleep calm_getConnection
                calm_sendRaw calm_getBlockhash calm_getCachedBlockhash calm_getBlockhash
                calm_confirm calm_fees calm_simulate calm_signLegacy calm_signVersioned
                (calm_config Unset Unset) 0 None (world_with legacy_transfer)
                legacy_transfer eq_refl) as (_ & Hlegacy & _).
  destruct (Hlegacy _ eq_refl eq_refl) as (Hu & _ & Hsub).
  destruct (Hsub 3000 eq_refl) as (H & _ & _ & _ & copy & Hne & _ & _ & Hresolved).
  split; [exact Hu|]. split; [exact H|]. split.
  - assert (exists result,
              fst (calm_send Unset Unset 0 None (world_with legacy_transfer))
              = Resolved result) as [result Hresult]
      by (vm_compute; eexists; reflexivity).
    destruct (Hresolved result Hresult) as (blockhash & c & Hil & Hheap & Hsubmitted).
    exists copy, blockhash, c. repeat split; assumption.
  - pose proof (send_works_on_a_copy calm_now calm_random calm_sleep calm_getConnection
                  calm_sendRaw calm_getBlockhash calm_getCachedBlockhash calm_getBlockhash
                  calm_confirm calm_fees calm_simulate calm_signLegacy calm_signVersioned
                  (calm_config Unset Unset) 0 None (world_with versioned_transfer)
                  versioned_transfer eq_refl) as (_ & _ & Hversioned & _).
    destruct (Hversioned _ eq_refl) as (_ & Hsigns & _).
    exact (Hsigns Blockhash.mock_info tt eq_refl).
Defined.

(** C2 as stated fails for a versioned transaction: [send] writes the
    blockhash into the caller's object and signs it in place. *)
Lemma send_signs_versioned_in_place :
  heap (world_with versioned_transfer) !! 0%nat = Some versioned_transfer
  /\ heap (snd (calm_send Unset Unset 0 None (world_with versioned_transfer))) !! 0%nat
     = Some (Versioned
               {| message := {| version := 0;
                                m_recentBlockhash :=
                                  "GHtXQBsoZHVnNFa9YevAzFr17DJjgHXk3ycTKD5xD3Zi";
                                staticAccountKeys := ["Payer"; "Receiver"];
                                compiledInstructions := [transfer] |};
                  v_signatures := ["signed:Payer"] |})
  /\ ~ untouched 0 versioned_transfer
         (snd (calm_send Unset Unset 0 None (world_with versioned_transfer))).
Proof.
  split; [reflexivity|]. split; [vm_compute; reflexivity|].
  unfold untouched. vm_compute. discriminate.
Qed.

(** With priority fees disabled a legacy transaction is the working
    transaction too, and is signed in place. *)
Lemma send_signs_legacy_in_place_without_fees :
  heap (snd (calm_send Disabled Unset 0 None (world_with legacy_transfer))) !! 0%nat
  = Some (Legacy
            {| instructions := [transfer; setComputeUnitLimit 999999; setComputeUnitPrice 42];
               recentBlockhash := Some "GHtXQBsoZHVnNFa9YevAzFr17DJjgHXk3ycTKD5xD3Zi";
               feePayer := Some "Payer";
               signatures := [ {| signer_key := "Payer";
                                  signature := Some "signed:Payer" |} ] |}).
Proof. vm_compute. reflexivity. Qed.

(** Simulation disabled by configuration, no option given, through the
    theorem: no call to [simulateTransaction]. *)
Lemma skipSimulation_option_decides_witness :
  simulate_calls
    (trace (snd (calm_send Unset Disabled 0 None (world_with legacy_transfer)))) = 0%nat.
Proof.
  pose proof (skipSimulation_option_decides calm_now calm_random calm_sleep
                calm_getConnection calm_sendRaw calm_getBlockhash calm_getCachedBlockhash
                calm_getBlockhash calm_confirm calm_fees calm_simulate calm_signLegacy
                calm_signVersioned (calm_config Unset Disabled) 0 None
                (world_with legacy_transfer)) as (Hnone & _).
  apply Hnone; [reflexivity | discriminate].
Defined.

(** C3 as stated fails: simulation disabled by configuration and
    [skipSimulation = false] passed, and [simulateTransaction] is invoked. *)
Lemma simulation_runs_when_option_says_so :
  simulation (calm_config Unset Disabled) = Disabled
  /\ only_skipSimulation false ≫= o_skipSimulation = Some false
  /\ simulate_calls
       (trace (snd (calm_send Unset Disabled 0 (only_skipSimulation false)
                      (world_with legacy_transfer)))) = 1%nat
  /\ exists copy rest,
       trace (snd (calm_send Unset Disabled 0 (only_skipSimulation false)
                     (world_with legacy_transfer)))
       = CalledSimulate Blockhash.mainnet copy None :: rest.
Proof.
  split; [reflexivity|]. split; [reflexivity|]. split; [vm_compute; reflexivity|].
  eexists _, _. vm_compute. reflexivity.
Qed.

End SenderFacts.
